(** * MUSCUTS baseline: the image-to-sequence transformer of [transformer/model.py]

    A shallow embedding of [PositionalEncoding2D] and [Transformer]
    (positional table, feature flattening, teacher-forcing corruption, greedy
    autoregressive decoding, per-epoch accumulators) and the properties that
    the specification states about them.

    Conventions of the embedding.
    - A torch tensor is a shape together with its elements in row-major
      (contiguous) order.
    - Floating-point values that the code only builds and never compares are
      kept as symbolic expressions ([real]); scores that the code compares
      (decoder outputs, random draws, probabilities) are rationals.
    - A Python exception is a value of [exn]; every method runs in a
      state-and-exception monad over the interpreter state ([world]): the
      tensor store (so that aliasing is visible), the state of Python's
      [random] module, and the trace of calls to the outside (decoder,
      [print], the Lightning logger).
    - [self] is passed and returned explicitly. *)

From stdpp Require Import base option list gmap strings.
From Stdlib Require Import QArith Qfield ArithRing ZifyNat.

Close Scope Q_scope.
Local Open Scope nat_scope.

(** [lia] also decides goals with division and remainder by a constant. *)
#[local] Ltac Zify.zify_post_hook ::= Z.div_mod_to_equations.

(* ================================================================== *)
(** * Exceptions and results *)

Inductive exn : Set :=
| KeyError | ValueError | IndexError | RuntimeError | AssertionError
| ZeroDivisionError.

Inductive result (A : Type) : Type :=
| Ok (a : A)
| Raise (e : exn).
Arguments Ok {A} a.
Arguments Raise {A} e.

#[export] Instance result_ret : MRet result := λ A a, Ok a.
#[export] Instance result_bind : MBind result := λ A B f r,
  match r with Ok a => f a | Raise e => Raise e end.
#[export] Instance result_fmap : FMap result := λ A B f r,
  match r with Ok a => Ok (f a) | Raise e => Raise e end.

(** [o] or else raise [e]: a lookup that fails the Python way. *)
Definition or_raise {A} (e : exn) (o : option A) : result A :=
  match o with Some a => Ok a | None => Raise e end.

(* ================================================================== *)
(** * Tensors *)

Record tensor (A : Type) : Type := Tensor { shape : list nat; data : list A }.
Arguments Tensor {A} shape data.
Arguments shape {A} t.
Arguments data {A} t.

(** Number of elements of a shape. *)
Definition numel (sh : list nat) : nat := foldr Nat.mul 1 sh.

(** Row-major offset of a multi-index; [None] when the index has the wrong
    rank or leaves the shape. *)
Fixpoint offset (sh idx : list nat) : option nat :=
  match sh, idx with
  | [], [] => Some 0
  | n :: sh', i :: idx' =>
      if decide (i < n) then o ← offset sh' idx'; Some (i * numel sh' + o)
      else None
  | _, _ => None
  end.

(** All multi-indices of a shape, in row-major order. *)
Fixpoint indices (sh : list nat) : list (list nat) :=
  match sh with
  | [] => [[]]
  | n :: sh' => i ← seq 0 n; (i ::.) <$> indices sh'
  end.

Definition tbuild {A} (sh : list nat) (f : list nat → A) : tensor A :=
  Tensor sh (f <$> indices sh).

Definition tget {A} (t : tensor A) (idx : list nat) : option A :=
  o ← offset (shape t) idx; data t !! o.

Definition tget_d {A} `{Inhabited A} (t : tensor A) (idx : list nat) : A :=
  default inhabitant (tget t idx).

(** In-place element write, [t[idx] = v]; out of range is an IndexError. *)
Definition tset {A} (t : tensor A) (idx : list nat) (v : A) : result (tensor A) :=
  o ← or_raise IndexError (offset (shape t) idx);
  Ok (Tensor (shape t) (<[o := v]> (data t))).

(** The elements agree with the shape. *)
Definition wf {A} (t : tensor A) : Prop := length (data t) = numel (shape t).

Definition ndim {A} (t : tensor A) : nat := length (shape t).

(** [t.size(k)] *)
Definition size_at {A} (t : tensor A) (k : nat) : result nat :=
  or_raise IndexError (shape t !! k).

Definition tmap {A B} (f : A → B) (t : tensor A) : tensor B :=
  Tensor (shape t) (f <$> data t).

(** [torch.zeros(sh)], [torch.full(sh, v)] *)
Definition tfull {A} (sh : list nat) (v : A) : tensor A := tbuild sh (λ _, v).

(** [torch.arange(start, stop, step)] for a positive step. *)
Definition range_len (start stop step : nat) : nat :=
  (stop - start + (step - 1)) / step.
Arguments range_len : simpl never.

Definition arange (start stop step : nat) : tensor nat :=
  let n := range_len start stop step in
  Tensor [n] ((λ k, start + k * step) <$> seq 0 n).

(** [t.unsqueeze(k)]: a new axis of size 1 at position [k]. *)
Definition unsqueeze {A} (k : nat) (t : tensor A) : result (tensor A) :=
  if decide (k ≤ ndim t)
  then Ok (Tensor (take k (shape t) ++ 1 :: drop k (shape t)) (data t))
  else Raise IndexError.

(** Broadcasting, aligned on the last axis: an axis of size 1 stretches. *)
Fixpoint broadcast_rev (s1 s2 : list nat) : option (list nat) :=
  match s1, s2 with
  | [], s | s, [] => Some s
  | n :: s1', m :: s2' =>
      r ← broadcast_rev s1' s2';
      if decide (n = m) then Some (n :: r)
      else if decide (n = 1) then Some (m :: r)
      else if decide (m = 1) then Some (n :: r)
      else None
  end.

Definition broadcast_shapes (s1 s2 : list nat) : option (list nat) :=
  reverse <$> broadcast_rev (reverse s1) (reverse s2).

(** Can a tensor of shape [src] be stretched to [dst]? *)
Definition expandable (src dst : list nat) : bool :=
  bool_decide (length src ≤ length dst) &&
  forallb (λ p, bool_decide (p.1 = p.2 ∨ p.1 = 1))
          (zip src (drop (length dst - length src) dst)).

(** The index of the source element seen at [idx] of the stretched tensor. *)
Definition source_index (src idx : list nat) : list nat :=
  zip_with (λ n i, if decide (n = 1) then 0 else i)
           src (drop (length idx - length src) idx).

(** [t.expand(dst)] *)
Definition expand {A} `{Inhabited A} (dst : list nat) (t : tensor A)
  : result (tensor A) :=
  if expandable (shape t) dst
  then Ok (tbuild dst (λ idx, tget_d t (source_index (shape t) idx)))
  else Raise RuntimeError.

(** An elementwise binary operation with broadcasting. *)
Definition tmap2 {A B C} `{Inhabited A, Inhabited B}
    (f : A → B → C) (a : tensor A) (b : tensor B) : result (tensor C) :=
  sh ← or_raise RuntimeError (broadcast_shapes (shape a) (shape b));
  a' ← expand sh a;
  b' ← expand sh b;
  Ok (Tensor sh (zip_with f (data a') (data b'))).

(** [t.repeat(reps)] with one repetition count per axis. *)
Definition repeat {A} `{Inhabited A} (reps : list nat) (t : tensor A)
  : result (tensor A) :=
  if decide (length reps = ndim t)
  then Ok (tbuild (zip_with Nat.mul (shape t) reps)
             (λ idx, tget_d t (zip_with (λ i n, i `mod` n) idx (shape t))))
  else Raise RuntimeError.

(** [t.permute(dims)] followed by [.contiguous()]: axis [k] of the result is
    axis [dims[k]] of [t]. *)
Definition is_permutation (dims : list nat) : bool :=
  bool_decide (dims ≡ₚ seq 0 (length dims)).

Definition permute {A} `{Inhabited A} (dims : list nat) (t : tensor A)
  : result (tensor A) :=
  if bool_decide (length dims = ndim t) && is_permutation dims
  then Ok (tbuild ((λ d, default 0 (shape t !! d)) <$> dims)
             (λ idx, tget_d t
                ((λ d, default 0 (i ← list_find (λ x, x = d) dims; idx !! i.1))
                   <$> seq 0 (length dims))))
  else Raise RuntimeError.

(** [t.flatten(start_dim)]: the axes from [start_dim] on become one; the
    elements stay where they are. *)
Definition flatten {A} (start_dim : nat) (t : tensor A) : result (tensor A) :=
  if decide (start_dim < ndim t ∨ (start_dim = 0 ∧ ndim t = 0))
  then Ok (Tensor (take start_dim (shape t) ++ [numel (drop start_dim (shape t))])
                  (data t))
  else Raise IndexError.

(** Python slice [start:stop:step] on an axis of length [len], for
    non-negative bounds ([stop = None] is an open end): the first index and
    the bound, both clamped to the axis. *)
Definition slice_bounds (start : nat) (stop : option nat) (len : nat) : nat * nat :=
  (start `min` len, default len stop `min` len).

(** Is [k] selected by the slice, and at which position of the slice? *)
Definition slice_pos (lo hi step k : nat) : option nat :=
  if decide (lo ≤ k < hi ∧ (k - lo) `mod` step = 0)
  then Some ((k - lo) / step) else None.

(** [t[0, :, :, start:stop:step] = v] on a 4-axis tensor; [v] is stretched
    to the shape of the selected block, or the assignment raises. *)
Definition setitem_0_slice {A} `{Inhabited A} (t : tensor A)
    (start : nat) (stop : option nat) (step : nat) (v : tensor A)
  : result (tensor A) :=
  match shape t with
  | [n0; h; w; c] =>
      if decide (0 < n0) then
        let '(lo, hi) := slice_bounds start stop c in
        v' ← expand [h; w; range_len lo hi step] v;
        Ok (tbuild (shape t) (λ idx,
              match idx with
              | [0; i; j; k] =>
                  match slice_pos lo hi step k with
                  | Some p => tget_d v' [i; j; p]
                  | None => tget_d t idx
                  end
              | _ => tget_d t idx
              end))
      else Raise IndexError
  | _ => Raise IndexError
  end.

(** [t[:, :, :h, :w]] on a 4-axis tensor. *)
Definition getitem_hw {A} `{Inhabited A} (t : tensor A) (h w : nat)
  : result (tensor A) :=
  match shape t with
  | [a; b; H; W] => Ok (tbuild [a; b; h `min` H; w `min` W] (tget_d t))
  | _ => Raise IndexError
  end.

(** [t[0, :, -1]] on a 3-axis tensor. *)
Definition getitem_0_all_last {A} `{Inhabited A} (t : tensor A)
  : result (tensor A) :=
  match shape t with
  | [b; v; l] =>
      if decide (0 < b ∧ 0 < l)
      then Ok (tbuild [v] (λ idx, tget_d t (0 :: idx ++ [l - 1])))
      else Raise IndexError
  | _ => Raise IndexError
  end.

(** [torch.cat([a, b], dim=1)] on 2-axis tensors. *)
Definition cat_dim1 {A} `{Inhabited A} (a b : tensor A) : result (tensor A) :=
  match shape a, shape b with
  | [r1; c1], [r2; c2] =>
      if decide (r1 = r2)
      then Ok (tbuild [r1; c1 + c2] (λ idx,
                 match idx with
                 | [i; j] => if decide (j < c1) then tget_d a [i; j]
                             else tget_d b [i; j - c1]
                 | _ => inhabitant
                 end))
      else Raise RuntimeError
  | _, _ => Raise RuntimeError
  end.

(** The elements of [t[0][1:]] for a 2-axis tensor [t], in order. *)
Definition row0_tail {A} (t : tensor A) : result (list A) :=
  match shape t with
  | [b; l] => if decide (0 < b) then Ok (drop 1 (take l (data t)))
              else Raise IndexError
  | _ => Raise IndexError
  end.

(** [t.argmax(dim=-1).item()] on a 1-axis tensor of scores: the first index
    that holds the maximum. *)
Definition Qltb (a b : Q) : bool := negb (Qle_bool b a).

Fixpoint argmax_from (best : nat) (bv : Q) (i : nat) (l : list Q) : nat :=
  match l with
  | [] => best
  | v :: l' => if Qltb bv v then argmax_from i v (S i) l'
               else argmax_from best bv (S i) l'
  end.

Definition argmax (t : tensor Q) : result nat :=
  match shape t, data t with
  | [_], v :: l => Ok (argmax_from 0 v 1 l)
  | _, _ => Raise IndexError
  end.

(* ================================================================== *)
(** * Symbolic floating-point values *)

Inductive real : Type :=
| RNum (q : Q)
| RPow (b e : real)
| RDiv (a b : real)
| RAdd (a b : real)
| RSin (a : real)
| RCos (a : real).

#[export] Instance real_inhabited : Inhabited real := populate (RNum 0).
#[export] Instance Q_inhabited : Inhabited Q := populate 0%Q.

Definition RNat (n : nat) : real := RNum (inject_Z (Z.of_nat n)).

(* ================================================================== *)
(** * [class PositionalEncoding2D] *)

Record PositionalEncoding2D : Type := {
  pe : tensor real;
  dropout_p : Q;
}.

(** The exponents [torch.arange(0, num_channels // 2, 2) / num_channels]:
    [i / num_channels] for [i = 0, 2, 4, ...] below [num_channels // 2]. *)
Definition den_exponent (num_channels i : nat) : Q :=
  (inject_Z (Z.of_nat i) / inject_Z (Z.of_nat num_channels))%Q.

Definition den_exponents (num_channels : nat) : tensor Q :=
  tmap (den_exponent num_channels) (arange 0 (num_channels / 2) 2).

(** The table built by [__init__]. *)
Definition PositionalEncoding2D_table (num_channels max_height max_width : nat)
  : result (tensor real) :=
  pos_h ← unsqueeze 1 (arange 0 max_height 1);
  pos_w ← unsqueeze 1 (arange 0 max_width 1);
  let den := tmap (λ e, RPow (RNum 10000) (RNum e)) (den_exponents num_channels) in
  let pe := tfull [1; max_height; max_width; num_channels] (RNum 0) in
  a_w ← tmap2 RDiv (tmap RNat pos_w) den;
  v ← unsqueeze 0 (tmap RSin a_w);
  v ← repeat [max_height; 1; 1] v;
  pe ← setitem_0_slice pe 0 (Some (num_channels / 2)) 2 v;
  v ← unsqueeze 0 (tmap RCos a_w);
  v ← repeat [max_height; 1; 1] v;
  pe ← setitem_0_slice pe 1 (Some (num_channels / 2)) 2 v;
  a_h ← tmap2 RDiv (tmap RNat pos_h) den;
  v ← unsqueeze 1 (tmap RSin a_h);
  v ← repeat [1; max_width; 1] v;
  pe ← setitem_0_slice pe (num_channels / 2) None 2 v;
  v ← unsqueeze 1 (tmap RCos a_h);
  v ← repeat [1; max_width; 1] v;
  pe ← setitem_0_slice pe (num_channels / 2 + 1) None 2 v;
  permute [0; 3; 1; 2] pe.

Definition PositionalEncoding2D_init
    (num_channels max_height max_width : nat) (dropout_p : Q)
  : result PositionalEncoding2D :=
  pe ← PositionalEncoding2D_table num_channels max_height max_width;
  Ok {| pe := pe; dropout_p := dropout_p |}.

(* ================================================================== *)
(** * The environment of the module

    What [model.py] imports and does not define: Python's [random], the
    torch generator behind [nn.Dropout], [torch.topk], the constants of the
    sibling modules, the [Encoder] and [Decoder] networks, the loss and the
    metrics.  The networks are functions of their inputs (their weights are
    fixed and they raise on a shape they reject). *)

Class Env : Type := {
  (** Python's [random] module *)
  rng_state : Type;
  random_random : rng_state → Q * rng_state;
  random_randint : Z → Z → rng_state → option (Z * rng_state);
  random_random_range : ∀ r,
    (0 <= (random_random r).1)%Q ∧ ((random_random r).1 < 1)%Q;
  random_randint_empty : ∀ a b r, (b < a)%Z → random_randint a b r = None;
  random_randint_range : ∀ a b r, (a ≤ b)%Z →
    ∃ v r', random_randint a b r = Some (v, r') ∧ (a ≤ v ≤ b)%Z;
  (** the torch generator, used by dropout in training mode *)
  torch_gen : Type;
  dropout_train : Q → tensor real → torch_gen → tensor real * torch_gen;
  (** [t.topk(k=1, dim=-1)] on a 1-axis tensor: the value and the index *)
  torch_topk1 : tensor Q → result (Q * nat);
  (** constants of [data.ar_dataset], [transformer.encoder], [data.preprocessing] *)
  SOS_TOKEN : string;
  EOS_TOKEN : string;
  HEIGHT_REDUCTION : nat;
  WIDTH_REDUCTION : nat;
  NUM_CHANNELS : nat;
  (** [Encoder(in_channels)], [Decoder(output_size, max_seq_len,
      num_embeddings, padding_idx, attn_window)] *)
  Encoder : nat → tensor real → result (tensor real);
  Decoder : nat → nat → nat → Z → Z →
            tensor Z → tensor real → option (tensor Z) → result (tensor Q);
  (** [CrossEntropyLoss(ignore_index)(yhat, y_out)] *)
  CrossEntropyLoss : Z → tensor Q → tensor Z → result Q;
  (** [utils.metrics.compute_metrics(y_true, y_pred).items()] *)
  compute_metrics : list (list string) → list (list string) → list (string * Q);
}.

(** What the module does to the outside. *)
Inductive event : Type :=
| DecoderCall (tgt : tensor Z) (memory : tensor real) (memory_len : option (tensor Z))
| Printed (text : string) (value : option (list string))
| Summarised (input_sizes : list (list nat))
| Logged (key : string) (value : Q).

Abbreviation loc := nat (only parsing).

Section Model.
Context `{env : Env}.

(** The interpreter state. *)
Record world : Type := World {
  heap : list (tensor Z);
  rng : rng_state;
  gen : torch_gen;
  events : list event;
}.

Definition set_heap (h : list (tensor Z)) (w : world) : world :=
  World h (rng w) (gen w) (events w).
Definition set_rng (r : rng_state) (w : world) : world :=
  World (heap w) r (gen w) (events w).
Definition set_gen (g : torch_gen) (w : world) : world :=
  World (heap w) (rng w) g (events w).
Definition set_events (e : list event) (w : world) : world :=
  World (heap w) (rng w) (gen w) e.

(** State and exceptions; the state survives an exception. *)
Definition M (A : Type) : Type := world → world * result A.

#[export] Instance M_ret : MRet M := λ A a w, (w, Ok a).
#[export] Instance M_bind : MBind M := λ A B f c w,
  match c w with
  | (w', Ok a) => f a w'
  | (w', Raise e) => (w', Raise e)
  end.

Definition lift {A} (r : result A) : M A := λ w, (w, r).
Definition raise {A} (e : exn) : M A := lift (Raise e).
Definition emit (e : event) : M unit :=
  λ w, (set_events (events w ++ [e]) w, Ok ()).

(** [random.random()] and [random.randint(a, b)] *)
Definition py_random : M Q := λ w,
  let '(u, r) := random_random (rng w) in (set_rng r w, Ok u).
Definition py_randint (a b : Z) : M Z := λ w,
  match random_randint a b (rng w) with
  | Some (v, r) => (set_rng r w, Ok v)
  | None => (w, Raise ValueError)
  end.

(** The tensor store: integer tensors are objects with an address. *)
Definition load (l : loc) : M (tensor Z) := λ w,
  (w, or_raise RuntimeError (heap w !! l)).
Definition store (l : loc) (t : tensor Z) : M unit := λ w,
  (set_heap (<[l := t]> (heap w)) w, Ok ()).
Definition alloc (t : tensor Z) : M loc := λ w,
  (set_heap (heap w ++ [t]) w, Ok (length (heap w))).

(** [y.clone()], [y.size(k)], [y[i, j]] and [y[i, j] = v] *)
Definition clone (y : loc) : M loc := t ← load y; alloc t.
Definition tensor_size (y : loc) (k : nat) : M nat := t ← load y; lift (size_at t k).
Definition getitem (y : loc) (idx : list nat) : M Z :=
  t ← load y; lift (or_raise IndexError (tget t idx)).
Definition setitem (y : loc) (idx : list nat) (v : Z) : M unit :=
  t ← load y; t' ← lift (tset t idx v); store y t'.

(** [for a in l: body(a)] and [for i in range(n): body(i)] *)
Fixpoint for_each {A} (l : list A) (body : A → M unit) : M unit :=
  match l with
  | [] => mret ()
  | a :: l' => body a ;; for_each l' body
  end.
Definition for_range (n : nat) (body : nat → M unit) : M unit :=
  for_each (seq 0 n) body.

(** [d[k]] on a dict and [l[i]] on a list *)
Definition dict_get `{Countable K} {V} (d : gmap K V) (k : K) : result V :=
  or_raise KeyError (d !! k).

Definition list_getitem {A} (l : list A) (i : Z) : result A :=
  let n := Z.of_nat (length l) in
  if decide (0 ≤ i < n)%Z then or_raise IndexError (l !! Z.to_nat i)
  else if decide (- n ≤ i < 0)%Z then or_raise IndexError (l !! Z.to_nat (n + i))
  else Raise IndexError.

(** [[f(a) for a in l]] for an [f] that may raise. *)
Fixpoint list_comprehension {A B} (f : A → result B) (l : list A) : result (list B) :=
  match l with
  | [] => Ok []
  | a :: l' => b ← f a; bs ← list_comprehension f l'; Ok (b :: bs)
  end.

(** [math.ceil(a / b)] on non-negative integers. *)
Definition ceil_div (a b : nat) : result nat :=
  if decide (b = 0) then Raise ZeroDivisionError else Ok ((a + (b - 1)) / b).

(* ------------------------------------------------------------------ *)
(** ** [PositionalEncoding2D.forward] *)

(** [nn.Dropout]: the identity unless the module is in training mode. *)
Definition Dropout_forward (training : bool) (p : Q) (x : tensor real)
  : M (tensor real) :=
  if training
  then λ w, let '(x', g) := dropout_train p x (gen w) in (set_gen g w, Ok x')
  else mret x.

Definition PositionalEncoding2D_forward (self : PositionalEncoding2D)
    (training : bool) (x : tensor real) : M (tensor real) :=
  h ← lift (size_at x 2);
  w ← lift (size_at x 3);
  p ← lift (getitem_hw (pe self) h w);
  x ← lift (tmap2 RAdd x p);
  Dropout_forward training (dropout_p self) x.

(* ------------------------------------------------------------------ *)
(** ** [class Transformer] *)

Record Transformer : Type := {
  w2i : gmap string Z;
  i2w : gmap Z string;
  ytest_i2w : gmap Z string;
  padding_idx : Z;
  max_seq_len : nat;
  teacher_forcing_prob : Q;
  encoder : tensor real → result (tensor real);
  pos_2d : PositionalEncoding2D;
  decoder : tensor Z → tensor real → option (tensor Z) → result (tensor Q);
  compute_loss : tensor Q → tensor Z → result Q;
  training : bool;
  Y : list (list string);
  YHat : list (list string);
}.

Definition set_accumulators (y yhat : list (list string)) (self : Transformer)
  : Transformer :=
  {| w2i := w2i self; i2w := i2w self; ytest_i2w := ytest_i2w self;
     padding_idx := padding_idx self; max_seq_len := max_seq_len self;
     teacher_forcing_prob := teacher_forcing_prob self;
     encoder := encoder self; pos_2d := pos_2d self; decoder := decoder self;
     compute_loss := compute_loss self; training := training self;
     Y := y; YHat := yhat |}.

Definition Transformer_summary (self : Transformer)
    (max_input_height max_input_width : nat) : M unit :=
  emit (Printed "Encoder" None) ;;
  emit (Summarised [[1; NUM_CHANNELS; max_input_height; max_input_width]]) ;;
  emit (Printed "Decoder" None) ;;
  let tgt_size := [1; max_seq_len self] in
  h ← lift (ceil_div max_input_height HEIGHT_REDUCTION);
  w ← lift (ceil_div max_input_width WIDTH_REDUCTION);
  let memory_size := [1; h * w; 256] in
  let memory_len_size := [1] in
  emit (Summarised [tgt_size; memory_size; memory_len_size]).

Definition Transformer_init
    (max_input_height max_input_width max_seq_len : nat)
    (w2i : gmap string Z) (i2w : gmap Z string)
    (ytest_i2w : option (gmap Z string))
    (attn_window : Z) (teacher_forcing_prob : Q) : M Transformer :=
  padding_idx ← lift (dict_get w2i "<PAD>");
  h ← lift (ceil_div max_input_height HEIGHT_REDUCTION);
  w ← lift (ceil_div max_input_width WIDTH_REDUCTION);
  pos_2d ← lift (PositionalEncoding2D_init 256 h w (1 # 10));
  let self :=
    {| w2i := w2i; i2w := i2w;
       ytest_i2w := match ytest_i2w with Some d => d | None => i2w end;
       padding_idx := padding_idx;
       max_seq_len := max_seq_len;
       teacher_forcing_prob := teacher_forcing_prob;
       encoder := Encoder NUM_CHANNELS;
       pos_2d := pos_2d;
       decoder := Decoder (size w2i) max_seq_len (size w2i)
                          padding_idx attn_window;
       compute_loss := CrossEntropyLoss padding_idx;
       training := true;
       Y := []; YHat := [] |} in
  Transformer_summary self max_input_height max_input_width ;;
  mret self.

(** [x.flatten(2).permute(0, 2, 1).contiguous()] *)
Definition flatten_features (x : tensor real) : result (tensor real) :=
  x ← flatten 2 x; permute [0; 2; 1] x.

(** The encoder side shared by [forward], [validation_step] and
    [get_pred_seq_and_pred_prob_seq]. *)
Definition encode_memory (self : Transformer) (x : tensor real) : M (tensor real) :=
  x ← lift (encoder self x);
  x ← PositionalEncoding2D_forward (pos_2d self) (training self) x;
  lift (flatten_features x).

Definition call_decoder (self : Transformer) (tgt : tensor Z)
    (memory : tensor real) (memory_len : option (tensor Z)) : M (tensor Q) :=
  emit (DecoderCall tgt memory memory_len) ;;
  lift (decoder self tgt memory memory_len).

Definition Transformer_forward (self : Transformer)
    (x : tensor real) (xl : tensor Z) (y_in : loc) : M (tensor Q) :=
  x ← encode_memory self x;
  tgt ← load y_in;
  call_decoder self tgt x (Some xl).

Definition apply_teacher_forcing (self : Transformer) (y : loc) : M loc :=
  y_errored ← clone y;
  n0 ← tensor_size y_errored 0;
  for_range n0 (λ i,
    n1 ← tensor_size y_errored 1;
    for_range n1 (λ j,
      u ← py_random;
      if Qltb u (teacher_forcing_prob self) then
        y_ij ← getitem y [i; j];
        if decide (y_ij ≠ padding_idx self) then
          v ← py_randint 0 (Z.of_nat (size (w2i self)) - 1);
          setitem y_errored [i; j] v
        else mret ()
      else mret ())) ;;
  mret y_errored.

Definition training_step (self : Transformer)
    (x : tensor real) (xl : tensor Z) (y_in : loc) (y_out : tensor Z) : M Q :=
  y_in ← apply_teacher_forcing self y_in;
  yhat ← Transformer_forward self x xl y_in;
  loss ← lift (compute_loss self yhat y_out);
  emit (Logged "train_loss" loss) ;;
  mret loss.

(* ------------------------------------------------------------------ *)
(** ** Inference *)

(** The body of [for _ in range(self.max_seq_len)] in [validation_step],
    with [n] iterations left. *)
Fixpoint decode_loop (self : Transformer) (x : tensor real) (n : nat)
    (y_in : tensor Z) (yhat : list string) : M (tensor Z * list string) :=
  match n with
  | 0 => mret (y_in, yhat)
  | S n' =>
      y_out_hat ← call_decoder self y_in x None;
      y_out_hat ← lift (getitem_0_all_last y_out_hat);
      y_out_hat_token ← lift (argmax y_out_hat);
      y_out_hat_word ← lift (dict_get (i2w self) (Z.of_nat y_out_hat_token));
      let yhat := yhat ++ [y_out_hat_word] in
      if decide (y_out_hat_word = EOS_TOKEN) then mret (y_in, yhat)
      else
        y_in ← lift (cat_dim1 y_in (Tensor [1; 1] [Z.of_nat y_out_hat_token]));
        decode_loop self x n' y_in yhat
  end.

(** [torch.tensor([self.w2i[SOS_TOKEN]]).unsqueeze(0)] *)
Definition start_sequence (self : Transformer) : result (tensor Z) :=
  sos ← dict_get (w2i self) SOS_TOKEN;
  unsqueeze 0 (Tensor [1] [sos]).

(** [validation_step] up to the end of the loop: the final decoding
    sequence and the predicted words. *)
Definition autoregressive_decoding (self : Transformer) (x : tensor real)
  : M (tensor Z * list string) :=
  b ← lift (size_at x 0);
  if decide (b = 1) then
    x ← encode_memory self x;
    y_in ← lift (start_sequence self);
    decode_loop self x (max_seq_len self) y_in []
  else raise AssertionError.

Definition validation_step (self : Transformer) (x : tensor real) (y : tensor Z)
  : M Transformer :=
  '(_, yhat) ← autoregressive_decoding self x;
  toks ← lift (row0_tail y);
  y ← lift (list_comprehension (dict_get (ytest_i2w self)) toks);
  mret (set_accumulators (Y self ++ [y]) (YHat self ++ [yhat]) self).

Definition test_step (self : Transformer) (x : tensor real) (y : tensor Z)
  : M Transformer :=
  validation_step self x y.

Definition on_validation_epoch_end (self : Transformer)
    (name : string) (print_random_samples : bool)
  : M (Transformer * list (string * Q)) :=
  let metrics := compute_metrics (Y self) (YHat self) in
  for_each metrics (λ kv, emit (Logged (name +:+ "_" +:+ kv.1) kv.2)) ;;
  (if print_random_samples then
     index ← py_randint 0 (Z.of_nat (length (Y self)) - 1);
     y ← lift (list_getitem (Y self) index);
     emit (Printed "Ground truth - " (Some y)) ;;
     yhat ← lift (list_getitem (YHat self) index);
     emit (Printed "Prediction - " (Some yhat))
   else mret ()) ;;
  mret (set_accumulators [] [] self, metrics).

Definition on_test_epoch_end (self : Transformer)
  : M (Transformer * list (string * Q)) :=
  on_validation_epoch_end self "test" true.

(** The loop of [get_pred_seq_and_pred_prob_seq]. *)
Fixpoint decode_loop_prob (self : Transformer) (x : tensor real) (n : nat)
    (y_in : tensor Z) (yhat : list string) (yhat_prob : list Q)
  : M (tensor Z * list string * list Q) :=
  match n with
  | 0 => mret (y_in, yhat, yhat_prob)
  | S n' =>
      y_out_hat ← call_decoder self y_in x None;
      y_out_hat ← lift (getitem_0_all_last y_out_hat);
      '(y_out_hat_prob, y_out_hat_token) ← lift (torch_topk1 y_out_hat);
      y_out_hat_word ← lift (dict_get (i2w self) (Z.of_nat y_out_hat_token));
      let yhat := yhat ++ [y_out_hat_word] in
      let yhat_prob := yhat_prob ++ [y_out_hat_prob] in
      if decide (y_out_hat_word = EOS_TOKEN) then mret (y_in, yhat, yhat_prob)
      else
        tok ← lift (unsqueeze 0 (Tensor [1] [Z.of_nat y_out_hat_token]));
        y_in ← lift (cat_dim1 y_in tok);
        decode_loop_prob self x n' y_in yhat yhat_prob
  end.

Definition get_pred_seq_and_pred_prob_seq (self : Transformer) (x : tensor real)
  : M (list string * list Q) :=
  b ← lift (size_at x 0);
  if decide (b = 1) then
    x ← encode_memory self x;
    y_in ← lift (start_sequence self);
    '(_, yhat, yhat_prob) ← decode_loop_prob self x (max_seq_len self) y_in [] [];
    mret (yhat, yhat_prob)
  else raise AssertionError.

End Model.

(* ================================================================== *)
(** * A concrete environment

    A small vocabulary, a counter-based random source, a dropout that zeroes
    every other element, and a decoder that answers "a", "b" and then the
    end marker according to the length of the sequence it is given. *)

Definition demo_random (n : nat) : Q * nat :=
  ((Z.of_nat (n `mod` 10) # 10)%Q, S n).

Definition demo_randint (a b : Z) (n : nat) : option (Z * nat) :=
  if decide (b < a)%Z then None
  else Some ((a + Z.of_nat n `mod` (b - a + 1))%Z, S n).

Definition demo_dropout (p : Q) (x : tensor real) (g : nat) : tensor real * nat :=
  (Tensor (shape x)
     (imap (λ i v, if Nat.even (i + g) then RNum 0 else v) (data x)), S g).

Definition demo_topk1 (t : tensor Q) : result (Q * nat) :=
  i ← argmax t; Ok (default 0%Q (data t !! i), i).

Definition demo_encoder (in_channels : nat) (x : tensor real)
  : result (tensor real) :=
  match shape x with
  | [b; c; h; w] =>
      if decide (c = in_channels)
      then Ok (tfull [b; 256; (h + 15) / 16; (w + 7) / 8] (RNum (1 # 2)))
      else Raise RuntimeError
  | _ => Raise RuntimeError
  end.

(** Scores [batch, vocabulary, length]: at every position the token 3, 4 or 2
    according to the length of the target. *)
Definition demo_decoder (output_size max_seq_len num_embeddings : nat)
    (padding_idx attn_window : Z)
    (tgt : tensor Z) (memory : tensor real) (memory_len : option (tensor Z))
  : result (tensor Q) :=
  match shape tgt with
  | [b; l] =>
      if decide (l ≤ max_seq_len) then
        let best := match l with 1 => 3 | 2 => 4 | _ => 2 end in
        Ok (tbuild [b; output_size; l] (λ idx,
              match idx with
              | [_; v; _] => if decide (v = best) then 1%Q else 0%Q
              | _ => 0%Q
              end))
      else Raise RuntimeError
  | _ => Raise RuntimeError
  end.

Definition demo_metrics (y_true y_pred : list (list string)) : list (string * Q) :=
  [("samples", inject_Z (Z.of_nat (length y_true)));
   ("exact", inject_Z (Z.of_nat (length
      (filter (λ p, p.1 = p.2) (zip y_true y_pred)))))].

Lemma demo_random_range (r : nat) :
  (0 <= (demo_random r).1)%Q ∧ ((demo_random r).1 < 1)%Q.
Proof.
  unfold demo_random, Qle, Qlt; simpl.
  pose proof (Nat.mod_upper_bound r 10). lia.
Qed.

Lemma demo_randint_empty (a b : Z) (r : nat) :
  (b < a)%Z → demo_randint a b r = None.
Proof. intros Hlt. unfold demo_randint. by rewrite decide_True. Qed.

Lemma demo_randint_range (a b : Z) (r : nat) :
  (a ≤ b)%Z →
  ∃ v r', demo_randint a b r = Some (v, r') ∧ (a ≤ v ≤ b)%Z.
Proof.
  intros Hle. unfold demo_randint. rewrite decide_False by lia.
  eexists _, _. split; [done|].
  pose proof (Z.mod_pos_bound (Z.of_nat r) (b - a + 1)). lia.
Qed.

#[export] Instance demo_env : Env := {|
  rng_state := nat;
  random_random := demo_random;
  random_randint := demo_randint;
  random_random_range := demo_random_range;
  random_randint_empty := demo_randint_empty;
  random_randint_range := demo_randint_range;
  torch_gen := nat;
  dropout_train := demo_dropout;
  torch_topk1 := demo_topk1;
  SOS_TOKEN := "<SOS>";
  EOS_TOKEN := "<EOS>";
  HEIGHT_REDUCTION := 16;
  WIDTH_REDUCTION := 8;
  NUM_CHANNELS := 1;
  Encoder := demo_encoder;
  Decoder := demo_decoder;
  CrossEntropyLoss := λ _ _ _, Ok 0%Q;
  compute_metrics := demo_metrics;
|}.

Definition demo_w2i : gmap string Z :=
  list_to_map [("<PAD>", 0); ("<SOS>", 1); ("<EOS>", 2); ("a", 3); ("b", 4)]%Z.
Definition demo_i2w : gmap Z string :=
  list_to_map [(0, "<PAD>"); (1, "<SOS>"); (2, "<EOS>"); (3, "a"); (4, "b")]%Z.

Definition demo_world : world := World [] 0 0 [].

Definition demo_pos_2d : PositionalEncoding2D :=
  match PositionalEncoding2D_init 256 1 2 (1 # 10) with
  | Ok p => p
  | Raise _ => {| pe := tfull [] (RNum 0); dropout_p := 0 |}
  end.

Definition demo_self : Transformer :=
  {| w2i := demo_w2i; i2w := demo_i2w; ytest_i2w := demo_i2w; padding_idx := 0;
     max_seq_len := 10; teacher_forcing_prob := 1 # 2;
     encoder := Encoder NUM_CHANNELS; pos_2d := demo_pos_2d;
     decoder := Decoder 5 10 5 0 (-1); compute_loss := CrossEntropyLoss 0;
     training := false; Y := []; YHat := [] |}.

Definition demo_image : tensor real := tfull [1; 1; 16; 16] (RNum 0).

(* ================================================================== *)
(** * The statements of the specification that are compared with the code *)

(** [v] is the sine or the cosine of [pos / 10000^e]. *)
Definition sinusoid_of (v : real) (pos : nat) (e : Q) : Prop :=
  ∃ e', (e' == e)%Q ∧
    (v = RSin (RDiv (RNat pos) (RPow (RNum 10000) (RNum e'))) ∨
     v = RCos (RDiv (RNat pos) (RPow (RNum 10000) (RNum e')))).

(** The specification's exponent: "10000^(2i/C) for i = 0, 2, 4, ...". *)
Definition spec_den_exponent (num_channels i : nat) : Q :=
  (inject_Z (Z.of_nat (2 * i)) / inject_Z (Z.of_nat num_channels))%Q.

(** The positional table as the specification words it: built for the
    channel count, of shape [1, C, H, W], the first half of the channels a
    sinusoid of the column and the second half a sinusoid of the row, channel
    [i = 0, 2, 4, ...] of each half over the denominator [10000^(2i/C)]. *)
Definition table_as_specified (num_channels max_height max_width : nat) : Prop :=
  ∃ pe, PositionalEncoding2D_table num_channels max_height max_width = Ok pe ∧
        shape pe = [1; num_channels; max_height; max_width] ∧
        ∀ i h w, i < num_channels / 2 → Nat.even i = true →
                 h < max_height → w < max_width →
          ∃ v v', tget pe [0; i; h; w] = Some v ∧
                  sinusoid_of v w (spec_den_exponent num_channels i) ∧
                  tget pe [0; num_channels / 2 + i; h; w] = Some v' ∧
                  sinusoid_of v' h (spec_den_exponent num_channels i).

Section SpecCorruptor.
Context `{env : Env}.
(** The corruptor as the specification words it: a function of the tokens in
    row-major order and of the random source; each token that is not padding
    is replaced, with probability [p], by a draw from the vocabulary. *)
Definition corrupt_token (p : Q) (pad : Z) (V : nat) (x : Z) (r : rng_state)
  : option (Z * rng_state) :=
  let '(u, r1) := random_random r in
  if Qltb u p && bool_decide (x ≠ pad)
  then random_randint 0 (Z.of_nat V - 1) r1
  else Some (x, r1).

Fixpoint corrupt_tokens (p : Q) (pad : Z) (V : nat) (l : list Z) (r : rng_state)
  : option (list Z * rng_state) :=
  match l with
  | [] => Some ([], r)
  | x :: l' =>
      '(v, r1) ← corrupt_token p pad V x r;
      '(d, r2) ← corrupt_tokens p pad V l' r1;
      Some (v :: d, r2)
  end.
End SpecCorruptor.

(** The score of token [v] at the last position of the first sample of
    [scores], a [batch, vocabulary, length] tensor. *)
Definition last_score (scores : tensor Q) (v : nat) : Q :=
  match shape scores with
  | [_; _; L] => tget_d scores [0; v; L - 1]
  | _ => 0%Q
  end.

(** [tok] holds a highest score of the last position. *)
Definition top_of_last_position (scores : tensor Q) (tok : nat) : Prop :=
  ∃ b V L, shape scores = [b; V; L] ∧ 0 < b ∧ 0 < L ∧ tok < V ∧
    ∀ v, v < V → (last_score scores v <= last_score scores tok)%Q.

(** [tok] is the argmax of the last position: the first token that holds a
    highest score. *)
Definition argmax_of_last_position (scores : tensor Q) (tok : nat) : Prop :=
  top_of_last_position scores tok ∧
  ∀ v, v < tok → (last_score scores v < last_score scores tok)%Q.

(** No two tokens are tied for the highest score of the last position. *)
Definition no_tied_top (scores : tensor Q) : Prop :=
  ∀ t1 t2, top_of_last_position scores t1 → top_of_last_position scores t2 →
           t1 = t2.

Section SpecDecoding.
Context `{env : Env}.

(** A token sequence as the [1, length] tensor that is fed to the decoder. *)
Definition row (s : list Z) : tensor Z := Tensor [1; length s] s.

(** One iteration of the loop of [validation_step] up to the word, as the
    code computes it, as a function of the decoding sequence. *)
Definition greedy_choice (self : Transformer) (x : tensor real) (s : list Z)
  : result (nat * string) :=
  out ← decoder self (row s) x None;
  dist ← getitem_0_all_last out;
  tok ← argmax dist;
  word ← dict_get (i2w self) (Z.of_nat tok);
  Ok (tok, word).

Inductive outcome : Type :=
| EosReached
| BoundReached
| Failed (e : exn).

(** The iterations of the loop unfolded, with [n] iterations left, the
    decoding sequence [s] and the output [out]: the sequences [fed] to the
    decoder, an outcome, the final decoding sequence and the final output. *)
Inductive sm_run (self : Transformer) (x : tensor real)
  : nat → list Z → list string →
    list (list Z) → outcome → list Z → list string → Prop :=
| sm_bound s out :
    (* the steps are exhausted: stop with what has been generated *)
    sm_run self x 0 s out [] BoundReached s out
| sm_eos n s out tok :
    (* the selected word is the end marker: append the word and stop; the
       token is not appended to the decoding sequence *)
    greedy_choice self x s = Ok (tok, EOS_TOKEN) →
    sm_run self x (S n) s out [s] EosReached s (out ++ [EOS_TOKEN])
| sm_continue n s out tok word fed o s' out' :
    (* otherwise append the word to the output and the token to the decoding
       sequence, and repeat *)
    greedy_choice self x s = Ok (tok, word) → word ≠ EOS_TOKEN →
    sm_run self x n (s ++ [Z.of_nat tok]) (out ++ [word]) fed o s' out' →
    sm_run self x (S n) s out (s :: fed) o s' out'
| sm_fail n s out e :
    (* the decoder, the selection or the vocabulary raises *)
    greedy_choice self x s = Raise e →
    sm_run self x (S n) s out [s] (Failed e) s out.

Definition result_of (o : outcome) (s : list Z) (out : list string)
  : result (tensor Z * list string) :=
  match o with
  | EosReached | BoundReached => Ok (row s, out)
  | Failed e => Raise e
  end.

Definition decoder_calls (x : tensor real) (fed : list (list Z)) : list event :=
  (λ s, DecoderCall (row s) x None) <$> fed.

(** One step of the specification: the decoder is run on the decoding
    sequence and the memory, the argmax token of the last position is
    selected, and its word is looked up. *)
Definition selects (self : Transformer) (m : tensor real) (s : list Z)
    (tok : nat) (word : string) : Prop :=
  ∃ scores, decoder self (row s) m None = Ok scores ∧
            argmax_of_last_position scores tok ∧
            i2w self !! Z.of_nat tok = Some word.

(** A step that cannot be made: the decoder raises, its answer has no last
    position or no token to select, or the selected token has no word. *)
Definition step_raises (self : Transformer) (m : tensor real) (s : list Z)
    (e : exn) : Prop :=
  decoder self (row s) m None = Raise e ∨
  ∃ scores, decoder self (row s) m None = Ok scores ∧
    ((e = IndexError ∧ ∀ tok, ¬ argmax_of_last_position scores tok) ∨
     (e = KeyError ∧ ∃ tok, argmax_of_last_position scores tok ∧
                            i2w self !! Z.of_nat tok = None)).

(** The state machine of the specification, with [n] steps left, the
    decoding sequence [s] and the output [out]; it ends with the sequences
    [fed] to the decoder, an outcome, the final decoding sequence and the
    final output. *)
Inductive decodes (self : Transformer) (m : tensor real)
  : nat → list Z → list string →
    list (list Z) → outcome → list Z → list string → Prop :=
| decodes_bound s out :
    decodes self m 0 s out [] BoundReached s out
| decodes_eos n s out tok :
    selects self m s tok EOS_TOKEN →
    decodes self m (S n) s out [s] EosReached s (out ++ [EOS_TOKEN])
| decodes_continue n s out tok word fed o s' out' :
    selects self m s tok word → word ≠ EOS_TOKEN →
    decodes self m n (s ++ [Z.of_nat tok]) (out ++ [word]) fed o s' out' →
    decodes self m (S n) s out (s :: fed) o s' out'
| decodes_raise n s out e :
    step_raises self m s e →
    decodes self m (S n) s out [s] (Failed e) s out.

(** What [topk(k=1, dim=-1)] promises for a vector of scores: a highest
    value and an index that holds it; which index, when several hold it, is
    not said.  It can only raise on an empty vector. *)
Definition topk1_contract : Prop :=
  ∀ d : tensor Q, shape d = [length (data d)] →
    match torch_topk1 d with
    | Ok (p, k) => data d !! k = Some p ∧
                   ∀ j q, data d !! j = Some q → (q <= p)%Q
    | Raise _ => data d = []
    end.

(** [p] is the top-1 score of the step that fed [s] to the decoder and
    emitted [word]. *)
Definition top1_score_of (self : Transformer) (m : tensor real) (s : list Z)
    (word : string) (p : Q) : Prop :=
  ∃ scores tok, decoder self (row s) m None = Ok scores ∧
                argmax_of_last_position scores tok ∧
                i2w self !! Z.of_nat tok = Some word ∧
                p = last_score scores tok.

(** Two models with the same weights and vocabulary: they differ at most in
    the accumulators. *)
Definition same_weights (a b : Transformer) : Prop :=
  b = set_accumulators (Y b) (YHat b) a.

(** The encoder side in inference mode, where dropout is the identity. *)
Definition memory_in_eval (self : Transformer) (x : tensor real)
  : result (tensor real) :=
  x ← encoder self x;
  h ← size_at x 2;
  w ← size_at x 3;
  p ← getitem_hw (pe (pos_2d self)) h w;
  x ← tmap2 RAdd x p;
  flatten_features x.

(** The metrics of the accumulated predictions as [self.log] receives them. *)
Definition logged_metrics (name : string) (self : Transformer) : list event :=
  (λ kv, Logged (name +:+ "_" +:+ kv.1) kv.2)
    <$> compute_metrics (Y self) (YHat self).

End SpecDecoding.


Definition demo_grid : tensor real := Tensor [1; 2; 2; 3] (RNat <$> seq 0 12).

Section SpecLifecycle.
Context `{env : Env}.

(** The states a model goes through: steps and epoch ends that returned. *)
Inductive evolves (s0 : Transformer) : Transformer → Prop :=
| evolves_start : evolves s0 s0
| evolves_validation s s' x y w w' :
    evolves s0 s → validation_step s x y w = (w', Ok s') → evolves s0 s'
| evolves_test s s' x y w w' :
    evolves s0 s → test_step s x y w = (w', Ok s') → evolves s0 s'
| evolves_validation_end s s' name display metrics w w' :
    evolves s0 s →
    on_validation_epoch_end s name display w = (w', Ok (s', metrics)) →
    evolves s0 s'
| evolves_test_end s s' metrics w w' :
    evolves s0 s → on_test_epoch_end s w = (w', Ok (s', metrics)) →
    evolves s0 s'.

Definition summary_events (max_input_height max_input_width max_seq_len : nat)
  : list event :=
  [Printed "Encoder" None;
   Summarised [[1; NUM_CHANNELS; max_input_height; max_input_width]];
   Printed "Decoder" None;
   Summarised [[1; max_seq_len];
               [1; (max_input_height + (HEIGHT_REDUCTION - 1)) / HEIGHT_REDUCTION *
                   ((max_input_width + (WIDTH_REDUCTION - 1)) / WIDTH_REDUCTION);
                256];
               [1]]].

End SpecLifecycle.

Definition demo_memory : tensor real := Tensor [1; 2; 1] [RNum 0; RNum 0].

Definition demo_self_later : Transformer :=
  set_accumulators [["a"]] [["b"]] demo_self.

Definition demo_world_later : world := World [] 7 3 [Printed "Encoder" None].

Definition demo_init : world * result Transformer :=
  Transformer_init 16 16 10 demo_w2i demo_i2w None (-1) (1 # 2) demo_world.

Definition demo_init_self : Transformer :=
  match demo_init.2 with Ok self => self | Raise _ => demo_self end.

Definition demo_batch : tensor Z := Tensor [2; 3] [1; 3; 4; 2; 0; 0]%Z.
Definition demo_batch_world : world := World [demo_batch] 0 0 [].

Definition demo_small_pos_2d : PositionalEncoding2D :=
  match PositionalEncoding2D_init 4 2 2 (1 # 10) with
  | Ok p => p
  | Raise _ => {| pe := tfull [] (RNum 0); dropout_p := 0 |}
  end.

Definition demo_tall_grid : tensor real := tfull [1; 4; 3; 2] (RNum 1).
Definition demo_encoded : tensor real := tfull [1; 256; 1; 2] (RNum (1 # 2)).
Definition demo_pair : tensor real := tfull [2; 1; 16; 16] (RNum 0).
Definition demo_step : world * result Transformer :=
  validation_step demo_init_self demo_image demo_batch demo_world.
Definition demo_step_self : Transformer :=
  match demo_step.2 with Ok self => self | Raise _ => demo_self end.
Definition demo_lengths : tensor Z := Tensor [2] [2; 2]%Z.

Definition demo_image_memory : tensor real :=
  match (encode_memory demo_self demo_image demo_world).2 with
  | Ok m => m
  | Raise _ => demo_memory
  end.

Definition demo_step_again : world * result Transformer :=
  validation_step demo_step_self demo_image demo_batch demo_step.1.
Definition demo_step_again_self : Transformer :=
  match demo_step_again.2 with Ok self => self | Raise _ => demo_self end.

(** A second environment, for tied scores. *)

(** A [topk] that takes the last of the tied indices. *)
Definition last_topk1 (t : tensor Q) : result (Q * nat) :=
  i ← argmax (Tensor (shape t) (reverse (data t)));
  let k := length (data t) - 1 - i in
  Ok (default 0%Q (data t !! k), k).

(** A decoder whose scores are all equal. *)
Definition tied_decoder (output_size : nat)
    (tgt : tensor Z) (memory : tensor real) (memory_len : option (tensor Z))
  : result (tensor Q) :=
  match shape tgt with
  | [b; l] => Ok (tfull [b; output_size; l] 0%Q)
  | _ => Raise RuntimeError
  end.

Definition tie_env : Env := {|
  rng_state := nat;
  random_random := demo_random;
  random_randint := demo_randint;
  random_random_range := demo_random_range;
  random_randint_empty := demo_randint_empty;
  random_randint_range := demo_randint_range;
  torch_gen := nat;
  dropout_train := demo_dropout;
  torch_topk1 := last_topk1;
  SOS_TOKEN := "<SOS>";
  EOS_TOKEN := "<EOS>";
  HEIGHT_REDUCTION := 16;
  WIDTH_REDUCTION := 8;
  NUM_CHANNELS := 1;
  Encoder := demo_encoder;
  Decoder := demo_decoder;
  CrossEntropyLoss := λ _ _ _, Ok 0%Q;
  compute_metrics := demo_metrics;
|}.

Definition tie_self : Transformer :=
  {| w2i := demo_w2i; i2w := demo_i2w; ytest_i2w := demo_i2w; padding_idx := 0;
     max_seq_len := 2; teacher_forcing_prob := 1 # 2;
     encoder := demo_encoder 1; pos_2d := demo_pos_2d;
     decoder := tied_decoder 5; compute_loss := λ _ _, Ok 0%Q;
     training := false; Y := []; YHat := [] |}.

Definition tie_world : @world tie_env := @World tie_env [] 0 0 [].

(* ================================================================== *)
(** * Properties of tensors *)

Section TensorFacts.
Context {A : Type}.
Implicit Types (sh idx : list nat) (t : tensor A).

Lemma length_indices sh : length (indices sh) = numel sh.
Proof.
  induction sh as [|n sh IH]; [done|]. simpl.
  generalize 0 as s. induction n as [|n IHn]; intros s; simpl; [done|].
  rewrite length_app, length_fmap, IH, IHn. done.
Qed.

Lemma offset_lt sh idx o : offset sh idx = Some o → o < numel sh.
Proof.
  revert idx o. induction sh as [|n sh IH]; intros [|i idx] o; simpl; try done.
  - intros [= <-]. lia.
  - case_decide; [|done].
    destruct (offset sh idx) as [o'|] eqn:E; [|done]. simpl. intros [= <-].
    apply IH in E. nia.
Qed.

Lemma offset_length sh idx o : offset sh idx = Some o → length idx = length sh.
Proof.
  revert idx o. induction sh as [|n sh IH]; intros [|i idx] o; simpl; try done.
  case_decide; [|done].
  destruct (offset sh idx) as [o'|] eqn:E; [|done]. intros _. f_equal. eauto.
Qed.

Lemma bind_seq_lookup {B} (L : list B) (g : nat → B → B) (s n k o : nat) :
  k < n → o < length L →
  (i ← seq s n; g i <$> L) !! (k * length L + o) = g (s + k) <$> L !! o.
Proof.
  revert s k. induction n as [|n IH]; intros s k Hk Ho; [lia|].
  simpl. destruct k as [|k].
  - rewrite lookup_app_l by (rewrite length_fmap; lia).
    rewrite list_lookup_fmap. simpl. by rewrite Nat.add_0_r.
  - rewrite lookup_app_r by (rewrite length_fmap; lia).
    rewrite length_fmap.
    replace (S k * length L + o - length L) with (k * length L + o) by lia.
    rewrite IH by lia. by replace (S s + k) with (s + S k) by lia.
Qed.

(** The multi-index stored at its own row-major offset. *)
Lemma indices_lookup sh idx o :
  offset sh idx = Some o → indices sh !! o = Some idx.
Proof.
  revert idx o. induction sh as [|n sh IH]; intros [|i idx] o; simpl; try done.
  - by intros [= <-].
  - case_decide as Hi; [|done].
    destruct (offset sh idx) as [o'|] eqn:E; [|done]. simpl. intros [= <-].
    pose proof (offset_lt _ _ _ E) as Hlt.
    rewrite <- (length_indices sh) in *.
    rewrite (bind_seq_lookup (indices sh) (λ i l, i :: l)) by done.
    by rewrite (IH _ _ E).
Qed.

Lemma tget_tbuild sh (f : list nat → A) idx :
  is_Some (offset sh idx) → tget (tbuild sh f) idx = Some (f idx).
Proof.
  intros [o Ho]. unfold tget, tbuild. simpl. rewrite Ho. simpl.
  by rewrite list_lookup_fmap, (indices_lookup _ _ _ Ho).
Qed.

Lemma tget_tbuild_None sh (f : list nat → A) idx :
  offset sh idx = None → tget (tbuild sh f) idx = None.
Proof. intros Ho. unfold tget, tbuild. simpl. by rewrite Ho. Qed.

Lemma tget_d_tbuild `{Inhabited A} sh (f : list nat → A) idx :
  is_Some (offset sh idx) → tget_d (tbuild sh f) idx = f idx.
Proof. intros Ho. unfold tget_d. by rewrite tget_tbuild. Qed.

Lemma wf_tbuild sh (f : list nat → A) : wf (tbuild sh f).
Proof. unfold wf, tbuild. simpl. by rewrite length_fmap, length_indices. Qed.

(** Reading through another shape that puts the index at the same offset. *)
Lemma tget_same_offset sh sh' (d : list A) idx idx' o :
  offset sh idx = Some o → offset sh' idx' = Some o →
  tget (Tensor sh d) idx = tget (Tensor sh' d) idx'.
Proof. intros H1 H2. unfold tget. simpl. by rewrite H1, H2. Qed.

Lemma tget_is_Some t idx :
  wf t → is_Some (offset (shape t) idx) → is_Some (tget t idx).
Proof.
  intros Hwf [o Ho]. unfold tget. rewrite Ho. simpl.
  apply lookup_lt_is_Some. rewrite Hwf. by eapply offset_lt.
Qed.

End TensorFacts.

Ltac offset_eval :=
  simpl offset; simpl numel;
  repeat (rewrite decide_True by (simpl; nia)); simpl mbind.

(* ================================================================== *)
(** * Feature flattening *)

(** C6. For every well-formed [B, C, H, W] grid, the flattening step
    [x.flatten(2).permute(0, 2, 1).contiguous()] returns a well-formed
    [B, H*W, C] tensor whose entry at sequence position [h*W + w] and channel
    [c] is the grid's entry at channel [c], row [h], column [w]: the
    sequence axis runs over the positions in row-major order, the channel
    axis is last, and the sequence length is [H*W].  The function takes the
    grid and nothing else (no state, no parameters). *)
Theorem flatten_features_row_major (x : tensor real) (B C H W : nat) :
  shape x = [B; C; H; W] → wf x →
  ∃ m, flatten_features x = Ok m ∧ shape m = [B; H * W; C] ∧ wf m ∧
       ∀ b c h w, b < B → c < C → h < H → w < W →
         ∃ v, tget x [b; c; h; w] = Some v ∧ tget m [b; h * W + w; c] = Some v.
Proof.
  intros Hsh Hwf. destruct x as [sh d]. simpl in Hsh. subst sh.
  unfold flatten_features, flatten, ndim. simpl shape.
  rewrite decide_True by (simpl; lia).
  cbn [mbind result_bind]. unfold permute, ndim. simpl shape.
  replace (bool_decide _ && is_permutation _) with true by done.
  eexists. split; [done|]. split; [|split].
  - simpl. do 2 f_equal. lia.
  - apply wf_tbuild.
  - intros b c h w Hb Hc Hh Hw.
    assert (is_Some (tget (Tensor [B; C; H; W] d) [b; c; h; w])) as [v Hv].
    { apply tget_is_Some; [done|]. simpl shape. offset_eval. eauto. }
    exists v. split; [done|].
    rewrite tget_tbuild.
    2:{ simpl. offset_eval. eauto. }
    unfold tget_d. simpl.
    erewrite (tget_same_offset _ [B; C; H; W] d _ [b; c; h; w]).
    + rewrite Hv. done.
    + offset_eval. reflexivity.
    + offset_eval. f_equal. ring.
Qed.

Lemma flatten_features_row_major_witness :
  ∃ m, flatten_features demo_grid = Ok m ∧ shape m = [1; 2 * 3; 2] ∧ wf m ∧
       ∀ b c h w, b < 1 → c < 2 → h < 2 → w < 3 →
         ∃ v, tget demo_grid [b; c; h; w] = Some v ∧
              tget m [b; h * 3 + w; c] = Some v.
Proof. apply (flatten_features_row_major demo_grid 1 2 2 3); reflexivity. Defined.

Section More.
Context {A : Type} `{Inhabited A}.

Lemma tget_tmap {B} (f : A → B) (t : tensor A) idx :
  tget (tmap f t) idx = f <$> tget t idx.
Proof.
  unfold tget, tmap. simpl. destruct (offset (shape t) idx); simpl; [|done].
  by rewrite list_lookup_fmap.
Qed.

Lemma expandable_same (sh : list nat) : expandable sh sh = true.
Proof.
  unfold expandable. rewrite Nat.sub_diag. simpl.
  rewrite bool_decide_true by lia. simpl.
  induction sh as [|n sh IH]; [done|]. simpl.
  rewrite bool_decide_true by (simpl; auto). done.
Qed.

Lemma expand_ok (dst : list nat) (t : tensor A) :
  expandable (shape t) dst = true →
  expand dst t = Ok (tbuild dst (λ idx, tget_d t (source_index (shape t) idx))).
Proof. intros E. unfold expand. by rewrite E. Qed.

Lemma zip_with_fmap_same {B C D} (f : B → C → D) (g : list nat → B) (h : list nat → C) (l : list (list nat)) :
  zip_with f (g <$> l) (h <$> l) = (λ i, f (g i) (h i)) <$> l.
Proof. induction l; simpl; [done|]. by f_equal. Qed.

End More.

Lemma tmap2_ok {A B C} `{Inhabited A, Inhabited B} (f : A → B → C)
    (a : tensor A) (b : tensor B) sh :
  broadcast_shapes (shape a) (shape b) = Some sh →
  expandable (shape a) sh = true → expandable (shape b) sh = true →
  tmap2 f a b = Ok (tbuild sh (λ idx,
     f (tget_d a (source_index (shape a) idx))
       (tget_d b (source_index (shape b) idx)))).
Proof.
  intros Hb Ha Hbb. unfold tmap2. rewrite Hb. simpl.
  rewrite !expand_ok by done. simpl.
  unfold tbuild. simpl. by rewrite zip_with_fmap_same.
Qed.

Lemma tget_arange start stop step k :
  k < range_len start stop step →
  tget (arange start stop step) [k] = Some (start + k * step).
Proof.
  intros Hk. unfold tget, arange. simpl.
  rewrite decide_True by done. simpl.
  rewrite list_lookup_fmap, lookup_seq_lt by lia. simpl. f_equal. lia.
Qed.

Lemma range_len_1 n : range_len 0 n 1 = n.
Proof. unfold range_len. lia. Qed.

Lemma range_len_2 a n : range_len a (a + 2 * n) 2 = n.
Proof.
  unfold range_len. replace (a + 2 * n - a + (2 - 1)) with (1 + n * 2) by lia.
  rewrite Nat.div_add by lia. done.
Qed.


Lemma repeat_ok {A} `{Inhabited A} (reps : list nat) (t : tensor A) :
  length reps = ndim t →
  repeat reps t = Ok (tbuild (zip_with Nat.mul (shape t) reps)
             (λ idx, tget_d t (zip_with (λ i n, i `mod` n) idx (shape t)))).
Proof. intros E. unfold repeat. by rewrite decide_True. Qed.

Lemma source_index_same sh idx :
  is_Some (offset sh idx) → source_index sh idx = idx.
Proof.
  intros [o Ho]. unfold source_index.
  rewrite (offset_length _ _ _ Ho), Nat.sub_diag. simpl.
  revert idx o Ho. induction sh as [|n sh IH]; intros [|i idx] o; simpl; try done.
  case_decide as Hi; [|done].
  destruct (offset sh idx) as [o'|] eqn:E; [|done]. intros _.
  f_equal; [|by eapply IH]. case_decide; lia.
Qed.

Definition expanded {A} `{Inhabited A} (dst : list nat) (t : tensor A) : tensor A :=
  tbuild dst (λ idx, tget_d t (source_index (shape t) idx)).

Lemma tget_d_expanded_same {A} `{Inhabited A} (t : tensor A) idx :
  is_Some (offset (shape t) idx) →
  tget_d (expanded (shape t) t) idx = tget_d t idx.
Proof.
  intros Ho. unfold expanded. rewrite tget_d_tbuild by done.
  by rewrite source_index_same.
Qed.


Lemma bind_Ok {A B} (a : A) (f : A → result B) : Ok a ≫= f = f a.
Proof. done. Qed.

(** [t] has shape [sh] and holds [f idx] at every index of [sh]. *)
Definition describes {A} (t : tensor A) (sh : list nat) (f : list nat → A) : Prop :=
  shape t = sh ∧ ∀ idx, is_Some (offset sh idx) → tget t idx = Some (f idx).

Lemma offset1_inv n idx :
  is_Some (offset [n] idx) → ∃ i, idx = [i] ∧ i < n.
Proof.
  destruct idx as [|i [|]]; simpl; try (intros [? [=]]; fail).
  - case_decide; [eauto|]. intros [? [=]].
  - case_decide; intros [? [=]].
Qed.

Lemma offset2_inv a b idx :
  is_Some (offset [a; b] idx) → ∃ i j, idx = [i; j] ∧ i < a ∧ j < b.
Proof.
  destruct idx as [|i [|j [|]]]; simpl; try (intros [? [=]]; fail);
    repeat case_decide; try (intros [? [=]]; fail).
  eauto 6.
Qed.

Lemma offset3_inv a b c idx :
  is_Some (offset [a; b; c] idx) →
  ∃ i j k, idx = [i; j; k] ∧ i < a ∧ j < b ∧ k < c.
Proof.
  destruct idx as [|i [|j [|k [|]]]]; simpl; try (intros [? [=]]; fail);
    repeat case_decide; try (intros [? [=]]; fail).
  eauto 8.
Qed.

Lemma offset4_inv a b c d idx :
  is_Some (offset [a; b; c; d] idx) →
  ∃ i j k l, idx = [i; j; k; l] ∧ i < a ∧ j < b ∧ k < c ∧ l < d.
Proof.
  destruct idx as [|i [|j [|k [|l [|]]]]]; simpl; try (intros [? [=]]; fail);
    repeat case_decide; try (intros [? [=]]; fail).
  eauto 10.
Qed.

Ltac in_bounds := offset_eval; eauto.

Section Describes.
Context {A : Type} `{Inhabited A}.
Implicit Types (t : tensor A) (f : list nat → A).

Lemma describes_tbuild sh f : describes (tbuild sh f) sh f.
Proof. split; [done|]. intros idx Hidx. by apply tget_tbuild. Qed.

Lemma describes_ext t sh f g :
  describes t sh f → (∀ idx, is_Some (offset sh idx) → f idx = g idx) →
  describes t sh g.
Proof. intros [Hs Hf] Hfg. split; [done|]. intros idx Hi. rewrite Hf, Hfg; done. Qed.

Lemma describes_get_d t sh f idx :
  describes t sh f → is_Some (offset sh idx) → tget_d t idx = f idx.
Proof. intros [Hs Hf] Hi. unfold tget_d. by rewrite Hf. Qed.

Lemma describes_tmap {B} (g : A → B) t sh f :
  describes t sh f → describes (tmap g t) sh (g ∘ f).
Proof.
  intros [Hs Hf]. split; [done|]. intros idx Hi.
  rewrite tget_tmap, Hf by done. done.
Qed.

End Describes.

Lemma describes_arange n : describes (arange 0 n 1) [n] (λ idx, default 0 (head idx)).
Proof.
  split; [by simpl; rewrite range_len_1|].
  intros idx (i & -> & Hi)%offset1_inv.
  rewrite tget_arange by (by rewrite range_len_1). simpl. f_equal. lia.
Qed.

Section Ops.
Context {A : Type} `{Inhabited A}.
Implicit Types (t : tensor A) (f : list nat → A).

Lemma unsqueeze_1_of_1 t n f :
  describes t [n] f →
  ∃ t', unsqueeze 1 t = Ok t' ∧
        describes t' [n; 1] (λ idx, f (take 1 idx)).
Proof.
  intros [Hs Hf]. unfold unsqueeze, ndim. rewrite Hs.
  rewrite decide_True by (simpl; lia). eexists; split; [done|].
  split; [done|]. intros idx (i & j & -> & Hi & Hj)%offset2_inv.
  rewrite <- Hf by in_bounds. destruct t as [sh d]. simpl in *. subst sh.
  eapply tget_same_offset; offset_eval; f_equal; lia.
Qed.

Lemma unsqueeze_0_of_2 t a b f :
  describes t [a; b] f →
  ∃ t', unsqueeze 0 t = Ok t' ∧
        describes t' [1; a; b] (λ idx, f (drop 1 idx)).
Proof.
  intros [Hs Hf]. unfold unsqueeze, ndim. rewrite Hs.
  rewrite decide_True by (simpl; lia). eexists; split; [done|].
  split; [done|]. intros idx (i & j & k & -> & Hi & Hj & Hk)%offset3_inv.
  rewrite <- Hf by in_bounds. destruct t as [sh d]. simpl in *. subst sh.
  eapply tget_same_offset; offset_eval; f_equal; lia.
Qed.

Lemma unsqueeze_1_of_2 t a b f :
  describes t [a; b] f →
  ∃ t', unsqueeze 1 t = Ok t' ∧
        describes t' [a; 1; b] (λ idx, f (delete 1 idx)).
Proof.
  intros [Hs Hf]. unfold unsqueeze, ndim. rewrite Hs.
  rewrite decide_True by (simpl; lia). eexists; split; [done|].
  split; [done|]. intros idx (i & j & k & -> & Hi & Hj & Hk)%offset3_inv.
  rewrite <- Hf by in_bounds. destruct t as [sh d]. simpl in *. subst sh.
  eapply tget_same_offset; offset_eval; f_equal; lia.
Qed.

Lemma repeat_3 t a b c ra rb rc f :
  describes t [a; b; c] f →
  ∃ t', repeat [ra; rb; rc] t = Ok t' ∧
        describes t' [a * ra; b * rb; c * rc]
          (λ idx, f (zip_with (λ i n, i `mod` n) idx [a; b; c])).
Proof.
  intros [Hs Hf]. unfold repeat, ndim. rewrite Hs.
  rewrite decide_True by done. eexists; split; [done|].
  eapply describes_ext; [apply describes_tbuild|].
  intros idx (i & j & k & -> & Hi & Hj & Hk)%offset3_inv.
  unfold tget_d. rewrite Hf; [done|]. simpl.
  pose proof (Nat.mod_upper_bound i a). pose proof (Nat.mod_upper_bound j b).
  pose proof (Nat.mod_upper_bound k c).
  rewrite !decide_True by (simpl; nia). simpl. eauto.
Qed.

Lemma slice_pos_2_lt lo hi k p :
  slice_pos lo hi 2 k = Some p → p < range_len lo hi 2.
Proof.
  unfold slice_pos, range_len. case_decide as Hk; [|done].
  destruct Hk as [[? ?] ?]. intros E. apply (inj Some) in E. subst p. lia.
Qed.

Lemma setitem_0_slice_2 t (v : tensor A) start stop h w c n f g :
  describes t [1; h; w; c] f →
  describes v [h; w; n] g →
  n = range_len (start `min` c) (default c stop `min` c) 2 →
  ∃ t', setitem_0_slice t start stop 2 v = Ok t' ∧
        describes t' [1; h; w; c] (λ idx,
          match idx with
          | [_; i; j; k] =>
              match slice_pos (start `min` c) (default c stop `min` c) 2 k with
              | Some p => g [i; j; p]
              | None => f idx
              end
          | _ => f idx
          end).
Proof.
  intros [Hs Hf] [Hvs Hg] ->. unfold setitem_0_slice. rewrite Hs.
  rewrite decide_True by lia. unfold slice_bounds.
  rewrite expand_ok by (rewrite Hvs; apply expandable_same).
  rewrite bind_Ok. eexists; split; [done|].
  eapply describes_ext; [apply describes_tbuild|].
  intros idx (i & j & k & l & -> & Hi & Hj & Hk & Hl)%offset4_inv.
  assert (i = 0) as -> by lia.
  destruct (slice_pos _ _ _ _) as [p|] eqn:E.
  - apply slice_pos_2_lt in E.
    assert (is_Some (offset (shape v) [j; k; p])) as Hin
      by (rewrite Hvs; in_bounds).
    rewrite tget_d_tbuild by (by rewrite <- Hvs).
    rewrite source_index_same by done.
    unfold tget_d. rewrite Hg; [done|]. by rewrite <- Hvs.
  - unfold tget_d. rewrite Hf; [done|]. in_bounds.
Qed.

Lemma permute_0312 t a b c d f :
  describes t [a; b; c; d] f →
  ∃ t', permute [0; 3; 1; 2] t = Ok t' ∧
        describes t' [a; d; b; c] (λ idx,
          match idx with
          | [i; l; j; k] => f [i; j; k; l]
          | _ => inhabitant
          end).
Proof.
  intros [Hs Hf]. unfold permute, ndim. rewrite Hs.
  replace (bool_decide _ && is_permutation _) with true by done.
  eexists; split; [done|].
  eapply describes_ext; [apply describes_tbuild|].
  intros idx (i & l & j & k & -> & Hi & Hl & Hj & Hk)%offset4_inv.
  simpl. unfold tget_d. rewrite Hf; [done|]. in_bounds.
Qed.

End Ops.

Lemma tmap2_col_row {A B C} `{Inhabited A, Inhabited B} (g : A → B → C)
    (a : tensor A) (b : tensor B) n m fa fb :
  describes a [n; 1] fa → describes b [m] fb →
  ∃ t, tmap2 g a b = Ok t ∧
       describes t [n; m] (λ idx,
         g (fa (take 1 idx ++ [0])) (fb (drop 1 idx))).
Proof.
  intros [Hsa Hfa] [Hsb Hfb].
  rewrite (tmap2_ok g a b [n; m]).
  - eexists; split; [done|].
    eapply describes_ext; [apply describes_tbuild|].
    intros idx (i & j & -> & Hi & Hj)%offset2_inv.
    rewrite Hsa, Hsb. unfold source_index. simpl.
    unfold tget_d. rewrite Hfa, Hfb.
    + simpl. repeat case_decide; subst; repeat f_equal; lia.
    + repeat case_decide; in_bounds.
    + repeat case_decide; in_bounds.
  - rewrite Hsa, Hsb. unfold broadcast_shapes. simpl.
    repeat case_decide; simpl; try done; by subst.
  - rewrite Hsa. unfold expandable. simpl. rewrite !bool_decide_true; auto.
  - rewrite Hsb. unfold expandable. simpl. rewrite !bool_decide_true; auto.
Qed.


Lemma slice_pos_Some lo hi step k p :
  lo ≤ k < hi → (k - lo) `mod` step = 0 → p = (k - lo) / step →
  slice_pos lo hi step k = Some p.
Proof. intros ?? ->. unfold slice_pos. by rewrite decide_True. Qed.

Lemma slice_pos_None lo hi step k :
  ¬ (lo ≤ k < hi ∧ (k - lo) `mod` step = 0) →
  slice_pos lo hi step k = None.
Proof. intros ?. unfold slice_pos. by rewrite decide_False. Qed.

Ltac slice_miss :=
  rewrite slice_pos_None by (cbn [default]; unfold id; intros [[? ?] ?]; lia).
Ltac slice_hit p :=
  rewrite (slice_pos_Some _ _ _ _ p) by (cbn [default]; unfold id; lia).
Ltac band_eval :=
  cbn [zip_with drop take app head default compose delete list_delete];
  rewrite ?Nat.mod_small by lia; reflexivity.

Section Table.
Variables (m H W C : nat).
Hypothesis HC : C = 4 * m.

Let den := tmap (λ e, RPow (RNum 10000) (RNum e)) (den_exponents C).

Lemma describes_den :
  describes den [m]
    (λ idx, RPow (RNum 10000) (RNum (den_exponent C (2 * default 0 (head idx))))).
Proof.
  assert (C / 2 = 0 + 2 * m) as Hc by lia.
  split.
  - unfold den, den_exponents, tmap, arange. cbn [shape].
    by rewrite Hc, range_len_2.
  - intros idx (k & -> & Hk)%offset1_inv.
    unfold den, den_exponents. rewrite !tget_tmap, tget_arange.
    + simpl. unfold den_exponent. do 5 f_equal. lia.
    + by rewrite Hc, range_len_2.
Qed.

Lemma table_ok :
  ∃ pe, PositionalEncoding2D_table C H W = Ok pe ∧ shape pe = [1; C; H; W] ∧
    ∀ k h w, k < m → h < H → w < W →
      let d := RPow (RNum 10000) (RNum (den_exponent C (2 * k))) in
      tget pe [0; 2 * k; h; w] = Some (RSin (RDiv (RNat w) d)) ∧
      tget pe [0; 2 * k + 1; h; w] = Some (RCos (RDiv (RNat w) d)) ∧
      tget pe [0; C / 2 + 2 * k; h; w] = Some (RSin (RDiv (RNat h) d)) ∧
      tget pe [0; C / 2 + 2 * k + 1; h; w] = Some (RCos (RDiv (RNat h) d)).
Proof.
  destruct (unsqueeze_1_of_1 _ _ _ (describes_arange H)) as (pos_h & Eh & Dh).
  destruct (unsqueeze_1_of_1 _ _ _ (describes_arange W)) as (pos_w & Ew & Dw).
  unfold PositionalEncoding2D_table. rewrite Eh, Ew, !bind_Ok. fold den.
  destruct (tmap2_col_row RDiv _ _ _ _ _ _
              (describes_tmap RNat _ _ _ Dw) describes_den) as (a_w & Eaw & Daw).
  rewrite Eaw, bind_Ok.
  destruct (tmap2_col_row RDiv _ _ _ _ _ _
              (describes_tmap RNat _ _ _ Dh) describes_den) as (a_h & Eah & Dah).
  rewrite Eah.
  assert (C / 2 = 2 * m) as Hhalf by lia.
  (* sine of the column *)
  destruct (unsqueeze_0_of_2 _ _ _ _ (describes_tmap RSin _ _ _ Daw))
    as (v1 & E1 & D1).
  destruct (repeat_3 _ _ _ _ H 1 1 _ D1) as (r1 & R1 & DR1).
  rewrite Nat.mul_1_l, !Nat.mul_1_r in DR1.
  destruct (setitem_0_slice_2 _ r1 0 (Some (C / 2)) _ _ _ _ _ _
              (describes_tbuild [1; H; W; C] (λ _, RNum 0)) DR1)
    as (pe1 & P1 & DP1).
  { cbn [default]. unfold id, range_len. lia. }
  rewrite E1, bind_Ok, R1, bind_Ok. unfold tfull. rewrite P1, bind_Ok.
  (* cosine of the column *)
  destruct (unsqueeze_0_of_2 _ _ _ _ (describes_tmap RCos _ _ _ Daw))
    as (v2 & E2 & D2).
  destruct (repeat_3 _ _ _ _ H 1 1 _ D2) as (r2 & R2 & DR2).
  rewrite Nat.mul_1_l, !Nat.mul_1_r in DR2.
  destruct (setitem_0_slice_2 _ r2 1 (Some (C / 2)) _ _ _ _ _ _ DP1 DR2)
    as (pe2 & P2 & DP2).
  { cbn [default]. unfold id, range_len. lia. }
  rewrite E2, bind_Ok, R2, bind_Ok, P2, !bind_Ok.
  (* sine of the row *)
  destruct (unsqueeze_1_of_2 _ _ _ _ (describes_tmap RSin _ _ _ Dah))
    as (v3 & E3 & D3).
  destruct (repeat_3 _ _ _ _ 1 W 1 _ D3) as (r3 & R3 & DR3).
  rewrite Nat.mul_1_l, !Nat.mul_1_r in DR3.
  destruct (setitem_0_slice_2 _ r3 (C / 2) None _ _ _ _ _ _ DP2 DR3)
    as (pe3 & P3 & DP3).
  { cbn [default]. unfold id, range_len. lia. }
  rewrite E3, bind_Ok, R3, bind_Ok, P3, !bind_Ok.
  (* cosine of the row *)
  destruct (unsqueeze_1_of_2 _ _ _ _ (describes_tmap RCos _ _ _ Dah))
    as (v4 & E4 & D4).
  destruct (repeat_3 _ _ _ _ 1 W 1 _ D4) as (r4 & R4 & DR4).
  rewrite Nat.mul_1_l, !Nat.mul_1_r in DR4.
  destruct (setitem_0_slice_2 _ r4 (C / 2 + 1) None _ _ _ _ _ _ DP3 DR4)
    as (pe4 & P4 & DP4).
  { cbn [default]. unfold id, range_len. lia. }
  rewrite E4, bind_Ok, R4, bind_Ok, P4, !bind_Ok.
  destruct (permute_0312 _ _ _ _ _ _ DP4) as (pe & P & [Hshape Hget]).
  exists pe. split; [done|]. split; [done|].
  intros k h w Hk Hh Hw.
  assert (∀ a b : nat, a < 1 → a `mod` 1 = 0) as Hmod1 by (intros; lia).
  repeat split.
  - rewrite Hget by in_bounds.
    do 3 slice_miss. slice_hit k. band_eval.
  - rewrite Hget by in_bounds.
    do 2 slice_miss. slice_hit k. band_eval.
  - rewrite Hhalf, Hget by in_bounds.
    slice_miss. slice_hit k. band_eval.
  - rewrite Hhalf, Hget by in_bounds.
    slice_hit k. band_eval.
Qed.
End Table.

Lemma den_exponent_step (C k : nat) :
  0 < C →
  (den_exponent C (2 * S k) == den_exponent C (2 * k) + den_exponent C 2)%Q.
Proof.
  intros HC. unfold den_exponent.
  replace (Z.of_nat (2 * S k)) with (Z.of_nat (2 * k) + Z.of_nat 2)%Z by lia.
  rewrite inject_Z_plus. field.
  intros E. unfold Qeq in E. simpl in E. lia.
Qed.

(** C1, as the code has it. For every channel count divisible by four,
    [C = 4 m], and every maximal height and width, the constructor builds a
    table of shape [1, C, max_height, max_width]; for [k < m] the channels
    [2k] and [2k+1] hold the sine and the cosine of [w / d] and the channels
    [C/2 + 2k] and [C/2 + 2k + 1] the sine and the cosine of [h / d], where
    [d = 10000^(i/C)] with [i = 2k] running over 0, 2, 4, ... below [C/2];
    successive denominators have the constant ratio [10000^(2/C)]. *)
Theorem positional_table_layout (m H W : nat) :
  ∃ pe, PositionalEncoding2D_table (4 * m) H W = Ok pe ∧
        shape pe = [1; 4 * m; H; W] ∧
        (∀ k h w, k < m → h < H → w < W →
           let d := RPow (RNum 10000) (RNum (den_exponent (4 * m) (2 * k))) in
           tget pe [0; 2 * k; h; w] = Some (RSin (RDiv (RNat w) d)) ∧
           tget pe [0; 2 * k + 1; h; w] = Some (RCos (RDiv (RNat w) d)) ∧
           tget pe [0; 4 * m / 2 + 2 * k; h; w] = Some (RSin (RDiv (RNat h) d)) ∧
           tget pe [0; 4 * m / 2 + 2 * k + 1; h; w] = Some (RCos (RDiv (RNat h) d))) ∧
        (∀ k, S k < m →
           (den_exponent (4 * m) (2 * S k) ==
            den_exponent (4 * m) (2 * k) + den_exponent (4 * m) 2)%Q).
Proof.
  destruct (table_ok m H W (4 * m) eq_refl) as (pe & E & Hs & Hg).
  exists pe. repeat split; try done.
  - by apply Hg.
  - by apply Hg.
  - by apply Hg.
  - by apply Hg.
  - intros k Hk. apply den_exponent_step. lia.
Qed.

(** C1, as stated, fails twice: for the even channel count 6 the
    constructor raises (the cosine block has one channel, two denominators),
    and for 8 channels the second sine channel is over [10000^(2/8)], not
    [10000^(4/8)]. *)
Lemma positional_table_not_as_specified :
  ¬ table_as_specified 6 1 1 ∧ ¬ table_as_specified 8 1 1.
Proof.
  split.
  - intros (pe & E & _). vm_compute in E. discriminate.
  - intros (pe & E & _ & Hall).
    destruct (Hall 2 0 0) as (v & v' & Hv & (e' & He & Hsin) & _);
      [vm_compute; lia | done | lia | lia |].
    vm_compute in E. injection E as <-.
    vm_compute in Hv. injection Hv as <-.
    destruct Hsin as [[= <-]|[=]].
    vm_compute in He. discriminate.
Qed.

(* ================================================================== *)
(** * The interpreter monad and the teacher-forcing corruptor *)

Section MonadFacts.
Context `{env : Env}.

Lemma run_bind {A B} (c : M A) (f : A → M B) (w : world) :
  (c ≫= f) w = match c w with
               | (w', Ok a) => f a w'
               | (w', Raise e) => (w', Raise e)
               end.
Proof. done. Qed.

Lemma run_bind_Ok {A B} (c : M A) (f : A → M B) (w w' : world) (a : A) :
  c w = (w', Ok a) → (c ≫= f) w = f a w'.
Proof. intros E. by rewrite run_bind, E. Qed.

Lemma run_load (l : loc) (w : world) (t : tensor Z) :
  heap w !! l = Some t → load l w = (w, Ok t).
Proof. intros E. unfold load. by rewrite E. Qed.

Lemma run_ret {A} (a : A) (w : world) : (mret a : M A) w = (w, Ok a).
Proof. done. Qed.

Lemma run_lift_bind {A B} (r : result A) (f : A → M B) (w : world) :
  (lift r ≫= f) w = match r with Ok a => f a w | Raise e => (w, Raise e) end.
Proof. rewrite run_bind. unfold lift. by destruct r. Qed.

Lemma for_each_app {A} (l1 l2 : list A) (body : A → M unit) (w : world) :
  for_each (l1 ++ l2) body w =
  match for_each l1 body w with
  | (w', Ok _) => for_each l2 body w'
  | (w', Raise e) => (w', Raise e)
  end.
Proof.
  revert w. induction l1 as [|a l1 IH]; intros w; simpl; [done|].
  rewrite !run_bind. destruct (body a w) as [w' [[]|e]]; [apply IH|done].
Qed.

(** What a computation leaves alone: the tensors allocated before it
    started, up to address [n]. *)
Definition keeps_below {A} (n : nat) (c : M A) : Prop :=
  ∀ w, n ≤ length (heap w) →
    length (heap w) ≤ length (heap (c w).1) ∧
    ∀ l, l < n → heap (c w).1 !! l = heap w !! l.

Lemma keeps_ret {A} n (a : A) : keeps_below n (mret a : M A).
Proof. by intros w Hn. Qed.

Lemma keeps_lift {A} n (r : result A) : keeps_below n (lift r).
Proof. by intros w Hn. Qed.

Lemma keeps_bind {A B} n (c : M A) (f : A → M B) :
  keeps_below n c → (∀ a, keeps_below n (f a)) → keeps_below n (c ≫= f).
Proof.
  intros Hc Hf w Hn. rewrite run_bind. destruct (Hc w Hn) as [Hlen Hl].
  destruct (c w) as [w' [a|e]]; simpl in *; [|done].
  destruct (Hf a w') as [Hlen' Hl']; [lia|]. split; [lia|].
  intros l Hlt. by rewrite Hl', Hl.
Qed.

Lemma keeps_for_each {A} n (l : list A) (body : A → M unit) :
  (∀ a, keeps_below n (body a)) → keeps_below n (for_each l body).
Proof.
  intros Hb. induction l as [|a l IH]; simpl; [apply keeps_ret|].
  apply keeps_bind; [done|]. by intros _.
Qed.

Lemma keeps_load n l : keeps_below n (load l).
Proof. by intros w Hn. Qed.

Lemma keeps_store n l t : n ≤ l → keeps_below n (store l t).
Proof.
  intros Hl w Hn. unfold store. simpl. rewrite length_insert. split; [done|].
  intros l' Hl'. apply list_lookup_insert_ne. lia.
Qed.

Lemma keeps_alloc n t : keeps_below n (alloc t).
Proof.
  intros w Hn. unfold alloc. simpl. rewrite length_app. split; [lia|].
  intros l Hl. apply lookup_app_l. lia.
Qed.

Lemma keeps_py_random n : keeps_below n py_random.
Proof.
  intros w Hn. unfold py_random. by destruct (random_random (rng w)).
Qed.

Lemma keeps_py_randint n a b : keeps_below n (py_randint a b).
Proof.
  intros w Hn. unfold py_randint.
  by destruct (random_randint a b (rng w)) as [[v r]|].
Qed.

Lemma keeps_apply_teacher_forcing_loops (self : Transformer) (y ye : loc) n0 :
  keeps_below ye
    (for_range n0 (λ i,
       n1 ← tensor_size ye 1;
       for_range n1 (λ j,
         u ← py_random;
         if Qltb u (teacher_forcing_prob self) then
           y_ij ← getitem y [i; j];
           if decide (y_ij ≠ padding_idx self) then
             v ← py_randint 0 (Z.of_nat (size (w2i self)) - 1);
             setitem ye [i; j] v
           else mret ()
         else mret ()))).
Proof.
  apply keeps_for_each. intros i.
  apply keeps_bind; [apply keeps_bind; [apply keeps_load|intros; apply keeps_lift]|].
  intros n1. apply keeps_for_each. intros j.
  apply keeps_bind; [apply keeps_py_random|]. intros u.
  destruct (Qltb _ _); [|apply keeps_ret].
  apply keeps_bind; [apply keeps_bind; [apply keeps_load|intros; apply keeps_lift]|].
  intros y_ij. case_decide; [|apply keeps_ret].
  apply keeps_bind; [apply keeps_py_randint|]. intros v.
  apply keeps_bind; [apply keeps_load|]. intros t.
  apply keeps_bind; [apply keeps_lift|]. intros t'.
  by apply keeps_store.
Qed.

Lemma run_clone (y : loc) (w : world) (t : tensor Z) :
  heap w !! y = Some t →
  clone y w = (set_heap (heap w ++ [t]) w, Ok (length (heap w))).
Proof. intros Hy. unfold clone. rewrite run_bind. unfold load. by rewrite Hy. Qed.

Lemma run_tensor_size (l : loc) (k : nat) (w : world) (t : tensor Z) :
  heap w !! l = Some t → tensor_size l k w = (w, size_at t k).
Proof.
  intros Hl. unfold tensor_size. rewrite run_bind. unfold load. rewrite Hl.
  done.
Qed.

(** C9. Whatever the batch and the random draws, and whether the call
    returns or raises, [apply_teacher_forcing] leaves the caller's tensor, and
    every tensor that existed before the call, as it was; when it returns,
    the result is a tensor at a new address. *)
Theorem apply_teacher_forcing_leaves_batch (self : Transformer) (y : loc)
    (w : world) (t : tensor Z) :
  heap w !! y = Some t →
  let w' := (apply_teacher_forcing self y w).1 in
  heap w' !! y = Some t ∧
  (∀ l, l < length (heap w) → heap w' !! l = heap w !! l) ∧
  ∀ y', (apply_teacher_forcing self y w).2 = Ok y' →
        y' ≠ y ∧ heap w !! y' = None ∧ is_Some (heap w' !! y').
Proof.
  intros Hy. pose proof (lookup_lt_Some _ _ _ Hy) as Hlt.
  unfold apply_teacher_forcing. rewrite run_bind, (run_clone _ _ _ Hy).
  set (ye := length (heap w)). set (w1 := set_heap _ w).
  assert (heap w1 !! ye = Some t) as Hye.
  { unfold w1, ye. simpl. by rewrite lookup_app_r, Nat.sub_diag. }
  assert (∀ l, l < ye → heap w1 !! l = heap w !! l) as Hold.
  { intros l Hl. unfold w1. simpl. by rewrite lookup_app_l. }
  assert (length (heap w1) = S ye) as Hlen1.
  { unfold w1, ye. simpl. rewrite length_app. simpl. lia. }
  rewrite run_bind, (run_tensor_size _ _ _ _ Hye).
  destruct (size_at t 0) as [n0|e].
  2:{ cbn [fst snd]. rewrite Hold by done. split; [done|]. split; [|done].
      intros l Hl. by apply Hold. }
  rewrite run_bind.
  destruct (keeps_apply_teacher_forcing_loops self y ye n0 w1) as [Hlen Hkeep];
    [lia|].
  destruct (for_range _ _ w1) as [w2 [[]|e]]; rewrite ?run_ret; cbn [fst snd] in *.
  - split; [by rewrite Hkeep, Hold|]. split.
    + intros l Hl. by rewrite Hkeep, Hold.
    + intros y' E. injection E as E. subst y'. split; [unfold ye; lia|]. split.
      * by apply lookup_ge_None.
      * apply lookup_lt_is_Some. lia.
  - split; [by rewrite Hkeep, Hold|]. split; [|done].
    intros l Hl. by rewrite Hkeep, Hold.
Qed.


Lemma corrupt_tokens_app p pad V l1 l2 r d1 r1 d2 r2 :
  corrupt_tokens p pad V l1 r = Some (d1, r1) →
  corrupt_tokens p pad V l2 r1 = Some (d2, r2) →
  corrupt_tokens p pad V (l1 ++ l2) r = Some (d1 ++ d2, r2).
Proof.
  revert r d1. induction l1 as [|x l1 IH]; intros r d1; simpl.
  - by intros [= <- <-].
  - destruct (corrupt_token p pad V x r) as [[v r']|]; [|done]. simpl.
    destruct (corrupt_tokens p pad V l1 r') as [[d r'']|] eqn:E; [|done]. simpl.
    intros [= <- <-] E2. by rewrite (IH _ _ E E2).
Qed.

Lemma corrupt_tokens_app_inv p pad V l1 l2 r d r2 :
  corrupt_tokens p pad V (l1 ++ l2) r = Some (d, r2) →
  ∃ d1 r1 d2, corrupt_tokens p pad V l1 r = Some (d1, r1) ∧
              corrupt_tokens p pad V l2 r1 = Some (d2, r2) ∧ d = d1 ++ d2.
Proof.
  revert r d. induction l1 as [|x l1 IH]; intros r d; simpl.
  - intros E. by exists [], r, d.
  - destruct (corrupt_token p pad V x r) as [[v r']|]; [|done]. simpl.
    destruct (corrupt_tokens p pad V (l1 ++ l2) r') as [[d' r'']|] eqn:E; [|done].
    simpl. intros [= <- <-].
    destruct (IH _ _ E) as (d1 & r1 & d2 & E1 & E2 & ->).
    exists (v :: d1), r1, d2. by rewrite E1.
Qed.

Lemma corrupt_tokens_length p pad V l r d r' :
  corrupt_tokens p pad V l r = Some (d, r') → length d = length l.
Proof.
  revert r d. induction l as [|x l IH]; intros r d; simpl.
  - by intros [= <- <-].
  - destruct (corrupt_token p pad V x r) as [[v r1]|]; [|done]. simpl.
    destruct (corrupt_tokens p pad V l r1) as [[d' r'']|] eqn:E; [|done].
    simpl. intros [= <- <-]. simpl. f_equal. eauto.
Qed.

Lemma Qltb_false_le (u p : Q) : (p <= u)%Q → Qltb u p = false.
Proof.
  intros Hle. unfold Qltb. apply negb_false_iff. by apply Qle_bool_iff.
Qed.

Lemma Qltb_true_lt (u p : Q) : (u < p)%Q → Qltb u p = true.
Proof.
  intros Hlt. unfold Qltb. apply negb_true_iff.
  destruct (Qle_bool p u) eqn:E; [|done].
  apply Qle_bool_iff in E. by apply Qle_not_lt in E.
Qed.

Lemma corrupt_token_never (p : Q) pad V x r :
  (p <= 0)%Q → corrupt_token p pad V x r = Some (x, (random_random r).2).
Proof.
  intros Hp. unfold corrupt_token.
  pose proof (random_random_range r) as [Hu _].
  destruct (random_random r) as [u r1]. simpl in *.
  rewrite Qltb_false_le; [done|]. by eapply Qle_trans.
Qed.

Lemma corrupt_token_always (p : Q) pad V x r :
  (1 <= p)%Q → x ≠ pad →
  corrupt_token p pad V x r =
    random_randint 0 (Z.of_nat V - 1) (random_random r).2.
Proof.
  intros Hp Hx. unfold corrupt_token.
  pose proof (random_random_range r) as [_ Hu].
  destruct (random_random r) as [u r1]. simpl in *.
  rewrite Qltb_true_lt by (by eapply Qlt_le_trans).
  by rewrite bool_decide_true.
Qed.

Lemma corrupt_token_padding (p : Q) pad V r :
  corrupt_token p pad V pad r = Some (pad, (random_random r).2).
Proof.
  unfold corrupt_token. destruct (random_random r) as [u r1]. simpl.
  rewrite bool_decide_false by (intros ?; done). by rewrite andb_false_r.
Qed.

Lemma corrupt_token_total (p : Q) pad V x r :
  0 < V → is_Some (corrupt_token p pad V x r).
Proof.
  intros HV. unfold corrupt_token. destruct (random_random r) as [u r1].
  destruct (_ && _); [|eauto].
  destruct (random_randint_range 0 (Z.of_nat V - 1) r1) as (v & r2 & E & _);
    [lia|]. rewrite E. eauto.
Qed.

Lemma corrupt_tokens_total (p : Q) pad V l r :
  0 < V → is_Some (corrupt_tokens p pad V l r).
Proof.
  intros HV. revert r. induction l as [|x l IH]; intros r; simpl; [eauto|].
  destruct (corrupt_token_total p pad V x r HV) as [[v r1] ->]. simpl.
  destruct (IH r1) as [[d r2] ->]. simpl. eauto.
Qed.

Lemma corrupt_tokens_never (p : Q) pad V l r d r' :
  (p <= 0)%Q → corrupt_tokens p pad V l r = Some (d, r') → d = l.
Proof.
  intros Hp. revert r d. induction l as [|x l IH]; intros r d; simpl.
  - by intros [= <- <-].
  - rewrite corrupt_token_never by done. simpl.
    destruct (corrupt_tokens p pad V l _) as [[d' r2]|] eqn:E; [|done].
    simpl. intros [= <- <-]. f_equal. eauto.
Qed.

Lemma corrupt_tokens_padding (p : Q) pad V l r d r' k :
  corrupt_tokens p pad V l r = Some (d, r') →
  l !! k = Some pad → d !! k = Some pad.
Proof.
  revert r d k. induction l as [|x l IH]; intros r d k; simpl; [done|].
  destruct (corrupt_token p pad V x r) as [[v r1]|] eqn:Ev; [|done]. simpl.
  destruct (corrupt_tokens p pad V l r1) as [[d' r2]|] eqn:E; [|done].
  simpl. intros [= <- <-]. destruct k as [|k]; simpl.
  - intros [= ->]. rewrite corrupt_token_padding in Ev. by injection Ev as <- _.
  - by eapply IH.
Qed.

Lemma corrupt_tokens_always (p : Q) pad V l r d r' k x :
  (1 <= p)%Q → corrupt_tokens p pad V l r = Some (d, r') →
  l !! k = Some x → x ≠ pad →
  ∃ v r1 r2, d !! k = Some v ∧
             random_randint 0 (Z.of_nat V - 1) r1 = Some (v, r2).
Proof.
  intros Hp. revert r d k. induction l as [|y l IH]; intros r d k; simpl; [done|].
  destruct (corrupt_token p pad V y r) as [[v r1]|] eqn:Ev; [|done]. simpl.
  destruct (corrupt_tokens p pad V l r1) as [[d' r2]|] eqn:E; [|done].
  simpl. intros [= <- <-]. destruct k as [|k]; simpl.
  - intros [= ->] Hx. rewrite corrupt_token_always in Ev by done. eauto.
  - by eapply IH.
Qed.

Section Corruptor.
Variables (self : Transformer) (y : loc) (w : world) (t : tensor Z) (B L : nat).
Hypothesis Hy : heap w !! y = Some t.
Hypothesis Hshape : shape t = [B; L].
Hypothesis Hwf : wf t.

Let ye := length (heap w).
Let p := teacher_forcing_prob self.
Let pad := padding_idx self.
Let V := size (w2i self).

(** The world while the loops run: the clone holds [d]. *)
Let st (d : list Z) (r : rng_state) : world :=
  World (<[ye := Tensor [B; L] d]> (heap w ++ [t])) r (gen w) (events w).

Let body (i j : nat) : M unit :=
  u ← py_random;
  if Qltb u (teacher_forcing_prob self) then
    y_ij ← getitem y [i; j];
    if decide (y_ij ≠ padding_idx self) then
      v ← py_randint 0 (Z.of_nat (size (w2i self)) - 1);
      setitem ye [i; j] v
    else mret ()
  else mret ().

Lemma data_length : length (data t) = B * L.
Proof. unfold wf in Hwf. rewrite Hwf, Hshape. simpl. lia. Qed.

Lemma st_lookup_y d r : heap (st d r) !! y = Some t.
Proof.
  pose proof (lookup_lt_Some _ _ _ Hy). unfold st. simpl.
  rewrite list_lookup_insert_ne by (unfold ye; lia). by rewrite lookup_app_l.
Qed.

Lemma st_lookup_ye d r : heap (st d r) !! ye = Some (Tensor [B; L] d).
Proof.
  unfold st. simpl. apply list_lookup_insert_eq.
  rewrite length_app. simpl. unfold ye. lia.
Qed.

Lemma run_py_random_st d r :
  py_random (st d r) = (st d (random_random r).2, Ok (random_random r).1).
Proof. unfold py_random. cbn [rng st]. by destruct (random_random r). Qed.

Lemma run_py_randint_st d r a b v r' :
  random_randint a b r = Some (v, r') →
  py_randint a b (st d r) = (st d r', Ok v).
Proof. intros E. unfold py_randint. cbn [rng st]. by rewrite E. Qed.

Lemma run_getitem_st d r idx :
  getitem y idx (st d r) = (st d r, or_raise IndexError (tget t idx)).
Proof.
  unfold getitem. rewrite run_bind. unfold load. by rewrite st_lookup_y.
Qed.

Lemma run_setitem_st d r idx k v :
  offset [B; L] idx = Some k →
  setitem ye idx v (st d r) = (st (<[k := v]> d) r, Ok ()).
Proof.
  intros Hoff. unfold setitem.
  rewrite (run_bind_Ok _ _ _ _ _ (run_load _ _ _ (st_lookup_ye d r))).
  rewrite run_lift_bind. unfold tset. cbn [shape].
  rewrite Hoff. cbn [or_raise mbind result_bind data].
  unfold store, set_heap, st. cbn [heap rng gen events].
  by rewrite list_insert_insert_eq.
Qed.

Lemma run_tensor_size_st d r :
  tensor_size ye 1 (st d r) = (st d r, Ok L).
Proof.
  unfold tensor_size. rewrite run_bind. unfold load. by rewrite st_lookup_ye.
Qed.

Lemma body_step i j done x rest r v r' :
  i < B → j < L → length done = i * L + j →
  drop (i * L + j) (data t) = x :: rest →
  corrupt_token p pad V x r = Some (v, r') →
  body i j (st (done ++ x :: rest) r) = (st (done ++ v :: rest) r', Ok ()).
Proof.
  intros Hi Hj Hlen Hdrop Hstep.
  assert (offset [B; L] [i; j] = Some (i * L + j)) as Hoff.
  { offset_eval. f_equal. lia. }
  assert (data t !! (i * L + j) = Some x) as Hx.
  { rewrite <- (Nat.add_0_r (i * L + j)), <- lookup_drop, Hdrop. done. }
  assert (tget t [i; j] = Some x) as Hget.
  { unfold tget. rewrite Hshape, Hoff. done. }
  unfold corrupt_token in Hstep. unfold body.
  rewrite run_bind, run_py_random_st.
  destruct (random_random r) as [u r1]. cbn [fst snd].
  fold p. destruct (Qltb u p); cbn [andb] in Hstep.
  - rewrite run_bind, run_getitem_st, Hget. cbn [or_raise].
    fold pad. destruct (decide (x ≠ pad)) as [Hpad|Hpad].
    + rewrite bool_decide_true in Hstep by done.
      rewrite run_bind. fold V. rewrite (run_py_randint_st _ _ _ _ _ _ Hstep).
      rewrite (run_setitem_st _ _ _ _ _ Hoff).
      rewrite <- Hlen. rewrite insert_app_r_alt by lia. rewrite Nat.sub_diag. done.
    + rewrite bool_decide_false in Hstep by done. by injection Hstep as <- <-.
  - by injection Hstep as <- <-.
Qed.

Lemma inner_loop i n : ∀ j done r d' r',
  i < B → j + n ≤ L → length done = i * L + j →
  corrupt_tokens p pad V (take n (drop (i * L + j) (data t))) r = Some (d', r') →
  for_each (seq j n) (body i) (st (done ++ drop (i * L + j) (data t)) r) =
    (st ((done ++ d') ++ drop (i * L + j + n) (data t)) r', Ok ()).
Proof.
  induction n as [|n IH]; intros j done r d' r' Hi Hj Hlen Hc.
  - simpl in Hc. injection Hc as <- <-. rewrite app_nil_r, Nat.add_0_r. done.
  - pose proof data_length as HL.
    destruct (drop (i * L + j) (data t)) as [|x rest] eqn:Hdrop.
    { apply (f_equal length) in Hdrop. rewrite length_drop in Hdrop.
      simpl in Hdrop. nia. }
    simpl in Hc.
    destruct (corrupt_token p pad V x r) as [[v r1]|] eqn:Hs; [|done].
    simpl in Hc.
    destruct (corrupt_tokens p pad V (take n rest) r1) as [[d r2]|] eqn:Hr;
      [|done].
    simpl in Hc. injection Hc as <- <-.
    assert (rest = drop (i * L + S j) (data t)) as Hrest.
    { replace (i * L + S j) with (i * L + j + 1) by lia.
      rewrite <- drop_drop, Hdrop. done. }
    cbn [seq for_each]. rewrite run_bind.
    rewrite (body_step i j done x rest r v r1) by (done || lia).
    replace (done ++ v :: rest) with ((done ++ [v]) ++ rest)
      by (by rewrite <- app_assoc).
    rewrite Hrest.
    rewrite (IH (S j) (done ++ [v]) r1 d r2).
    + rewrite <- !app_assoc. simpl.
      by replace (i * L + S j + n) with (i * L + j + S n) by lia.
    + done.
    + lia.
    + rewrite length_app. simpl. lia.
    + by rewrite <- Hrest.
Qed.

Lemma outer_loop n : ∀ i done r d' r',
  i + n ≤ B → length done = i * L →
  corrupt_tokens p pad V (take (n * L) (drop (i * L) (data t))) r = Some (d', r') →
  for_each (seq i n)
    (λ i, n1 ← tensor_size ye 1; for_range n1 (body i))
    (st (done ++ drop (i * L) (data t)) r) =
    (st ((done ++ d') ++ drop ((i + n) * L) (data t)) r', Ok ()).
Proof.
  induction n as [|n IH]; intros i done r d' r' Hi Hlen Hc.
  - simpl in Hc. injection Hc as <- <-. rewrite app_nil_r, Nat.add_0_r. done.
  - pose proof data_length as HL.
    replace (S n * L) with (L + n * L) in Hc by lia.
    rewrite <- (take_drop L (drop (i * L) (data t))) in Hc.
    rewrite take_app_add' in Hc by (rewrite length_take, length_drop; nia).
    apply corrupt_tokens_app_inv in Hc as (d1 & r1 & d2 & E1 & E2 & ->).
    cbn [seq for_each]. rewrite !run_bind, run_tensor_size_st.
    unfold for_range at 1.
    pose proof (inner_loop i L 0 done r d1 r1) as Hin.
    rewrite !Nat.add_0_r in Hin. rewrite Hin by (done || lia). clear Hin.
    rewrite drop_drop in E2.
    replace (i * L + L) with (S i * L) in * by lia.
    rewrite (IH (S i) (done ++ d1) r1 d2 r').
    + rewrite <- !app_assoc.
      by replace ((S i + n) * L) with ((i + S n) * L) by lia.
    + lia.
    + rewrite length_app, (corrupt_tokens_length _ _ _ _ _ _ _ E1).
      rewrite length_take, length_drop. nia.
    + done.
Qed.

Lemma apply_teacher_forcing_refines d' r' :
  corrupt_tokens p pad V (data t) (rng w) = Some (d', r') →
  apply_teacher_forcing self y w =
    (World (heap w ++ [Tensor [B; L] d']) r' (gen w) (events w), Ok ye).
Proof.
  intros Hc. pose proof data_length as HL.
  unfold apply_teacher_forcing.
  rewrite (run_bind_Ok _ _ _ _ _ (run_clone _ _ _ Hy)).
  assert (set_heap (heap w ++ [t]) w = st (data t) (rng w)) as ->.
  { unfold set_heap, st. f_equal. symmetry. apply list_insert_id.
    rewrite lookup_app_r, Nat.sub_diag by (unfold ye; lia).
    destruct t as [sh d]. simpl in *. by subst sh. }
  assert (tensor_size ye 0 (st (data t) (rng w)) = (st (data t) (rng w), Ok B))
    as Hsize.
  { unfold tensor_size. rewrite run_bind. unfold load.
    by rewrite st_lookup_ye. }
  rewrite (run_bind_Ok _ _ _ _ _ Hsize). rewrite run_bind. unfold for_range at 1.
  pose proof (outer_loop B 0 [] (rng w) d' r') as Hout.
  simpl in Hout. rewrite drop_0 in Hout. unfold body, ye in Hout.
  rewrite Hout; [|lia|done|by rewrite take_ge by lia].
  rewrite drop_ge, app_nil_r by lia. rewrite run_ret. f_equal.
  unfold st. f_equal. fold ye.
  replace ye with (length (heap w) + 0) at 1 by (unfold ye; lia).
  by rewrite insert_app_r.
Qed.

End Corruptor.

(** C3. For a batch [batch, seq_len] and a non-empty vocabulary, the
    corruptor returns a new tensor of the same shape. With probability 0 it
    equals the input. With probability 1 every token that is not padding is
    replaced by the value of a [random.randint(0, len(w2i) - 1)] draw, a
    vocabulary index (which may be the token itself). For every probability,
    a padding position still holds padding. *)
Theorem apply_teacher_forcing_corrupts (self : Transformer) (y : loc)
    (w : world) (t : tensor Z) (B L : nat) :
  heap w !! y = Some t → shape t = [B; L] → wf t → 0 < size (w2i self) →
  ∃ t' r',
    apply_teacher_forcing self y w =
      (World (heap w ++ [t']) r' (gen w) (events w), Ok (length (heap w))) ∧
    shape t' = [B; L] ∧ wf t' ∧
    ((teacher_forcing_prob self == 0)%Q → t' = t) ∧
    ((teacher_forcing_prob self == 1)%Q →
       ∀ i j x, tget t [i; j] = Some x → x ≠ padding_idx self →
         ∃ v r1 r2,
           tget t' [i; j] = Some v ∧
           random_randint 0 (Z.of_nat (size (w2i self)) - 1) r1 = Some (v, r2) ∧
           (0 ≤ v < Z.of_nat (size (w2i self)))%Z) ∧
    (∀ i j, tget t [i; j] = Some (padding_idx self) →
            tget t' [i; j] = Some (padding_idx self)).
Proof.
  intros Hy Hshape Hwf HV.
  destruct (corrupt_tokens_total (teacher_forcing_prob self) (padding_idx self)
              (size (w2i self)) (data t) (rng w) HV) as [[d' r'] Hc].
  exists (Tensor [B; L] d'), r'.
  split; [by eapply apply_teacher_forcing_refines|].
  pose proof (corrupt_tokens_length _ _ _ _ _ _ _ Hc) as Hlen.
  split; [done|]. split; [|split; [|split]].
  - unfold wf in *. simpl. by rewrite Hlen, Hwf, Hshape.
  - intros Hp. destruct t as [sh d]. simpl in *. subst sh. f_equal.
    eapply corrupt_tokens_never; [|done]. by rewrite Hp.
  - intros Hp i j x Hx Hne. unfold tget in *. rewrite Hshape in Hx. simpl shape.
    destruct (offset [B; L] [i; j]) as [o|]; [|done]. simpl in *.
    destruct (corrupt_tokens_always _ _ _ _ _ _ _ o x (proj2 (Qle_lteq _ _) (or_intror (symmetry Hp))) Hc Hx Hne)
      as (v & r1 & r2 & Hv & Hr).
    exists v, r1, r2. split; [done|]. split; [done|].
    destruct (random_randint_range 0 (Z.of_nat (size (w2i self)) - 1) r1)
      as (v' & r2' & E & Hrange); [lia|].
    rewrite E in Hr. injection Hr as -> ->. lia.
  - intros i j Hx. unfold tget in *. rewrite Hshape in Hx. simpl shape.
    destruct (offset [B; L] [i; j]) as [o|]; [|done]. simpl in *.
    by eapply corrupt_tokens_padding.
Qed.

End MonadFacts.

Lemma apply_teacher_forcing_corrupts_witness :
  ∃ t' r',
    apply_teacher_forcing demo_self 0 demo_batch_world =
      (World (heap demo_batch_world ++ [t']) r' (gen demo_batch_world)
         (events demo_batch_world), Ok (length (heap demo_batch_world))) ∧
    shape t' = [2; 3] ∧ wf t' ∧
    ((teacher_forcing_prob demo_self == 0)%Q → t' = demo_batch) ∧
    ((teacher_forcing_prob demo_self == 1)%Q →
       ∀ i j x, tget demo_batch [i; j] = Some x → x ≠ padding_idx demo_self →
         ∃ v r1 r2,
           tget t' [i; j] = Some v ∧
           random_randint 0 (Z.of_nat (size (w2i demo_self)) - 1) r1 = Some (v, r2) ∧
           (0 ≤ v < Z.of_nat (size (w2i demo_self)))%Z) ∧
    (∀ i j, tget demo_batch [i; j] = Some (padding_idx demo_self) →
            tget t' [i; j] = Some (padding_idx demo_self)).
Proof.
  apply (apply_teacher_forcing_corrupts demo_self 0 demo_batch_world
           demo_batch 2 3);
    [reflexivity | reflexivity | reflexivity | vm_compute; lia].
Defined.

Lemma apply_teacher_forcing_leaves_batch_witness :
  let w' := (apply_teacher_forcing demo_self 0 demo_batch_world).1 in
  heap w' !! 0 = Some demo_batch ∧
  (∀ l, l < length (heap demo_batch_world) →
        heap w' !! l = heap demo_batch_world !! l) ∧
  ∀ y', (apply_teacher_forcing demo_self 0 demo_batch_world).2 = Ok y' →
        y' ≠ 0 ∧ heap demo_batch_world !! y' = None ∧ is_Some (heap w' !! y').
Proof.
  apply (apply_teacher_forcing_leaves_batch demo_self 0 demo_batch_world
           demo_batch).
  reflexivity.
Defined.

(* ================================================================== *)
(** * Greedy autoregressive decoding *)

(** The selection of a token: [argmax] and the slice of the last position. *)

Lemma Qltb_true_inv (a b : Q) : Qltb a b = true → (a < b)%Q.
Proof.
  unfold Qltb. intros Hn. apply negb_true_iff in Hn.
  apply Qnot_le_lt. intros Hle. apply Qle_bool_iff in Hle. congruence.
Qed.

Lemma Qltb_false_inv (a b : Q) : Qltb a b = false → (b <= a)%Q.
Proof.
  unfold Qltb. intros Hn. apply negb_false_iff in Hn. by apply Qle_bool_iff.
Qed.

Lemma argmax_from_spec (l : list Q) : ∀ (pre : list Q) (best : nat) (bv : Q),
  pre !! best = Some bv →
  (∀ j q, pre !! j = Some q → (q <= bv)%Q) →
  (∀ j q, j < best → pre !! j = Some q → (q < bv)%Q) →
  ∃ p, (pre ++ l) !! argmax_from best bv (length pre) l = Some p ∧
       (∀ j q, (pre ++ l) !! j = Some q → (q <= p)%Q) ∧
       (∀ j q, j < argmax_from best bv (length pre) l →
               (pre ++ l) !! j = Some q → (q < p)%Q).
Proof.
  induction l as [|v l IH]; intros pre best bv Hb Hmax Hfirst.
  - simpl. rewrite app_nil_r. eauto.
  - pose proof (lookup_lt_Some _ _ _ Hb) as Hlt.
    cbn [argmax_from]. rewrite (cons_middle v pre l), app_assoc.
    replace (S (length pre)) with (length (pre ++ [v]))
      by (rewrite length_app; simpl; lia).
    destruct (Qltb bv v) eqn:E.
    + apply Qltb_true_inv in E. apply IH.
      * rewrite lookup_app_r, Nat.sub_diag by lia. done.
      * intros j q Hj. apply lookup_app_Some in Hj as [Hj|[_ Hj]].
        -- apply Qlt_le_weak. eapply Qle_lt_trans; [by eapply Hmax|done].
        -- apply list_lookup_singleton_Some in Hj as [_ <-]. apply Qle_refl.
      * intros j q Hjl Hj. apply lookup_app_Some in Hj as [Hj|[Hge _]]; [|lia].
        eapply Qle_lt_trans; [by eapply Hmax|done].
    + apply Qltb_false_inv in E. apply IH.
      * by rewrite lookup_app_l.
      * intros j q Hj. apply lookup_app_Some in Hj as [Hj|[_ Hj]].
        -- by eapply Hmax.
        -- by apply list_lookup_singleton_Some in Hj as [_ <-].
      * intros j q Hjl Hj. apply lookup_app_Some in Hj as [Hj|[Hge _]]; [|lia].
        by eapply Hfirst.
Qed.

Lemma indices_1 n : indices [n] = (λ j, [j]) <$> seq 0 n.
Proof.
  assert (∀ s, (j ← seq s n; (j ::.) <$> [[]]) = (λ j, [j]) <$> seq s n) as E.
  { induction n as [|n IH]; intros s; simpl; [done|]. by rewrite IH. }
  apply E.
Qed.

(** [argmax] on a vector given by its entries. *)
Lemma argmax_vector (V : nat) (f : nat → Q) :
  match argmax (tbuild [V] (λ idx, f (default 0 (head idx)))) with
  | Ok k => k < V ∧ (∀ v, v < V → (f v <= f k)%Q) ∧ (∀ v, v < k → (f v < f k)%Q)
  | Raise e => e = IndexError ∧ V = 0
  end.
Proof.
  unfold argmax, tbuild. cbn [shape data]. rewrite indices_1, <- list_fmap_compose.
  destruct V as [|V]; [done|].
  rewrite <- cons_seq. cbn [fmap list_fmap compose head default]. unfold id.
  set (l := _ <$> seq 1 V).
  destruct (argmax_from_spec l [f 0] 0 (f 0)) as (p & Hk & Hmax & Hfirst).
  - done.
  - intros [|j] q; simpl; [intros [= <-]; apply Qle_refl|done].
  - intros j q Hj. lia.
  - cbn [length app] in *. set (k := argmax_from 0 (f 0) 1 l) in *.
    assert (∀ j, (f 0 :: l) !! j = if decide (j < S V) then Some (f j) else None)
      as Hl.
    { intros j. change (f 0 :: l) with ((λ j, f j) <$> seq 0 (S V)).
      rewrite list_lookup_fmap. case_decide.
      - by rewrite lookup_seq_lt.
      - by rewrite lookup_seq_ge by lia. }
    clearbody k l. rewrite Hl in Hk. case_decide as HkV; [|done].
    injection Hk as <-.
    split; [done|]. split.
    + intros v Hv. apply (Hmax v). rewrite Hl. by rewrite decide_True.
    + intros v Hv. apply (Hfirst v); [done|]. rewrite Hl.
      by rewrite decide_True by lia.
Qed.

Lemma getitem_0_all_last_vector (scores : tensor Q) :
  match getitem_0_all_last scores with
  | Ok d => ∃ b V L, shape scores = [b; V; L] ∧ 0 < b ∧ 0 < L ∧
                     d = tbuild [V] (λ idx, last_score scores (default 0 (head idx)))
  | Raise e => e = IndexError ∧
               ¬ ∃ b V L, shape scores = [b; V; L] ∧ 0 < b ∧ 0 < L
  end.
Proof.
  unfold getitem_0_all_last.
  destruct (shape scores) as [|b [|V [|L [|]]]] eqn:Hs;
    try (split; [done|]; intros (? & ? & ? & [=] & _); fail).
  case_decide as Hb.
  - exists b, V, L. split_and!; [done|lia|lia|].
    unfold tbuild. f_equal. rewrite indices_1, <- !list_fmap_compose.
    apply list_fmap_ext. intros i j _. unfold last_score. rewrite Hs. done.
  - split; [done|]. intros (? & ? & ? & [= <- <- <-] & ? & ?). lia.
Qed.

Lemma argmax_list (n : nat) (v : Q) (l : list Q) :
  ∃ k p, argmax (Tensor [n] (v :: l)) = Ok k ∧ (v :: l) !! k = Some p ∧
         (∀ j q, (v :: l) !! j = Some q → (q <= p)%Q) ∧
         (∀ j q, j < k → (v :: l) !! j = Some q → (q < p)%Q).
Proof.
  destruct (argmax_from_spec l [v] 0 v) as (p & Hk & Hmax & Hfirst).
  - done.
  - intros [|j] q; simpl; [intros [= <-]; apply Qle_refl|done].
  - intros j q Hj. lia.
  - exists (argmax_from 0 v 1 l), p. done.
Qed.

Lemma data_vector (V : nat) (f : nat → Q) (j : nat) :
  data (tbuild [V] (λ idx, f (default 0 (head idx)))) !! j =
    if decide (j < V) then Some (f j) else None.
Proof.
  unfold tbuild. cbn [data]. rewrite indices_1, <- list_fmap_compose.
  rewrite list_lookup_fmap. case_decide.
  - by rewrite lookup_seq_lt.
  - by rewrite lookup_seq_ge by lia.
Qed.

Lemma shape_vector (V : nat) (f : nat → Q) :
  let d := tbuild [V] (λ idx, f (default 0 (head idx))) in
  shape d = [length (data d)].
Proof.
  unfold tbuild. cbn [shape data]. rewrite length_fmap, length_indices.
  simpl. f_equal. lia.
Qed.

Section Decoding.
Context `{env : Env}.

Lemma indices_row n : indices [1; n] = (λ j, [0; j]) <$> seq 0 n.
Proof.
  assert (∀ s, (j ← seq s n; (j ::.) <$> [[]]) = (λ j, [j]) <$> seq s n) as E.
  { induction n as [|n IH]; intros s; simpl; [done|]. by rewrite IH. }
  cbn [indices seq mbind list_bind]. rewrite app_nil_r.
  change (indices [n]) with (j ← seq 0 n; (j ::.) <$> indices []).
  cbn [indices]. rewrite E, <- list_fmap_compose. done.
Qed.

Lemma cat_dim1_row (s : list Z) (tok : Z) :
  cat_dim1 (row s) (Tensor [1; 1] [tok]) = Ok (row (s ++ [tok])).
Proof.
  unfold cat_dim1, row. cbn [shape]. rewrite decide_True by done.
  f_equal. unfold tbuild. rewrite length_app. simpl length. f_equal.
  rewrite indices_row. rewrite <- list_fmap_compose.
  apply list_eq. intros j. rewrite list_lookup_fmap.
  destruct (decide (j < length s + 1)) as [Hj|Hj].
  - rewrite lookup_seq_lt by done. simpl.
    destruct (decide (j < length s)) as [Hlt|Hge].
    + rewrite lookup_app_l by done. unfold tget_d, tget. simpl.
      rewrite decide_True by done. simpl.
      destruct (lookup_lt_is_Some_2 s j Hlt) as [v Hv].
      replace (j * 1 + 0) with j by lia. by rewrite Hv.
    + assert (j = length s) as -> by lia.
      rewrite lookup_app_r, Nat.sub_diag by lia. done.
  - rewrite lookup_seq_ge by lia. simpl. symmetry. apply lookup_ge_None.
    rewrite length_app. simpl. lia.
Qed.

Lemma run_emit_bind {B} (e : event) (f : unit → M B) (w : world) :
  (emit e ≫= f) w = f () (set_events (events w ++ [e]) w).
Proof. done. Qed.

Lemma run_call_decoder_bind {B} self tgt x ml (f : tensor Q → M B) w :
  (call_decoder self tgt x ml ≫= f) w =
  let w1 := set_events (events w ++ [DecoderCall tgt x ml]) w in
  match decoder self tgt x ml with
  | Ok out => f out w1
  | Raise e => (w1, Raise e)
  end.
Proof.
  unfold call_decoder. rewrite run_bind, run_emit_bind. unfold lift.
  by destruct (decoder self tgt x ml).
Qed.

Lemma set_events_app (w : world) (e1 e2 : list event) :
  set_events (events (set_events (events w ++ e1) w) ++ e2)
             (set_events (events w ++ e1) w) =
  set_events (events w ++ e1 ++ e2) w.
Proof. unfold set_events. simpl. by rewrite app_assoc. Qed.

(** The loop of [validation_step] runs the state machine. *)
Lemma decode_loop_runs_machine (self : Transformer) (x : tensor real) (n : nat) :
  ∀ s out, ∃ fed o s' out',
    sm_run self x n s out fed o s' out' ∧
    ∀ w, decode_loop self x n (row s) out w =
         (set_events (events w ++ decoder_calls x fed) w, result_of o s' out').
Proof.
  induction n as [|n IH]; intros s out.
  - exists [], BoundReached, s, out. split; [constructor|].
    intros w. simpl. rewrite app_nil_r. by destruct w.
  - destruct (greedy_choice self x s) as [[tok word]|e] eqn:Hg.
    + destruct (decide (word = EOS_TOKEN)) as [->|Hne].
      * exists [s], EosReached, s, (out ++ [EOS_TOKEN]).
        split; [by econstructor|]. intros w.
        cbn [decode_loop]. rewrite run_call_decoder_bind. cbn zeta.
        unfold greedy_choice in Hg.
        destruct (decoder self (row s) x None) as [o1|]; [|done].
        rewrite bind_Ok in Hg. rewrite run_lift_bind.
        destruct (getitem_0_all_last o1) as [d|]; [|done].
        rewrite bind_Ok in Hg. rewrite run_lift_bind.
        destruct (argmax d) as [tk|]; [|done].
        rewrite bind_Ok in Hg. rewrite run_lift_bind.
        destruct (dict_get (i2w self) (Z.of_nat tk)) as [wd|]; [|done].
        rewrite bind_Ok in Hg. injection Hg as -> ->.
        by rewrite decide_True.
      * destruct (IH (s ++ [Z.of_nat tok]) (out ++ [word]))
          as (fed & o & s' & out' & Hrun & Hloop).
        exists (s :: fed), o, s', out'. split; [by econstructor|]. intros w.
        cbn [decode_loop]. rewrite run_call_decoder_bind. cbn zeta.
        unfold greedy_choice in Hg.
        destruct (decoder self (row s) x None) as [o1|]; [|done].
        rewrite bind_Ok in Hg. rewrite run_lift_bind.
        destruct (getitem_0_all_last o1) as [d|]; [|done].
        rewrite bind_Ok in Hg. rewrite run_lift_bind.
        destruct (argmax d) as [tk|]; [|done].
        rewrite bind_Ok in Hg. rewrite run_lift_bind.
        destruct (dict_get (i2w self) (Z.of_nat tk)) as [wd|]; [|done].
        rewrite bind_Ok in Hg. injection Hg as -> ->.
        rewrite decide_False by done.
        rewrite run_lift_bind, cat_dim1_row, Hloop.
        by rewrite set_events_app.
    + exists [s], (Failed e), s, out. split; [by econstructor|]. intros w.
      cbn [decode_loop]. rewrite run_call_decoder_bind. cbn zeta.
      unfold greedy_choice in Hg.
      destruct (decoder self (row s) x None) as [o1|];
        [|by injection Hg as ->].
      rewrite bind_Ok in Hg. rewrite run_lift_bind.
      destruct (getitem_0_all_last o1) as [d|]; [|by injection Hg as ->].
      rewrite bind_Ok in Hg. rewrite run_lift_bind.
      destruct (argmax d) as [tk|]; [|by injection Hg as ->].
      rewrite bind_Ok in Hg. rewrite run_lift_bind.
      destruct (dict_get (i2w self) (Z.of_nat tk)) as [wd|];
        [done|by injection Hg as ->].
Qed.


(** What a run of the state machine looks like. *)
Lemma sm_run_shape self x n s out fed o s' out' :
  sm_run self x n s out fed o s' out' →
  ∃ toks words,
    s' = s ++ toks ∧ out' = out ++ words ∧
    length fed ≤ n ∧ length words ≤ n ∧
    (∀ j sj, fed !! j = Some sj → sj = s ++ take j toks ∧ j < n) ∧
    match o with
    | EosReached =>
        length fed = length words ∧ S (length toks) = length words ∧
        last words = Some EOS_TOKEN ∧
        ∀ j word, words !! j = Some word → S j < length words → word ≠ EOS_TOKEN
    | BoundReached =>
        length fed = n ∧ length words = n ∧ length toks = n ∧
        (EOS_TOKEN ∉ words)
    | Failed e =>
        length fed = S (length words) ∧ length toks = length words ∧
        (EOS_TOKEN ∉ words) ∧ greedy_choice self x s' = Raise e
    end.
Proof.
  induction 1 as [s out|n s out tok Hg|n s out tok word fed o s' out' Hg Hne Hrun IH
                 |n s out e Hg].
  - exists [], []. rewrite !app_nil_r. split_and!; try done.
    by apply not_elem_of_nil.
  - exists [], [EOS_TOKEN]. rewrite app_nil_r.
    split_and!; simpl; try done; try lia.
    intros [|j] sj Hj; simpl in *; [|done].
    injection Hj as <-. rewrite app_nil_r. split; [done|lia].
  - destruct IH as (toks & words & -> & -> & Hfed & Hwords & Hprefix & Ho).
    exists (Z.of_nat tok :: toks), (word :: words).
    rewrite <- !app_assoc. simpl. split_and!; try done; try lia.
    + intros [|j] sj Hj; simpl in *.
      * injection Hj as <-. rewrite app_nil_r. split; [done|lia].
      * destruct (Hprefix j sj Hj) as [-> ?]. rewrite <- app_assoc.
        split; [done|lia].
    + destruct o.
      * destruct Ho as (H1 & H2 & H3 & H4). split_and!; try lia.
        -- rewrite last_cons, H3. done.
        -- intros [|j] wd Hj Hlt; simpl in *.
           ++ by injection Hj as <-.
           ++ eapply H4; [done|lia].
      * destruct Ho as (H1 & H2 & H3 & H4). split_and!; try lia.
        intros [?|?]%elem_of_cons; [by subst|done].
      * destruct Ho as (H1 & H2 & H3 & H4). split_and!; try lia.
        -- intros [?|?]%elem_of_cons; [by subst|done].
        -- by rewrite <- app_assoc in H4.
  - exists [], []. rewrite !app_nil_r. split_and!; simpl; try done; try lia.
    + intros [|j] sj Hj; simpl in *; [|done].
      injection Hj as <-. rewrite app_nil_r. split; [done|lia].
    + by apply not_elem_of_nil.
Qed.

Lemma sm_run_deterministic self x n s out fed1 o1 s1 out1 fed2 o2 s2 out2 :
  sm_run self x n s out fed1 o1 s1 out1 →
  sm_run self x n s out fed2 o2 s2 out2 →
  fed1 = fed2 ∧ o1 = o2 ∧ s1 = s2 ∧ out1 = out2.
Proof.
  intros H1. revert fed2 o2 s2 out2.
  induction H1 as [s out|n s out tok Hg|n s out tok word fed o s' out' Hg Hne Hrun IH
                  |n s out e Hg]; intros fed2 o2 s2 out2 H2; inversion H2; subst;
    try done; try congruence.
  - match goal with
    | Hg' : greedy_choice _ _ _ = Ok (?t, ?wd), Hr : sm_run _ _ _ _ _ _ _ _ _ |- _ =>
        assert (tok = t ∧ word = wd) as [-> ->] by (split; congruence);
        destruct (IH _ _ _ _ Hr) as (-> & -> & -> & ->)
    end. done.
  - match goal with
    | Hg' : greedy_choice _ _ _ = Raise ?e' |- _ =>
        assert (e = e') as -> by congruence
    end. done.
Qed.

Lemma start_sequence_eq (self : Transformer) :
  start_sequence self = (sos ← dict_get (w2i self) SOS_TOKEN; Ok (row [sos])).
Proof. unfold start_sequence. by destruct (dict_get _ _). Qed.


Lemma set_events_nil (w : world) : set_events (events w ++ []) w = w.
Proof. unfold set_events. rewrite app_nil_r. by destruct w. Qed.

(** The encoder side touches nothing but the torch generator, and not even
    that outside training mode. *)
Lemma encode_memory_frame self x w :
  events (encode_memory self x w).1 = events w ∧
  rng (encode_memory self x w).1 = rng w ∧
  heap (encode_memory self x w).1 = heap w.
Proof.
  unfold encode_memory, PositionalEncoding2D_forward.
  rewrite run_lift_bind. destruct (encoder self x) as [x1|]; [|done].
  rewrite run_bind, !run_lift_bind.
  destruct (size_at x1 2) as [h|]; [|done]. rewrite run_lift_bind.
  destruct (size_at x1 3) as [wd|]; [|done]. rewrite run_lift_bind.
  destruct (getitem_hw _ _ _) as [p|]; [|done]. rewrite run_lift_bind.
  destruct (tmap2 _ _ _) as [x2|]; [|done].
  unfold Dropout_forward. destruct (training self).
  - destruct (dropout_train _ _ _) as [x3 g]. done.
  - done.
Qed.

Lemma encode_memory_eval self x w :
  training self = false →
  encode_memory self x w = (w, memory_in_eval self x).
Proof.
  intros Ht.
  unfold encode_memory, PositionalEncoding2D_forward, memory_in_eval.
  rewrite run_lift_bind. destruct (encoder self x) as [x1|]; [|done].
  rewrite run_bind, !run_lift_bind, !bind_Ok.
  destruct (size_at x1 2) as [h|]; [|done]. rewrite run_lift_bind, bind_Ok.
  destruct (size_at x1 3) as [wd|]; [|done]. rewrite run_lift_bind, bind_Ok.
  destruct (getitem_hw _ _ _) as [p|]; [|done]. rewrite run_lift_bind, bind_Ok.
  destruct (tmap2 _ _ _) as [x2|]; [|done].
  unfold Dropout_forward. rewrite Ht, bind_Ok. done.
Qed.

(** [validation_step] up to the end of its loop: either it stops before the
    loop, having called nobody, or it runs the state machine from the start
    token on the encoded memory. *)
Lemma autoregressive_decoding_cases self x w :
  (∃ e w1, autoregressive_decoding self x w = (w1, Raise e) ∧
           events w1 = events w ∧ rng w1 = rng w ∧ heap w1 = heap w) ∨
  (∃ m sos w1 fed o s' out',
     encode_memory self x w = (w1, Ok m) ∧
     w2i self !! SOS_TOKEN = Some sos ∧
     sm_run self m (max_seq_len self) [sos] [] fed o s' out' ∧
     autoregressive_decoding self x w =
       (set_events (events w1 ++ decoder_calls m fed) w1, result_of o s' out')).
Proof.
  unfold autoregressive_decoding. rewrite run_lift_bind.
  destruct (size_at x 0) as [b|e]; [|left; by exists e, w].
  case_decide; [|left; by exists AssertionError, w].
  rewrite run_bind. pose proof (encode_memory_frame self x w) as (He & Hr & Hh).
  destruct (encode_memory self x w) as [w1 [m|e]]; simpl in He, Hr, Hh;
    [|left; by exists e, w1].
  rewrite run_lift_bind, start_sequence_eq. unfold dict_get.
  destruct (w2i self !! SOS_TOKEN) as [sos|] eqn:Hsos;
    [|left; by exists KeyError, w1].
  cbn [or_raise]. rewrite bind_Ok.
  destruct (decode_loop_runs_machine self m (max_seq_len self) [sos] [])
    as (fed & o & s' & out' & Hrun & Hloop).
  right. exists m, sos, w1, fed, o, s', out'. by rewrite Hloop.
Qed.

Lemma decode_loop_same_weights a b self x n : ∀ y_in yhat w,
  decode_loop (set_accumulators a b self) x n y_in yhat w =
  decode_loop self x n y_in yhat w.
Proof.
  induction n as [|n IH]; intros y_in yhat w; [done|].
  cbn [decode_loop]. rewrite !run_call_decoder_bind.
  cbn [decoder i2w set_accumulators].
  destruct (decoder self y_in x None) as [o1|]; [|done]. cbn zeta.
  rewrite !run_lift_bind. destruct (getitem_0_all_last o1) as [d|]; [|done].
  rewrite !run_lift_bind. destruct (argmax d) as [tk|]; [|done].
  rewrite !run_lift_bind. destruct (dict_get _ _) as [wd|]; [|done].
  case_decide; [done|]. rewrite !run_lift_bind.
  destruct (cat_dim1 _ _) as [y'|]; [apply IH|done].
Qed.

Lemma autoregressive_decoding_same_weights a b self x w :
  autoregressive_decoding (set_accumulators a b self) x w =
  autoregressive_decoding self x w.
Proof.
  unfold autoregressive_decoding. rewrite !run_lift_bind.
  destruct (size_at x 0) as [n|]; [|done]. case_decide; [|done].
  rewrite !run_bind.
  change (encode_memory (set_accumulators a b self) x w)
    with (encode_memory self x w).
  destruct (encode_memory self x w) as [w1 [m|]]; [|done].
  rewrite !run_lift_bind.
  change (start_sequence (set_accumulators a b self))
    with (start_sequence self).
  destruct (start_sequence self) as [y0|]; [|done].
  cbn [max_seq_len set_accumulators]. apply decode_loop_same_weights.
Qed.

(** In inference mode the decoding is a function of the model and the
    input: the world only collects the decoder calls. *)
Lemma autoregressive_decoding_eval self x :
  training self = false →
  ∃ evs r,
    (∀ w, autoregressive_decoding self x w =
          (set_events (events w ++ evs) w, r)) ∧
    (∀ y_in yhat, r = Ok (y_in, yhat) → length yhat ≤ max_seq_len self).
Proof.
  intros Ht. unfold autoregressive_decoding.
  destruct (size_at x 0) as [b|e].
  2:{ exists [], (Raise e). split; [|done]. intros w.
      by rewrite run_lift_bind, set_events_nil. }
  destruct (decide (b = 1)) as [->|Hb].
  2:{ exists [], (Raise AssertionError). split; [|done]. intros w.
      rewrite run_lift_bind, decide_False by done. by rewrite set_events_nil. }
  destruct (memory_in_eval self x) as [m|e] eqn:Hm.
  2:{ exists [], (Raise e). split; [|done]. intros w.
      rewrite run_lift_bind, decide_True by done.
      rewrite run_bind, encode_memory_eval, Hm by done.
      by rewrite set_events_nil. }
  rewrite start_sequence_eq. unfold dict_get.
  destruct (w2i self !! SOS_TOKEN) as [sos|].
  2:{ exists [], (Raise KeyError). split; [|done]. intros w.
      rewrite run_lift_bind, decide_True by done.
      rewrite run_bind, encode_memory_eval, Hm by done.
      by rewrite run_lift_bind, set_events_nil. }
  destruct (decode_loop_runs_machine self m (max_seq_len self) [sos] [])
    as (fed & o & s' & out' & Hrun & Hloop).
  exists (decoder_calls m fed), (result_of o s' out'). split.
  - intros w. rewrite run_lift_bind, decide_True by done.
    rewrite run_bind, encode_memory_eval, Hm by done.
    rewrite run_lift_bind. cbn [or_raise]. rewrite bind_Ok. apply Hloop.
  - intros y_in yhat Hr.
    destruct (sm_run_shape _ _ _ _ _ _ _ _ _ Hrun)
      as (toks & words & _ & -> & _ & Hlen & _).
    destruct o; simpl in Hr; [| |done]; by injection Hr as _ <-.
Qed.

Lemma run_validation_step self x y w :
  validation_step self x y w =
  match autoregressive_decoding self x w with
  | (w1, Ok (_, yhat)) =>
      (w1, toks ← row0_tail y;
           y ← list_comprehension (dict_get (ytest_i2w self)) toks;
           Ok (set_accumulators (Y self ++ [y]) (YHat self ++ [yhat]) self))
  | (w1, Raise e) => (w1, Raise e)
  end.
Proof.
  unfold validation_step. rewrite run_bind.
  destruct (autoregressive_decoding self x w) as [w1 [[y_in yhat]|e]]; [|done].
  rewrite run_lift_bind. destruct (row0_tail y) as [toks|]; [|done].
  rewrite run_lift_bind, bind_Ok.
  by destruct (list_comprehension _ _).
Qed.


(** What the code selects is the argmax of the last position. *)
Lemma selection_is_argmax (scores : tensor Q) :
  match getitem_0_all_last scores ≫= argmax with
  | Ok tok => argmax_of_last_position scores tok
  | Raise e => e = IndexError ∧ ∀ tok, ¬ argmax_of_last_position scores tok
  end.
Proof.
  pose proof (getitem_0_all_last_vector scores) as Hd.
  destruct (getitem_0_all_last scores) as [d|e].
  - destruct Hd as (b & V & L & Hs & Hb & HL & ->). rewrite bind_Ok.
    pose proof (argmax_vector V (last_score scores)) as Hk.
    destruct (argmax _) as [k|e].
    + destruct Hk as (HkV & Hmax & Hfirst). split; [|done].
      exists b, V, L. done.
    + destruct Hk as [-> ->]. split; [done|].
      intros tok [(b' & V' & L' & Hs' & _ & _ & Htok & _) _].
      rewrite Hs in Hs'. injection Hs' as <- <- <-. lia.
  - destruct Hd as [-> Hno]. split; [done|].
    intros tok [(b & V & L & Hs & Hb & HL & _) _]. apply Hno.
    by exists b, V, L.
Qed.

Lemma greedy_choice_selects self m s tok word :
  greedy_choice self m s = Ok (tok, word) → selects self m s tok word.
Proof.
  unfold greedy_choice, selects.
  destruct (decoder self (row s) m None) as [scores|]; [|done]. rewrite bind_Ok.
  pose proof (selection_is_argmax scores) as Hsel.
  destruct (getitem_0_all_last scores) as [d|]; [|done].
  rewrite bind_Ok in Hsel. rewrite bind_Ok.
  destruct (argmax d) as [k|]; [|done]. rewrite bind_Ok.
  unfold dict_get. destruct (i2w self !! Z.of_nat k) as [wd|] eqn:E; [|done].
  simpl. intros [= <- <-]. by exists scores.
Qed.

Lemma greedy_choice_raises self m s e :
  greedy_choice self m s = Raise e → step_raises self m s e.
Proof.
  unfold greedy_choice, step_raises.
  destruct (decoder self (row s) m None) as [scores|e']; [|intros [= <-]; by left].
  rewrite bind_Ok. intros Hg. right. exists scores. split; [done|].
  pose proof (selection_is_argmax scores) as Hsel.
  destruct (getitem_0_all_last scores) as [d|e'].
  - rewrite bind_Ok in Hsel. rewrite bind_Ok in Hg. destruct (argmax d) as [k|e'].
    + rewrite bind_Ok in Hg. unfold dict_get in Hg.
      destruct (i2w self !! Z.of_nat k) as [wd|] eqn:E; [done|].
      simpl in Hg. injection Hg as <-. right. eauto.
    + simpl in Hg. injection Hg as <-. left. done.
  - simpl in Hg. injection Hg as <-. left. done.
Qed.

Lemma sm_run_decodes self m n s out fed o s' out' :
  sm_run self m n s out fed o s' out' → decodes self m n s out fed o s' out'.
Proof.
  induction 1 as [s out|n s out tok Hg|n s out tok word fed o s' out' Hg Hne Hrun IH
                 |n s out e Hg].
  - constructor.
  - apply (decodes_eos _ _ _ _ _ tok). by apply greedy_choice_selects.
  - apply (decodes_continue _ _ _ _ _ tok word); [|done|done].
    by apply greedy_choice_selects.
  - apply decodes_raise. by apply greedy_choice_raises.
Qed.

Lemma run_autoregressive_decoding self x rest w w1 m sos :
  shape x = 1 :: rest →
  encode_memory self x w = (w1, Ok m) →
  w2i self !! SOS_TOKEN = Some sos →
  autoregressive_decoding self x w =
    decode_loop self m (max_seq_len self) (row [sos]) [] w1.
Proof.
  intros Hx Hm Hsos. unfold autoregressive_decoding, size_at. rewrite Hx.
  cbn [lookup list_lookup or_raise]. rewrite run_lift_bind, decide_True by done.
  rewrite run_bind, Hm, run_lift_bind, start_sequence_eq. unfold dict_get.
  rewrite Hsos. done.
Qed.

(** C2. For every model and single-sample input whose encoding succeeds
    and whose vocabulary has the start token, [validation_step] runs the
    state machine of the specification on the encoded memory for at most
    [max_seq_len] steps.  The machine starts from the decoding sequence
    [START]; each step feeds the decoding sequence to the decoder, selects
    the argmax token of the last position (the first token with the highest
    score) and appends its word to the output; on the end marker it stops,
    the marker being the last word and its index not appended to the decoding
    sequence; otherwise it appends the index and repeats; after
    [max_seq_len] steps without the end marker it stops with [max_seq_len]
    words, none of them the marker.  The decoder calls of [validation_step]
    are those of the machine and the prediction it records is the machine's
    output; a step that cannot be made ends the run with its exception. *)
Theorem autoregressive_loop_state_machine (self : Transformer)
    (x : tensor real) (y : tensor Z) (rest : list nat) (w w1 : world)
    (m : tensor real) (sos : Z) :
  shape x = 1 :: rest →
  encode_memory self x w = (w1, Ok m) →
  w2i self !! SOS_TOKEN = Some sos →
  ∃ fed o s' out',
    decodes self m (max_seq_len self) [sos] [] fed o s' out' ∧
    autoregressive_decoding self x w =
      (set_events (events w1 ++ decoder_calls m fed) w1, result_of o s' out') ∧
    (validation_step self x y w).1 =
      set_events (events w1 ++ decoder_calls m fed) w1 ∧
    (∀ self', (validation_step self x y w).2 = Ok self' →
              YHat self' = YHat self ++ [out']) ∧
    match o with
    | EosReached =>
        last out' = Some EOS_TOKEN ∧ length s' = length out' ∧
        ∀ j word, out' !! j = Some word → S j < length out' → word ≠ EOS_TOKEN
    | BoundReached =>
        (EOS_TOKEN ∉ out') ∧ length out' = max_seq_len self ∧
        length s' = S (max_seq_len self)
    | Failed e => (validation_step self x y w).2 = Raise e
    end.
Proof.
  intros Hx Hm Hsos.
  destruct (decode_loop_runs_machine self m (max_seq_len self) [sos] [])
    as (fed & o & s' & out' & Hrun & Hloop).
  exists fed, o, s', out'.
  assert (autoregressive_decoding self x w =
            (set_events (events w1 ++ decoder_calls m fed) w1,
             result_of o s' out')) as Hdec.
  { by rewrite (run_autoregressive_decoding self x rest w w1 m sos), Hloop. }
  split; [by apply sm_run_decodes|]. split; [done|].
  rewrite run_validation_step, Hdec.
  destruct (sm_run_shape _ _ _ _ _ _ _ _ _ Hrun)
    as (toks & words & -> & -> & _ & _ & _ & Ho).
  destruct o; simpl in *.
  - split; [done|]. split.
    + destruct (row0_tail y) as [tk|]; [|done]. rewrite bind_Ok.
      destruct (list_comprehension _ _) as [truth|]; [|done].
      by intros self' [= <-].
    + destruct Ho as (_ & Hlen & Hlast & Hne). split_and!; [done|lia|done].
  - split; [done|]. split.
    + destruct (row0_tail y) as [tk|]; [|done]. rewrite bind_Ok.
      destruct (list_comprehension _ _) as [truth|]; [|done].
      by intros self' [= <-].
    + destruct Ho as (_ & Hw & Ht & Hne). split_and!; [done|done|lia].
  - done.
Qed.

(** C4. In every run of [validation_step], whatever its outcome, the
    decoder is called at most [max_seq_len] times, and the sequence fed to it
    at call [j] (from 0) has exactly [j + 1] tokens, hence at most
    [max_seq_len]. *)
Theorem decoding_state_bounded (self : Transformer) (x : tensor real)
    (y : tensor Z) (w : world) :
  ∃ m fed,
    events (validation_step self x y w).1 = events w ++ decoder_calls m fed ∧
    length fed ≤ max_seq_len self ∧
    ∀ j s, fed !! j = Some s →
           shape (row s) = [1; j + 1] ∧ length s = j + 1 ∧
           length s ≤ max_seq_len self.
Proof.
  rewrite run_validation_step.
  destruct (autoregressive_decoding_cases self x w)
    as [(e & w1 & -> & He & _)|(m & sos & w1 & fed & o & s' & out' & Hm & Hsos & Hrun & ->)].
  - exists x, []. simpl. rewrite He, app_nil_r. split; [done|].
    split; [lia|]. by intros j s.
  - pose proof (encode_memory_frame self x w) as (He & _). rewrite Hm in He.
    simpl in He.
    destruct (sm_run_shape _ _ _ _ _ _ _ _ _ Hrun)
      as (toks & words & _ & _ & Hfed & _ & Hprefix & Ho).
    exists m, fed. split.
    + destruct (result_of o s' out') as [[? ?]|]; simpl; by rewrite He.
    + split; [done|]. intros j s Hs. destruct (Hprefix j s Hs) as [-> Hj].
      assert (j ≤ length toks) as Hjt.
      { apply lookup_lt_Some in Hs.
        destruct o; [destruct Ho as (? & ? & _)|destruct Ho as (? & ? & ? & _)
                    |destruct Ho as (? & ? & _)]; lia. }
      unfold row. simpl. rewrite length_take, Nat.min_l by lia.
      split_and!; [by rewrite Nat.add_1_r|lia|lia].
Qed.

(** Under the contract and without ties, [topk] selects what [argmax]
    selects, with its score. *)
Lemma topk1_selects_argmax (scores d : tensor Q) :
  topk1_contract → no_tied_top scores →
  getitem_0_all_last scores = Ok d →
  match argmax d with
  | Ok tok => torch_topk1 d = Ok (last_score scores tok, tok)
  | Raise _ => ∃ e, torch_topk1 d = Raise e
  end.
Proof.
  intros Hc Hties Hd.
  pose proof (getitem_0_all_last_vector scores) as Hv. rewrite Hd in Hv.
  destruct Hv as (b & V & L & Hs & Hb & HL & ->).
  pose proof (selection_is_argmax scores) as Hsel. rewrite Hd, bind_Ok in Hsel.
  pose proof (argmax_vector V (last_score scores)) as Hk.
  specialize (Hc _ (shape_vector V (last_score scores))).
  destruct (torch_topk1 _) as [[p k]|e].
  - destruct Hc as [Hp Hmax]. rewrite data_vector in Hp.
    case_decide as HkV; [|done]. injection Hp as <-.
    assert (top_of_last_position scores k) as Htop.
    { exists b, V, L. split_and!; try done. intros v Hv. apply (Hmax v).
      rewrite data_vector. by rewrite decide_True. }
    destruct (argmax _) as [tok|e].
    + destruct Hsel as [Htok _]. by rewrite (Hties _ _ Htop Htok).
    + destruct Hk as [_ ->]. lia.
  - destruct (argmax _) as [tok|e']; [|eauto].
    destruct Hk as [HkV _]. apply (f_equal length) in Hc.
    unfold tbuild in Hc. cbn [data length] in Hc.
    rewrite length_fmap, length_indices in Hc. simpl in Hc. lia.
Qed.

Lemma greedy_choice_inv self m s tok word :
  greedy_choice self m s = Ok (tok, word) →
  ∃ scores d, decoder self (row s) m None = Ok scores ∧
              getitem_0_all_last scores = Ok d ∧ argmax d = Ok tok ∧
              dict_get (i2w self) (Z.of_nat tok) = Ok word.
Proof.
  unfold greedy_choice.
  destruct (decoder self (row s) m None) as [scores|]; [|done]. rewrite bind_Ok.
  destruct (getitem_0_all_last scores) as [d|] eqn:Hd; [|done]. rewrite bind_Ok.
  destruct (argmax d) as [k|] eqn:Ha; [|done]. rewrite bind_Ok.
  destruct (dict_get _ _) as [wd|] eqn:Hw; [|done]. rewrite bind_Ok.
  intros [= <- <-]. by exists scores, d.
Qed.

Lemma argmax_selected (scores d : tensor Q) tok :
  getitem_0_all_last scores = Ok d → argmax d = Ok tok →
  argmax_of_last_position scores tok.
Proof.
  intros Hd Ha. pose proof (selection_is_argmax scores) as Hsel.
  by rewrite Hd, bind_Ok, Ha in Hsel.
Qed.

Lemma dict_get_Ok `{Countable K} {V} (d : gmap K V) k v :
  dict_get d k = Ok v → d !! k = Some v.
Proof. unfold dict_get. destruct (d !! k); [by intros [= <-]|done]. Qed.

(** The loop of the probability-recording variant runs the same machine. *)
Lemma decode_loop_prob_runs_machine (self : Transformer) (m : tensor real)
    n s out fed o s' out' :
  topk1_contract →
  (∀ tgt scores, decoder self tgt m None = Ok scores → no_tied_top scores) →
  sm_run self m n s out fed o s' out' →
  ∀ probs w, ∃ r,
    decode_loop_prob self m n (row s) out probs w =
      (set_events (events w ++ decoder_calls m fed) w, r) ∧
    match o with
    | Failed _ => ∃ e, r = Raise e
    | _ => ∃ ps, r = Ok (row s', out', probs ++ ps) ∧
                 length out' = length out + length ps ∧
                 ∀ j sj p, fed !! j = Some sj → ps !! j = Some p →
                   ∃ word, out' !! (length out + j) = Some word ∧
                           top1_score_of self m sj word p
    end.
Proof.
  intros Hc Hties.
  induction 1 as [s out|n s out tok Hg|n s out tok word fed o s' out' Hg Hne Hrun IH
                 |n s out e Hg]; intros probs w.
  - eexists. split.
    { simpl. rewrite run_ret. unfold decoder_calls. simpl.
      by rewrite set_events_nil. }
    exists []. rewrite app_nil_r. split; [done|]. split; [simpl; lia|].
    by intros j sj p _ [=].
  - destruct (greedy_choice_inv _ _ _ _ _ Hg) as (scores & d & Hdec & Hd & Ha & Hw).
    pose proof (topk1_selects_argmax scores d Hc (Hties _ _ Hdec) Hd) as Ht.
    rewrite Ha in Ht.
    eexists. split.
    { cbn [decode_loop_prob]. rewrite run_call_decoder_bind. cbn zeta.
      rewrite Hdec, run_lift_bind, Hd, run_lift_bind, Ht, run_lift_bind, Hw.
      rewrite decide_True by done. rewrite run_ret. done. }
    exists [last_score scores tok]. split; [done|].
    split; [rewrite length_app; simpl; lia|].
    intros [|j] sj p; simpl; [|done]. intros [= <-] [= <-].
    exists EOS_TOKEN. split.
    { rewrite Nat.add_0_r, lookup_app_r, Nat.sub_diag by lia. done. }
    exists scores, tok.
    split_and!; eauto using argmax_selected, dict_get_Ok.
  - destruct (greedy_choice_inv _ _ _ _ _ Hg) as (scores & d & Hdec & Hd & Ha & Hw).
    pose proof (topk1_selects_argmax scores d Hc (Hties _ _ Hdec) Hd) as Ht.
    rewrite Ha in Ht.
    destruct (IH (probs ++ [last_score scores tok])
                 (set_events (events w ++ [DecoderCall (row s) m None]) w))
      as (r & Hloop & Hr).
    exists r. split.
    { cbn [decode_loop_prob]. rewrite run_call_decoder_bind. cbn zeta.
      rewrite Hdec, run_lift_bind, Hd, run_lift_bind, Ht, run_lift_bind, Hw.
      rewrite decide_False by done. rewrite run_lift_bind.
      replace (unsqueeze 0 (Tensor [1] [Z.of_nat tok]))
        with (Ok (Tensor [1; 1] [Z.of_nat tok])) by done.
      rewrite run_lift_bind, cat_dim1_row, Hloop.
      by rewrite set_events_app. }
    pose proof (sm_run_shape _ _ _ _ _ _ _ _ _ Hrun)
      as (toks & words & _ & Hout & _).
    assert (∀ ps,
      r = Ok (row s', out', (probs ++ [last_score scores tok]) ++ ps) ∧
      length out' = length (out ++ [word]) + length ps ∧
      (∀ j sj p, fed !! j = Some sj → ps !! j = Some p →
         ∃ word0, out' !! (length (out ++ [word]) + j) = Some word0 ∧
                  top1_score_of self m sj word0 p) →
      r = Ok (row s', out', probs ++ last_score scores tok :: ps) ∧
      length out' = length out + length (last_score scores tok :: ps) ∧
      (∀ j sj p, (s :: fed) !! j = Some sj →
         (last_score scores tok :: ps) !! j = Some p →
         ∃ word0, out' !! (length out + j) = Some word0 ∧
                  top1_score_of self m sj word0 p)) as Hstep.
    { intros ps (-> & Hlen & Hps). rewrite <- app_assoc. split; [done|].
      rewrite length_app in Hlen, Hps. simpl in *. split; [lia|].
      intros [|j] sj p; simpl.
      - intros [= <-] [= <-]. exists word. split.
        + rewrite Hout, Nat.add_0_r, <- app_assoc. simpl.
          by rewrite lookup_app_r, Nat.sub_diag by lia.
        + exists scores, tok.
          split_and!; eauto using argmax_selected, dict_get_Ok.
      - intros Hj Hp. destruct (Hps j sj p Hj Hp) as (word0 & Hw0 & Hs0).
        exists word0. split; [|done].
        by replace (length out + S j) with (length out + 1 + j) by lia. }
    destruct o; [| |exact Hr].
    + destruct Hr as (ps & Hr). exists (last_score scores tok :: ps). eauto.
    + destruct Hr as (ps & Hr). exists (last_score scores tok :: ps). eauto.
  - assert (∃ e', decode_loop_prob self m (S n) (row s) out probs w =
                     (set_events (events w ++ decoder_calls m [s]) w, Raise e'))
      as [e' He']; [|eauto].
    cbn [decode_loop_prob]. rewrite run_call_decoder_bind. cbn zeta.
    unfold greedy_choice in Hg. unfold decoder_calls. simpl.
    destruct (decoder self (row s) m None) as [scores|e0] eqn:Hdec; [|eauto].
    rewrite bind_Ok in Hg. rewrite run_lift_bind.
    destruct (getitem_0_all_last scores) as [d|e0] eqn:Hd; [|eauto].
    rewrite bind_Ok in Hg. rewrite run_lift_bind.
    pose proof (topk1_selects_argmax scores d Hc (Hties _ _ Hdec) Hd) as Ht.
    destruct (argmax d) as [tok|e0].
    + rewrite bind_Ok in Hg. rewrite Ht, run_lift_bind.
      destruct (dict_get _ _) as [wd|e0]; [done|]. eauto.
    + destruct Ht as [e1 ->]. eauto.
Qed.


(** C7, as the code has it. Provided [topk(k=1)] returns a highest score and an index
    that holds it, and no answer of the decoder has two tokens tied for the
    highest score of the last position, the probability-recording variant run
    from the same state calls the decoder on the same sequences (so it stops
    at the same step) and either both loops raise or both return; when they
    return, the words are the same and there is one score per word, the
    [j]-th being the score of the argmax token in the decoder's answer to the
    [j]-th call, the token whose word is the [j]-th word. *)
Theorem prob_variant_same_words (self : Transformer) (x : tensor real)
    (w : world) :
  topk1_contract →
  (∀ tgt m scores, decoder self tgt m None = Ok scores → no_tied_top scores) →
  (get_pred_seq_and_pred_prob_seq self x w).1 =
    (autoregressive_decoding self x w).1 ∧
  match (get_pred_seq_and_pred_prob_seq self x w).2,
        (autoregressive_decoding self x w).2 with
  | Ok (yhat, yhat_prob), Ok (_, yhat') =>
      yhat = yhat' ∧ length yhat_prob = length yhat ∧
      ∃ m fed,
        (encode_memory self x w).2 = Ok m ∧
        events (get_pred_seq_and_pred_prob_seq self x w).1 =
          events w ++ decoder_calls m fed ∧
        length fed = length yhat ∧
        ∀ j s p, fed !! j = Some s → yhat_prob !! j = Some p →
          ∃ word, yhat !! j = Some word ∧ top1_score_of self m s word p
  | Raise _, Raise _ => True
  | _, _ => False
  end.
Proof.
  intros Hc Hties.
  unfold get_pred_seq_and_pred_prob_seq, autoregressive_decoding.
  rewrite !run_lift_bind. destruct (size_at x 0) as [b|]; [|done].
  case_decide; [|done]. rewrite !run_bind.
  pose proof (encode_memory_frame self x w) as (He & _).
  destruct (encode_memory self x w) as [w1 [m|]]; [|done]. simpl in He.
  rewrite !run_lift_bind, start_sequence_eq. unfold dict_get.
  destruct (w2i self !! SOS_TOKEN) as [sos|]; [|done].
  cbn [or_raise]. rewrite bind_Ok, run_bind.
  destruct (decode_loop_runs_machine self m (max_seq_len self) [sos] [])
    as (fed & o & s' & out' & Hrun & Hloop).
  destruct (decode_loop_prob_runs_machine self m _ _ _ _ _ _ _ Hc
              (λ tgt, Hties tgt m) Hrun [] w1) as (r & Hprob & Hr).
  rewrite Hloop, Hprob.
  destruct (sm_run_shape _ _ _ _ _ _ _ _ _ Hrun)
    as (toks & words & _ & Hout & _ & _ & _ & Ho).
  simpl in Hout. subst out'.
  destruct o.
  - destruct Hr as (ps & -> & Hlen & Hps). simpl in *.
    split; [done|]. split; [done|]. split; [lia|].
    exists m, fed. rewrite He. destruct Ho as (Hf & _). split_and!; try done.
  - destruct Hr as (ps & -> & Hlen & Hps). simpl in *.
    split; [done|]. split; [done|]. split; [lia|].
    exists m, fed. rewrite He. destruct Ho as (Hf & Hw & _).
    split_and!; try done. lia.
  - destruct Hr as [e' ->]. done.
Qed.

(** C8. In inference mode two runs of [validation_step] on the same input,
    by models with the same weights, from any two interpreter states (other
    random state, other accumulated predictions), end alike: both raise the
    same exception or both append the same prediction, of at most
    [max_seq_len] words; neither run draws from [random]. *)
Theorem greedy_decoding_deterministic (self1 self2 : Transformer)
    (x : tensor real) (y : tensor Z) (w1 w2 : world) :
  same_weights self1 self2 → training self1 = false →
  match (validation_step self1 x y w1).2, (validation_step self2 x y w2).2 with
  | Ok s1, Ok s2 =>
      ∃ yhat, YHat s1 = YHat self1 ++ [yhat] ∧ YHat s2 = YHat self2 ++ [yhat] ∧
              length yhat ≤ max_seq_len self1
  | Raise e1, Raise e2 => e1 = e2
  | _, _ => False
  end ∧
  rng (validation_step self1 x y w1).1 = rng w1 ∧
  rng (validation_step self2 x y w2).1 = rng w2.
Proof.
  intros Hsame Ht. rewrite !run_validation_step.
  unfold same_weights in Hsame. rewrite Hsame.
  rewrite autoregressive_decoding_same_weights.
  destruct (autoregressive_decoding_eval self1 x Ht) as (evs & r & Hrun & Hlen).
  rewrite !Hrun. cbn [ytest_i2w set_accumulators Y YHat].
  destruct r as [[y_in yhat]|e]; [|done].
  specialize (Hlen _ _ eq_refl).
  destruct (row0_tail y) as [toks|]; [|done]. rewrite !bind_Ok.
  destruct (list_comprehension _ _) as [truth|]; [|done]. simpl.
  split; [|done]. by exists yhat.
Qed.

End Decoding.

(* ================================================================== *)
(** * The epoch lifecycle and the constructor *)

Section Epoch.
Context `{env : Env}.

Lemma run_for_each_emit {A} (l : list A) (f : A → event) (w : world) :
  for_each l (λ a, emit (f a)) w = (set_events (events w ++ (f <$> l)) w, Ok ()).
Proof.
  revert w. induction l as [|a l IH]; intros w; simpl.
  - by rewrite set_events_nil.
  - rewrite run_emit_bind, IH. unfold set_events. simpl.
    by rewrite <- app_assoc.
Qed.

(** C5, at the input where the code fails it. With an empty ground-truth
    accumulator, [on_test_epoch_end] logs the metrics and then raises
    ValueError: [random.randint(0, len(self.Y) - 1)] is asked for a value
    between 0 and -1. The accumulators are not cleared by that call. *)
Theorem on_test_epoch_end_empty_raises (self : Transformer)
    (yhat : list (list string)) (w : world) :
  let self0 := set_accumulators [] yhat self in
  on_test_epoch_end self0 w =
    (set_events (events w ++ logged_metrics "test" self0) w, Raise ValueError).
Proof.
  cbn zeta. unfold on_test_epoch_end, on_validation_epoch_end.
  rewrite run_bind, run_for_each_emit.
  rewrite run_bind, run_bind. unfold py_randint. cbn [Y set_accumulators length].
  cbn [rng set_events].
  rewrite random_randint_empty by lia. done.
Qed.

Lemma Transformer_summary_ok (self : Transformer) (h wd : nat) (w : world) :
  ∃ evs r, Transformer_summary self h wd w = (set_events (events w ++ evs) w, r).
Proof.
  unfold Transformer_summary. rewrite !run_emit_bind.
  rewrite run_lift_bind. rewrite !set_events_app.
  destruct (ceil_div h HEIGHT_REDUCTION) as [a|]; [|eauto].
  rewrite run_lift_bind.
  destruct (ceil_div wd WIDTH_REDUCTION) as [b|]; [|eauto].
  unfold emit. rewrite set_events_app. eauto.
Qed.

(** What a constructed model looks like. *)
Lemma Transformer_init_fields h wd msl (w2i0 : gmap string Z)
    (i2w0 : gmap Z string) (yt : option (gmap Z string)) aw p w w' self :
  Transformer_init h wd msl w2i0 i2w0 yt aw p w = (w', Ok self) →
  w2i self = w2i0 ∧ i2w self = i2w0 ∧ ytest_i2w self = default i2w0 yt ∧
  w2i0 !! "<PAD>" = Some (padding_idx self) ∧
  max_seq_len self = msl ∧ teacher_forcing_prob self = p ∧
  Y self = [] ∧ YHat self = [] ∧ training self = true.
Proof.
  unfold Transformer_init. rewrite run_lift_bind. unfold dict_get.
  destruct (w2i0 !! "<PAD>") as [pad|]; [|done]. cbn [or_raise].
  rewrite run_lift_bind. destruct (ceil_div h _) as [a|]; [|done].
  rewrite run_lift_bind. destruct (ceil_div wd _) as [b|]; [|done].
  rewrite run_lift_bind. destruct (PositionalEncoding2D_init _ _ _ _) as [pos|]; [|done].
  rewrite run_bind.
  destruct (Transformer_summary _ _ _ w) as [w1 [[]|]]; [|done].
  rewrite run_ret. intros [= _ <-]. simpl. by destruct yt.
Qed.

Lemma validation_step_records self x y w w' self' :
  validation_step self x y w = (w', Ok self') →
  ∃ toks truth yhat,
    row0_tail y = Ok toks ∧
    list_comprehension (dict_get (ytest_i2w self)) toks = Ok truth ∧
    self' = set_accumulators (Y self ++ [truth]) (YHat self ++ [yhat]) self.
Proof.
  rewrite run_validation_step.
  destruct (autoregressive_decoding self x w) as [w1 [[y_in yhat]|]]; [|done].
  destruct (row0_tail y) as [toks|]; [|done]. rewrite bind_Ok.
  destruct (list_comprehension _ _) as [truth|] eqn:E; [|done].
  rewrite bind_Ok. intros [= _ <-]. by exists toks, truth, yhat.
Qed.

End Epoch.

(* ================================================================== *)
(** * Further properties of the positional table and the encoder side *)

Lemma describes_den_any (C : nat) :
  describes (tmap (λ e, RPow (RNum 10000) (RNum e)) (den_exponents C))
    [range_len 0 (C / 2) 2]
    (λ idx, RPow (RNum 10000)
              (RNum (den_exponent C (0 + default 0 (head idx) * 2)))).
Proof.
  split; [done|].
  intros idx (k & -> & Hk)%offset1_inv.
  unfold den_exponents. by rewrite !tget_tmap, tget_arange.
Qed.

Lemma expandable_last_mismatch (h w n k : nat) :
  n ≠ k → n ≠ 1 → expandable [h; w; n] [h; w; k] = false.
Proof.
  intros Hnk Hn1. unfold expandable. simpl.
  rewrite (bool_decide_false (n = k ∨ n = 1)) by lia.
  by rewrite !andb_false_r.
Qed.

(** X1. For every channel count [4 m + 6] (even, with an odd half) and
    every positive maximal height and width the constructor raises
    RuntimeError: the cosine block [1 : C/2 : 2] has one channel less than
    there are denominators. *)
Theorem positional_table_rejects_odd_half (m H W : nat) :
  0 < H → 0 < W →
  PositionalEncoding2D_table (4 * S m + 2) H W = Raise RuntimeError.
Proof.
  intros _ _.
  set (C := 4 * S m + 2).
  assert (C / 2 = 2 * S m + 1) as Hhalf by (unfold C; lia).
  destruct (unsqueeze_1_of_1 _ _ _ (describes_arange H)) as (pos_h & Eh & Dh).
  destruct (unsqueeze_1_of_1 _ _ _ (describes_arange W)) as (pos_w & Ew & Dw).
  unfold PositionalEncoding2D_table. rewrite Eh, Ew, !bind_Ok.
  destruct (tmap2_col_row RDiv _ _ _ _ _ _
              (describes_tmap RNat _ _ _ Dw) (describes_den_any C))
    as (a_w & Eaw & Daw).
  rewrite Eaw, bind_Ok.
  assert (range_len 0 (C / 2) 2 = S (S m)) as Hn
    by (rewrite Hhalf; unfold range_len; lia).
  rewrite Hn in Daw.
  destruct (unsqueeze_0_of_2 _ _ _ _ (describes_tmap RSin _ _ _ Daw))
    as (v1 & E1 & D1).
  destruct (repeat_3 _ _ _ _ H 1 1 _ D1) as (r1 & R1 & DR1).
  rewrite Nat.mul_1_l, !Nat.mul_1_r in DR1.
  destruct (setitem_0_slice_2 _ r1 0 (Some (C / 2)) _ _ _ _ _ _
              (describes_tbuild [1; H; W; C] (λ _, RNum 0)) DR1)
    as (pe1 & P1 & DP1).
  { cbn [default]. unfold id, range_len. lia. }
  rewrite E1, bind_Ok, R1, bind_Ok. unfold tfull. rewrite P1, bind_Ok.
  destruct (unsqueeze_0_of_2 _ _ _ _ (describes_tmap RCos _ _ _ Daw))
    as (v2 & E2 & D2).
  destruct (repeat_3 _ _ _ _ H 1 1 _ D2) as (r2 & R2 & [Hs2 _]).
  rewrite Nat.mul_1_l, !Nat.mul_1_r in Hs2.
  rewrite E2, bind_Ok, R2, bind_Ok.
  destruct DP1 as [Hs1 _].
  assert (setitem_0_slice pe1 1 (Some (C / 2)) 2 r2 = Raise RuntimeError) as ->;
    [|done].
  unfold setitem_0_slice. rewrite Hs1. rewrite decide_True by lia.
  unfold slice_bounds, expand. rewrite Hs2.
  rewrite expandable_last_mismatch; [done| |lia].
  cbn [default]. unfold id, range_len. lia.
Qed.

Lemma broadcast_shapes_batch (B C h w : nat) :
  broadcast_shapes [B; C; h; w] [1; C; h; w] = Some [B; C; h; w].
Proof.
  unfold broadcast_shapes. simpl.
  repeat (case_decide; simpl; try done); by subst.
Qed.

Lemma expandable_batch (B C h w : nat) :
  expandable [1; C; h; w] [B; C; h; w] = true.
Proof. unfold expandable. simpl. rewrite !bool_decide_true; auto. Qed.


Section Forward.
Context `{env : Env}.

(** Adding the table slice to a grid that fits under the table. *)
Lemma add_table_slice (table x : tensor real) (B C h w H W : nat) :
  shape x = [B; C; h; w] → wf x →
  shape table = [1; C; H; W] → wf table → h ≤ H → w ≤ W →
  ∃ x', (p ← getitem_hw table h w; tmap2 RAdd x p) = Ok x' ∧
        shape x' = [B; C; h; w] ∧ wf x' ∧
        ∀ b c i j, b < B → c < C → i < h → j < w →
          ∃ u v, tget x [b; c; i; j] = Some u ∧
                 tget table [0; c; i; j] = Some v ∧
                 tget x' [b; c; i; j] = Some (RAdd u v).
Proof.
  intros Hx Hwx Ht Hwt Hh Hw.
  unfold getitem_hw. rewrite Ht, bind_Ok.
  rewrite !Nat.min_l by done.
  rewrite (tmap2_ok RAdd x _ [B; C; h; w]).
  - eexists. split; [done|]. split; [done|]. split; [apply wf_tbuild|].
    intros b c i j Hb Hc Hi Hj.
    destruct (tget_is_Some x [b; c; i; j] Hwx) as [u Hu];
      [rewrite Hx; in_bounds|].
    destruct (tget_is_Some table [0; c; i; j] Hwt) as [v Hv];
      [rewrite Ht; in_bounds|].
    exists u, v. split; [done|]. split; [done|].
    rewrite tget_tbuild by in_bounds. f_equal.
    rewrite Hx. cbn [shape tbuild].
    rewrite source_index_same by in_bounds.
    unfold source_index. simpl.
    replace (if decide (C = 1) is left _ then 0 else c) with c
      by (case_decide; lia).
    replace (if decide (h = 1) is left _ then 0 else i) with i
      by (case_decide; lia).
    replace (if decide (w = 1) is left _ then 0 else j) with j
      by (case_decide; lia).
    rewrite tget_d_tbuild by in_bounds.
    unfold tget_d. by rewrite Hu, Hv.
  - rewrite Hx. apply broadcast_shapes_batch.
  - rewrite Hx. apply expandable_same.
  - apply expandable_batch.
Qed.

(** X2. In inference mode [PositionalEncoding2D.forward] returns, for a
    grid [B, C, h, w] that fits under the table [1, C, H, W], a grid of the
    same shape whose entry at [b, c, i, j] is the sum of the grid's entry
    and the table's entry at [0, c, i, j]; the interpreter state is left as
    it was. *)
Theorem positional_encoding_forward_adds (self : PositionalEncoding2D)
    (x : tensor real) (B C h w H W : nat) (wd : world) :
  shape x = [B; C; h; w] → wf x →
  shape (pe self) = [1; C; H; W] → wf (pe self) → h ≤ H → w ≤ W →
  ∃ x', PositionalEncoding2D_forward self false x wd = (wd, Ok x') ∧
        shape x' = [B; C; h; w] ∧
        ∀ b c i j, b < B → c < C → i < h → j < w →
          ∃ u v, tget x [b; c; i; j] = Some u ∧
                 tget (pe self) [0; c; i; j] = Some v ∧
                 tget x' [b; c; i; j] = Some (RAdd u v).
Proof.
  intros Hx Hwx Ht Hwt Hh Hw.
  destruct (add_table_slice (pe self) x B C h w H W) as (x' & E & Hs & _ & Hg);
    try done.
  exists x'. split; [|done].
  unfold PositionalEncoding2D_forward, size_at. rewrite Hx. simpl.
  rewrite !run_lift_bind.
  destruct (getitem_hw (pe self) h w) as [p|]; [|done].
  rewrite bind_Ok in E. rewrite run_lift_bind, E. done.
Qed.

(** X3. A grid higher than a table of height at least two, or wider than
    a table of width at least two, makes [PositionalEncoding2D.forward]
    raise RuntimeError (the addition cannot broadcast; the slice itself
    never raises), in either mode and before anything else happens. *)
Theorem positional_encoding_forward_too_large (self : PositionalEncoding2D)
    (training : bool) (x : tensor real) (B C C' h w H W : nat) (wd : world) :
  shape x = [B; C; h; w] → shape (pe self) = [1; C'; H; W] →
  1 < H < h ∨ 1 < W < w →
  PositionalEncoding2D_forward self training x wd = (wd, Raise RuntimeError).
Proof.
  intros Hx Ht Hbig.
  unfold PositionalEncoding2D_forward, size_at. rewrite Hx. simpl.
  rewrite !run_lift_bind. unfold getitem_hw. rewrite Ht.
  rewrite run_lift_bind. unfold tmap2. rewrite Hx. cbn [shape tbuild].
  unfold broadcast_shapes. simpl.
  destruct Hbig as [[? ?]|[? ?]];
    repeat (case_decide; simpl; try done; try lia).
Qed.

End Forward.

(** The layout of the flattened features, for use in compositions. *)
Lemma flatten_features_layout (x : tensor real) (B C H W : nat) :
  shape x = [B; C; H; W] → wf x →
  ∃ m, flatten_features x = Ok m ∧ shape m = [B; H * W; C] ∧
       ∀ b c h w, b < B → c < C → h < H → w < W →
         tget m [b; h * W + w; c] = tget x [b; c; h; w].
Proof.
  intros Hsh Hwf. destruct x as [sh d]. simpl in Hsh. subst sh.
  unfold flatten_features, flatten, ndim. simpl shape.
  rewrite decide_True by (simpl; lia). rewrite bind_Ok.
  unfold permute, ndim. simpl shape.
  replace (bool_decide _ && is_permutation _) with true by done.
  eexists. split; [done|]. split; [simpl; do 2 f_equal; lia|].
  intros b c h w Hb Hc Hh Hw.
  destruct (tget_is_Some (Tensor [B; C; H; W] d) [b; c; h; w] Hwf) as [v Hv];
    [in_bounds|].
  rewrite tget_tbuild by (simpl; in_bounds).
  unfold tget_d. simpl.
  erewrite (tget_same_offset _ [B; C; H; W] d _ [b; c; h; w]).
  - by rewrite Hv.
  - offset_eval. reflexivity.
  - offset_eval. f_equal. ring.
Qed.

Section Memory.
Context `{env : Env}.

(** X4. In inference mode, when the encoder returns a grid [B, C, h, w]
    that fits under the table, the memory handed to the decoder has shape
    [B, h*w, C] and its entry at position [i*w + j], channel [c], is the sum
    of the encoder's entry and the table's entry for row [i], column [j];
    the interpreter state is left as it was. *)
Theorem encode_memory_layout (self : Transformer) (x g : tensor real)
    (B C h w H W : nat) (wd : world) :
  training self = false → encoder self x = Ok g →
  shape g = [B; C; h; w] → wf g →
  shape (pe (pos_2d self)) = [1; C; H; W] → wf (pe (pos_2d self)) →
  h ≤ H → w ≤ W →
  ∃ m, encode_memory self x wd = (wd, Ok m) ∧ shape m = [B; h * w; C] ∧
       ∀ b c i j, b < B → c < C → i < h → j < w →
         ∃ u v, tget g [b; c; i; j] = Some u ∧
                tget (pe (pos_2d self)) [0; c; i; j] = Some v ∧
                tget m [b; i * w + j; c] = Some (RAdd u v).
Proof.
  intros Ht Henc Hg Hwg Hp Hwp Hh Hw.
  destruct (add_table_slice (pe (pos_2d self)) g B C h w H W)
    as (x' & E & Hs & Hwf & Hget); try done.
  destruct (flatten_features_layout x' B C h w Hs Hwf) as (m & Em & Hm & Hflat).
  exists m. split; [|split; [done|]].
  - rewrite encode_memory_eval by done. unfold memory_in_eval.
    rewrite Henc, bind_Ok. unfold size_at. rewrite Hg. simpl.
    destruct (getitem_hw _ h w) as [p|]; [|done].
    rewrite !bind_Ok in *. rewrite E, bind_Ok. by rewrite Em.
  - intros b c i j Hb Hc Hi Hj.
    destruct (Hget b c i j) as (u & v & Hu & Hv & Hx'); try done.
    exists u, v. split; [done|]. split; [done|].
    by rewrite Hflat.
Qed.

End Memory.

Lemma indices_offset (sh : list nat) : ∀ o idx,
  indices sh !! o = Some idx → offset sh idx = Some o.
Proof.
  induction sh as [|n sh IH]; intros o idx Hlook.
  - destruct o; simpl in Hlook; [|done]. by injection Hlook as <-.
  - pose proof (lookup_lt_Some _ _ _ Hlook) as Hlt.
    rewrite length_indices in Hlt. simpl in Hlt.
    rewrite <- (length_indices sh) in Hlt.
    set (N := length (indices sh)) in *.
    assert (0 < N) as HN by (destruct N; lia).
    assert (o = o / N * N + o `mod` N) as Ho
      by (rewrite Nat.mul_comm; apply Nat.div_mod_eq).
    assert (o / N < n) as Hk by (apply Nat.Div0.div_lt_upper_bound; lia).
    assert (o `mod` N < N) as Hm by (apply Nat.mod_upper_bound; lia).
    simpl in Hlook. rewrite Ho in Hlook.
    rewrite (bind_seq_lookup (indices sh) (λ i l, i :: l)) in Hlook by done.
    destruct (indices sh !! (o `mod` N)) as [idx'|] eqn:E; [|done].
    simpl in Hlook. injection Hlook as <-.
    simpl. rewrite decide_True by done. rewrite (IH _ _ E). simpl.
    f_equal. fold N in Ho. rewrite <- (length_indices sh). fold N. lia.
Qed.

Lemma tensor_as_tbuild {A} `{Inhabited A} (t : tensor A) :
  wf t → t = tbuild (shape t) (tget_d t).
Proof.
  intros Hwf. destruct t as [sh d]. unfold tbuild. simpl. f_equal.
  unfold wf in Hwf. simpl in Hwf.
  apply list_eq. intros o. rewrite list_lookup_fmap.
  destruct (decide (o < numel sh)) as [Ho|Ho].
  - destruct (lookup_lt_is_Some_2 (indices sh) o) as [idx Hidx];
      [by rewrite length_indices|].
    destruct (lookup_lt_is_Some_2 d o) as [v Hv]; [lia|].
    rewrite Hidx, Hv. simpl. unfold tget_d, tget. simpl.
    rewrite (indices_offset _ _ _ Hidx). simpl. by rewrite Hv.
  - rewrite !lookup_ge_None_2; [done| |lia].
    rewrite length_indices. lia.
Qed.

Lemma tbuild_ext {A} (sh : list nat) (f g : list nat → A) :
  (∀ idx, is_Some (offset sh idx) → f idx = g idx) → tbuild sh f = tbuild sh g.
Proof.
  intros Hfg. unfold tbuild. f_equal. apply list_eq. intros o.
  rewrite !list_lookup_fmap.
  destruct (indices sh !! o) as [idx|] eqn:E; [|done]. simpl. f_equal.
  apply Hfg. rewrite (indices_offset _ _ _ E). eauto.
Qed.

(** X16. The flattening step loses nothing: two well-formed grids of the
    same shape [B, C, H, W] with the same flattened features are equal. *)
Theorem flatten_features_injective (x x' : tensor real) (B C H W : nat) :
  shape x = [B; C; H; W] → wf x → shape x' = [B; C; H; W] → wf x' →
  flatten_features x = flatten_features x' → x = x'.
Proof.
  intros Hs Hwf Hs' Hwf' Heq.
  destruct (flatten_features_layout x B C H W Hs Hwf) as (m & Em & _ & Hm).
  destruct (flatten_features_layout x' B C H W Hs' Hwf') as (m' & Em' & _ & Hm').
  assert (m = m') as <- by congruence.
  rewrite (tensor_as_tbuild x Hwf), (tensor_as_tbuild x' Hwf'), Hs, Hs'.
  apply tbuild_ext.
  intros idx (b & c & h & w & -> & Hb & Hc & Hh & Hw)%offset4_inv.
  unfold tget_d. by rewrite <- Hm, <- Hm'.
Qed.

(* ================================================================== *)
(** * Further properties of construction, steps and epoch ends *)

Section Construction.
Context `{env : Env}.

Lemma ceil_div_pos (a b : nat) :
  0 < b → ceil_div a b = Ok ((a + (b - 1)) / b).
Proof. intros Hb. unfold ceil_div. by rewrite decide_False by lia. Qed.

(** X5. With "<PAD>" in the vocabulary and non-zero reduction factors the
    constructor returns: it prints the two summaries, takes the padding
    index from the vocabulary, starts with empty accumulators, and holds a
    well-formed positional table of shape
    [1, 256, ceil(height / HEIGHT_REDUCTION), ceil(width / WIDTH_REDUCTION)]. *)
Theorem Transformer_init_succeeds (h wd msl : nat) (w2i0 : gmap string Z)
    (i2w0 : gmap Z string) (yt : option (gmap Z string)) (aw : Z) (p : Q)
    (pad : Z) (w : world) :
  w2i0 !! "<PAD>" = Some pad → 0 < HEIGHT_REDUCTION → 0 < WIDTH_REDUCTION →
  ∃ self,
    Transformer_init h wd msl w2i0 i2w0 yt aw p w =
      (set_events (events w ++ summary_events h wd msl) w, Ok self) ∧
    padding_idx self = pad ∧ w2i self = w2i0 ∧ i2w self = i2w0 ∧
    ytest_i2w self = default i2w0 yt ∧
    Y self = [] ∧ YHat self = [] ∧
    shape (pe (pos_2d self)) =
      [1; 256; (h + (HEIGHT_REDUCTION - 1)) / HEIGHT_REDUCTION;
               (wd + (WIDTH_REDUCTION - 1)) / WIDTH_REDUCTION] ∧
    wf (pe (pos_2d self)).
Proof.
  intros Hpad Hh Hw.
  unfold Transformer_init, dict_get. rewrite Hpad. cbn [or_raise].
  rewrite !ceil_div_pos by done. do 3 rewrite run_lift_bind.
  set (H := (h + (HEIGHT_REDUCTION - 1)) / HEIGHT_REDUCTION).
  set (W := (wd + (WIDTH_REDUCTION - 1)) / WIDTH_REDUCTION).
  destruct (table_ok 64 H W 256 eq_refl) as (tbl & Et & Hs & _).
  assert (wf tbl) as Hwf.
  { unfold PositionalEncoding2D_table in Et.
    repeat match type of Et with
    | (?c ≫= _) = Ok _ => destruct c; [rewrite bind_Ok in Et|done]
    end.
    unfold permute in Et. destruct (_ && _); [|done].
    injection Et as <-. apply wf_tbuild. }
  unfold PositionalEncoding2D_init. rewrite Et, bind_Ok.
  rewrite run_lift_bind, run_bind.
  unfold Transformer_summary. rewrite !run_emit_bind.
  rewrite !ceil_div_pos by done. rewrite !run_lift_bind, !set_events_app.
  unfold emit. rewrite set_events_app. rewrite run_ret.
  eexists. split; [reflexivity|]. simpl. by destruct yt.
Qed.

(** X6. The constructor raises KeyError when the vocabulary has no
    "<PAD>": the lookup comes first, so no summary has been printed and the
    interpreter state is left as it was. *)
Theorem Transformer_init_fails (h wd msl : nat) (w2i0 : gmap string Z)
    (i2w0 : gmap Z string) (yt : option (gmap Z string)) (aw : Z) (p : Q)
    (w : world) :
  w2i0 !! "<PAD>" = None →
  Transformer_init h wd msl w2i0 i2w0 yt aw p w = (w, Raise KeyError).
Proof.
  intros Hpad. unfold Transformer_init, dict_get. rewrite Hpad.
  rewrite run_lift_bind. reflexivity.
Qed.

End Construction.

Section Lifecycle.
Context `{env : Env}.

Lemma run_on_validation_epoch_end_quiet (self : Transformer) (name : string)
    (w : world) :
  on_validation_epoch_end self name false w =
    (set_events (events w ++ logged_metrics name self) w,
     Ok (set_accumulators [] [] self, compute_metrics (Y self) (YHat self))).
Proof.
  unfold on_validation_epoch_end. rewrite run_bind, run_for_each_emit.
  by rewrite run_bind, !run_ret.
Qed.

Lemma on_validation_epoch_end_result self name display w w' s' metrics :
  on_validation_epoch_end self name display w = (w', Ok (s', metrics)) →
  s' = set_accumulators [] [] self ∧
  metrics = compute_metrics (Y self) (YHat self).
Proof.
  unfold on_validation_epoch_end. rewrite run_bind, run_for_each_emit.
  rewrite run_bind.
  match goal with |- context [match ?c with _ => _ end] =>
    destruct c as [w1 [[]|]]; [|done] end.
  rewrite run_ret. by intros [= _ <- <-].
Qed.

(** X7. Without the sample display (the validation default) the epoch end
    always returns: it logs every metric under [name_key], returns the
    metrics of the accumulated lists, clears both accumulators, and draws
    nothing from [random]. *)
Theorem validation_epoch_end_completes (self : Transformer) (name : string)
    (w : world) :
  ∃ w',
    on_validation_epoch_end self name false w =
      (w', Ok (set_accumulators [] [] self,
               compute_metrics (Y self) (YHat self))) ∧
    events w' = events w ++
      ((λ kv, Logged (name +:+ "_" +:+ kv.1) kv.2)
         <$> compute_metrics (Y self) (YHat self)) ∧
    rng w' = rng w ∧ heap w' = heap w ∧ gen w' = gen w.
Proof.
  eexists. split; [apply run_on_validation_epoch_end_quiet|]. done.
Qed.

(** X8. With non-empty accumulators of equal length the test epoch end
    returns: it draws one index in range, prints the ground truth and the
    prediction at that same index after the logged metrics, and clears both
    accumulators. *)
Theorem test_epoch_end_displays_a_pair (self : Transformer) (w : world) :
  Y self ≠ [] → length (Y self) = length (YHat self) →
  ∃ index r' y yhat,
    random_randint 0 (Z.of_nat (length (Y self)) - 1) (rng w) = Some (index, r') ∧
    Y self !! Z.to_nat index = Some y ∧
    YHat self !! Z.to_nat index = Some yhat ∧
    on_test_epoch_end self w =
      (World (heap w) r' (gen w)
         (events w ++ logged_metrics "test" self ++
          [Printed "Ground truth - " (Some y);
           Printed "Prediction - " (Some yhat)]),
       Ok (set_accumulators [] [] self,
           compute_metrics (Y self) (YHat self))).
Proof.
  intros Hne Hlen.
  assert (0 < length (Y self)) as Hpos by (destruct (Y self); simpl; [done|lia]).
  destruct (random_randint_range 0 (Z.of_nat (length (Y self)) - 1) (rng w))
    as (index & r' & Hdraw & Hrange); [lia|].
  destruct (lookup_lt_is_Some_2 (Y self) (Z.to_nat index)) as [y Hy]; [lia|].
  destruct (lookup_lt_is_Some_2 (YHat self) (Z.to_nat index)) as [yhat Hyhat];
    [lia|].
  exists index, r', y, yhat. split_and!; try done.
  unfold on_test_epoch_end, on_validation_epoch_end.
  rewrite run_bind, run_for_each_emit. rewrite run_bind, run_bind.
  unfold py_randint. cbn [rng set_events]. rewrite Hdraw.
  rewrite run_lift_bind. unfold list_getitem at 1.
  rewrite decide_True by lia. rewrite Hy. cbn [or_raise].
  rewrite run_emit_bind, run_lift_bind. unfold list_getitem.
  rewrite decide_True by lia. rewrite Hyhat. cbn [or_raise].
  unfold emit. rewrite run_ret. unfold set_events, set_rng. simpl.
  by rewrite <- !app_assoc.
Qed.

(** X9. Given a batch whose first axis is not 1, [validation_step] and
    [get_pred_seq_and_pred_prob_seq] raise AssertionError before the encoder
    or the decoder is called; the interpreter state is left as it was. *)
Theorem inference_requires_single_sample (self : Transformer)
    (x : tensor real) (y : tensor Z) (b : nat) (rest : list nat) (w : world) :
  shape x = b :: rest → b ≠ 1 →
  validation_step self x y w = (w, Raise AssertionError) ∧
  get_pred_seq_and_pred_prob_seq self x w = (w, Raise AssertionError).
Proof.
  intros Hx Hb. split.
  - rewrite run_validation_step. unfold autoregressive_decoding, size_at.
    rewrite Hx. simpl. rewrite run_lift_bind. by rewrite decide_False.
  - unfold get_pred_seq_and_pred_prob_seq, size_at. rewrite Hx. simpl.
    rewrite run_lift_bind. by rewrite decide_False.
Qed.

Lemma evolves_same_weights (s0 s : Transformer) :
  evolves s0 s →
  s = set_accumulators (Y s) (YHat s) s0 ∧
  (length (Y s0) = length (YHat s0) → length (Y s) = length (YHat s)).
Proof.
  induction 1 as [|s s' x y w w' _ [IH1 IH2] Hstep
                  |s s' x y w w' _ [IH1 IH2] Hstep
                  |s s' name d m w w' _ [IH1 IH2] Hend
                  |s s' m w w' _ [IH1 IH2] Hend].
  - split; [by destruct s0|done].
  - destruct (validation_step_records _ _ _ _ _ _ Hstep)
      as (toks & truth & yhat & _ & _ & ->).
    split; [rewrite IH1; reflexivity|]. intros H0. simpl.
    rewrite !length_app. simpl. rewrite IH2; done.
  - destruct (validation_step_records _ _ _ _ _ _ Hstep)
      as (toks & truth & yhat & _ & _ & ->).
    split; [rewrite IH1; reflexivity|]. intros H0. simpl.
    rewrite !length_app. simpl. rewrite IH2; done.
  - destruct (on_validation_epoch_end_result _ _ _ _ _ _ _ Hend) as [-> _].
    split; [rewrite IH1; reflexivity|done].
  - unfold on_test_epoch_end in Hend.
    destruct (on_validation_epoch_end_result _ _ _ _ _ _ _ Hend) as [-> _].
    split; [rewrite IH1; reflexivity|done].
Qed.

(** X10. From construction on, through any sequence of validation and
    test steps and epoch ends that returned, the two accumulators have the
    same length, and the vocabularies, the padding index, the length bound
    and the positional table are those of the constructed model. *)
Theorem accumulators_stay_parallel (h wd msl : nat) (w2i0 : gmap string Z)
    (i2w0 : gmap Z string) (yt : option (gmap Z string)) (aw : Z) (p : Q)
    (w w' : world) (s0 s : Transformer) :
  Transformer_init h wd msl w2i0 i2w0 yt aw p w = (w', Ok s0) →
  evolves s0 s →
  length (Y s) = length (YHat s) ∧
  w2i s = w2i0 ∧ i2w s = i2w0 ∧ ytest_i2w s = default i2w0 yt ∧
  padding_idx s = padding_idx s0 ∧ max_seq_len s = msl ∧
  pos_2d s = pos_2d s0.
Proof.
  intros Hinit Hev.
  destruct (Transformer_init_fields _ _ _ _ _ _ _ _ _ _ _ Hinit)
    as (Hw & Hi & Hy & _ & Hm & _ & HY & HYH & _).
  destruct (evolves_same_weights _ _ Hev) as [-> Hlen].
  split; [apply Hlen; by rewrite HY, HYH|]. done.
Qed.

End Lifecycle.

Section Predictions.
Context `{env : Env}.

Lemma greedy_choice_word self x s tok word :
  greedy_choice self x s = Ok (tok, word) →
  i2w self !! Z.of_nat tok = Some word.
Proof.
  unfold greedy_choice.
  destruct (decoder self (row s) x None) as [o1|]; [|done]. rewrite bind_Ok.
  destruct (getitem_0_all_last o1) as [d|]; [|done]. rewrite bind_Ok.
  destruct (argmax d) as [tk|]; [|done]. rewrite bind_Ok.
  unfold dict_get. destruct (i2w self !! Z.of_nat tk) as [wd|] eqn:E; [|done].
  simpl. by intros [= <- <-].
Qed.

Lemma sm_run_words self x n s out fed o s' out' :
  sm_run self x n s out fed o s' out' →
  ∀ word, word ∈ out' → word ∈ out ∨ ∃ tok, i2w self !! tok = Some word.
Proof.
  induction 1 as [s out|n s out tok Hg|n s out tok word fed o s' out' Hg Hne Hrun IH
                 |n s out e Hg]; intros wd Hin.
  - by left.
  - apply elem_of_app in Hin as [?|Hin]; [by left|].
    apply list_elem_of_singleton in Hin as ->. right.
    eauto using greedy_choice_word.
  - destruct (IH wd Hin) as [Hin'|?]; [|by right].
    apply elem_of_app in Hin' as [?|Hin']; [by left|].
    apply list_elem_of_singleton in Hin' as ->. right.
    eauto using greedy_choice_word.
  - by left.
Qed.

Lemma list_comprehension_Forall2 {A B} (f : A → result B) l bs :
  list_comprehension f l = Ok bs → Forall2 (λ a b, f a = Ok b) l bs.
Proof.
  revert bs. induction l as [|a l IH]; intros bs; simpl.
  - intros [= <-]. constructor.
  - destruct (f a) as [b|] eqn:E; [|done]. rewrite bind_Ok.
    destruct (list_comprehension f l) as [bs'|]; [|done]. rewrite bind_Ok.
    intros [= <-]. constructor; eauto.
Qed.

(** X12. A [validation_step] that returns has appended exactly one entry
    to each accumulator and changed nothing else of the model: the ground
    truth is [y[0][1:]] decoded token by token with the evaluation
    vocabulary; the prediction has at most [max_seq_len] words, every one a
    word of the model's vocabulary, with the end marker at most in the last
    place. *)
Theorem validation_step_records_pair (self self' : Transformer)
    (x : tensor real) (y : tensor Z) (w w' : world) :
  validation_step self x y w = (w', Ok self') →
  ∃ toks truth yhat,
    self' = set_accumulators (Y self ++ [truth]) (YHat self ++ [yhat]) self ∧
    row0_tail y = Ok toks ∧
    Forall2 (λ tok word, ytest_i2w self !! tok = Some word) toks truth ∧
    length yhat ≤ max_seq_len self ∧
    (∀ word, word ∈ yhat → ∃ tok, i2w self !! tok = Some word) ∧
    (∀ j word, yhat !! j = Some word → S j < length yhat → word ≠ EOS_TOKEN).
Proof.
  rewrite run_validation_step.
  destruct (autoregressive_decoding_cases self x w)
    as [(e & w1 & -> & _)|(m & sos & w1 & fed & o & s' & out' & _ & _ & Hrun & ->)];
    [done|].
  destruct o; simpl; [| |done].
  - destruct (row0_tail y) as [toks|]; [|done]. rewrite bind_Ok.
    destruct (list_comprehension _ _) as [truth|] eqn:E; [|done].
    rewrite bind_Ok. intros [= _ <-].
    destruct (sm_run_shape _ _ _ _ _ _ _ _ _ Hrun)
      as (tk & words & _ & Hout & _ & Hlen & _ & (_ & _ & _ & Heos)).
    simpl in Hout. subst out'.
    exists toks, truth, words. split_and!; try done.
    + apply list_comprehension_Forall2 in E.
      eapply Forall2_impl; [done|]. unfold dict_get. intros tok wd.
      by destruct (_ !! _); intros [= <-].
    + intros wd Hin. destruct (sm_run_words _ _ _ _ _ _ _ _ _ Hrun wd Hin)
        as [Hnil|?]; [|done]. by apply elem_of_nil in Hnil.
  - destruct (row0_tail y) as [toks|]; [|done]. rewrite bind_Ok.
    destruct (list_comprehension _ _) as [truth|] eqn:E; [|done].
    rewrite bind_Ok. intros [= _ <-].
    destruct (sm_run_shape _ _ _ _ _ _ _ _ _ Hrun)
      as (tk & words & _ & Hout & _ & Hlen & _ & (_ & _ & _ & Hno)).
    simpl in Hout. subst out'.
    exists toks, truth, words. split_and!; try done.
    + apply list_comprehension_Forall2 in E.
      eapply Forall2_impl; [done|]. unfold dict_get. intros tok wd.
      by destruct (_ !! _); intros [= <-].
    + intros wd Hin. destruct (sm_run_words _ _ _ _ _ _ _ _ _ Hrun wd Hin)
        as [Hnil|?]; [|done]. by apply elem_of_nil in Hnil.
    + intros j wd Hj _ ->. apply Hno. by eapply list_elem_of_lookup_2.
Qed.

(** X13. [validation_step], whether it returns or raises, writes no
    tensor and draws nothing from [random]; in inference mode it does not
    touch the torch generator either. *)
Theorem validation_step_frame (self : Transformer) (x : tensor real)
    (y : tensor Z) (w : world) :
  heap (validation_step self x y w).1 = heap w ∧
  rng (validation_step self x y w).1 = rng w ∧
  (training self = false → gen (validation_step self x y w).1 = gen w).
Proof.
  rewrite run_validation_step. split_and!.
  - destruct (autoregressive_decoding_cases self x w)
      as [(e & w1 & -> & _ & _ & Hh)|(m & sos & w1 & fed & o & s' & out' & Hm & _ & _ & ->)];
      [done|].
    pose proof (encode_memory_frame self x w) as (_ & _ & Hh).
    rewrite Hm in Hh. by destruct (result_of o s' out') as [[? ?]|].
  - destruct (autoregressive_decoding_cases self x w)
      as [(e & w1 & -> & _ & Hr & _)|(m & sos & w1 & fed & o & s' & out' & Hm & _ & _ & ->)];
      [done|].
    pose proof (encode_memory_frame self x w) as (_ & Hr & _).
    rewrite Hm in Hr. by destruct (result_of o s' out') as [[? ?]|].
  - intros Ht.
    destruct (autoregressive_decoding_eval self x Ht) as (evs & r & -> & _).
    by destruct r as [[? ?]|].
Qed.

Lemma decode_loop_prob_lengths (self : Transformer) (x : tensor real) (n : nat) :
  ∀ y_in yhat probs w w' y' yhat' probs',
    decode_loop_prob self x n y_in yhat probs w = (w', Ok (y', yhat', probs')) →
    length probs = length yhat →
    length probs' = length yhat' ∧ length yhat' ≤ length yhat + n.
Proof.
  induction n as [|n IH]; intros y_in yhat probs w w' y' yhat' probs'.
  - simpl. rewrite run_ret. intros [= _ <- <- <-] Hlen. lia.
  - cbn [decode_loop_prob]. rewrite run_call_decoder_bind. cbn zeta.
    destruct (decoder self y_in x None) as [o1|]; [|done].
    rewrite run_lift_bind. destruct (getitem_0_all_last o1) as [d|]; [|done].
    rewrite run_lift_bind. destruct (torch_topk1 d) as [[pr tk]|]; [|done].
    rewrite run_lift_bind. destruct (dict_get _ _) as [wd|]; [|done].
    case_decide.
    + rewrite run_ret. intros [= _ <- <- <-] Hlen. rewrite !length_app. simpl. lia.
    + rewrite run_lift_bind. destruct (unsqueeze 0 _) as [tk'|]; [|done].
      rewrite run_lift_bind. destruct (cat_dim1 _ _) as [y''|]; [|done].
      intros Hrun Hlen. apply IH in Hrun.
      * rewrite length_app in Hrun. simpl in Hrun. lia.
      * rewrite !length_app. simpl. lia.
Qed.

(** X14. Whatever [topk] answers, when [get_pred_seq_and_pred_prob_seq]
    returns it returns as many scores as words, at most [max_seq_len]. *)
Theorem pred_prob_seq_lengths (self : Transformer) (x : tensor real)
    (w w' : world) (yhat : list string) (yhat_prob : list Q) :
  get_pred_seq_and_pred_prob_seq self x w = (w', Ok (yhat, yhat_prob)) →
  length yhat_prob = length yhat ∧ length yhat ≤ max_seq_len self.
Proof.
  unfold get_pred_seq_and_pred_prob_seq. rewrite run_lift_bind.
  destruct (size_at x 0) as [b|]; [|done]. case_decide; [|done].
  rewrite run_bind. destruct (encode_memory self x w) as [w1 [m|]]; [|done].
  rewrite run_lift_bind. destruct (start_sequence self) as [y0|]; [|done].
  rewrite run_bind.
  destruct (decode_loop_prob self m (max_seq_len self) y0 [] [] w1)
    as [w2 [[[y1 yh] pr]|]] eqn:E; [|done].
  rewrite run_ret. intros [= _ <- <-].
  apply decode_loop_prob_lengths in E; [|done]. simpl in E. done.
Qed.

End Predictions.

(** The tokens of [y[0][1:]], entry by entry. *)
Lemma row0_tail_entries {A} (y : tensor A) (b L : nat) (toks : list A) :
  shape y = [b; L] → wf y → row0_tail y = Ok toks →
  length toks = L - 1 ∧ ∀ j, j + 1 < L → toks !! j = tget y [0; j + 1].
Proof.
  intros Hs Hwf. unfold row0_tail, wf in *. rewrite Hs in *. simpl in Hwf.
  case_decide as Hb; [|done]. intros [= <-].
  split.
  - rewrite length_drop, length_take. nia.
  - intros j Hj. rewrite lookup_drop, lookup_take_lt by lia.
    unfold tget. rewrite Hs. simpl.
    rewrite decide_True by lia. rewrite decide_True by lia. simpl.
    f_equal. lia.
Qed.

Section Vocabulary.
Context `{env : Env}.

(** C10. A model constructed without an evaluation vocabulary
    ([ytest_i2w=None]) decodes the ground truth with its own [i2w] from then
    on: after any steps and epoch ends that returned, [ytest_i2w] is still
    [i2w], the mapping given to the constructor, and every validation or test
    step that returns on a well-formed target [b, L] has appended one ground
    truth of [L - 1] words, the [j]-th being the [i2w] word of the token
    [y[0, j + 1]]. *)
Theorem evaluation_vocabulary_defaults (h wd msl : nat)
    (w2i0 : gmap string Z) (i2w0 : gmap Z string) (aw : Z) (p : Q)
    (w w' : world) (s0 s : Transformer) :
  Transformer_init h wd msl w2i0 i2w0 None aw p w = (w', Ok s0) →
  evolves s0 s →
  ytest_i2w s = i2w s ∧ i2w s = i2w0 ∧
  ∀ x y b L w1 w2 s',
    shape y = [b; L] → wf y →
    validation_step s x y w1 = (w2, Ok s') ∨ test_step s x y w1 = (w2, Ok s') →
    ∃ truth,
      Y s' = Y s ++ [truth] ∧ length truth = L - 1 ∧
      ∀ j, j + 1 < L →
        ∃ tok word, tget y [0; j + 1] = Some tok ∧ i2w0 !! tok = Some word ∧
                    truth !! j = Some word.
Proof.
  intros Hinit Hev.
  destruct (Transformer_init_fields _ _ _ _ _ _ _ _ _ _ _ Hinit)
    as (_ & Hi & Hy & _). simpl in Hy.
  destruct (evolves_same_weights _ _ Hev) as [Hs _].
  assert (ytest_i2w s = i2w0 ∧ i2w s = i2w0) as [Hys His].
  { rewrite Hs. simpl. done. }
  split; [congruence|]. split; [done|].
  intros x y b L w1 w2 s' Hshape Hwf Hstep.
  assert (validation_step s x y w1 = (w2, Ok s')) as Hval by (by destruct Hstep).
  destruct (validation_step_records _ _ _ _ _ _ Hval)
    as (toks & truth & yhat & Ht & Hl & ->).
  destruct (row0_tail_entries y b L toks Hshape Hwf Ht) as [Hlen Htoks].
  apply list_comprehension_Forall2 in Hl. rewrite Hys in Hl.
  exists truth. split; [done|].
  split; [by rewrite <- (Forall2_length _ _ _ Hl)|].
  intros j Hj.
  destruct (lookup_lt_is_Some_2 toks j) as [tok Htok]; [lia|].
  destruct (Forall2_lookup_l _ _ _ _ _ Hl Htok) as (word & Hword & Hget).
  exists tok, word. rewrite <- Htoks by done. split_and!; try done.
  unfold dict_get in Hget. by destruct (i2w0 !! tok); simplify_eq/=.
Qed.

End Vocabulary.

Section Training.
Context `{env : Env}.

(** X11. The index loops of [apply_teacher_forcing] compute the
    token-by-token corruptor over the batch in row-major order: one
    [random.random()] per position, one [random.randint] per selected token that
    is not padding, the random state threaded through; the result is a new
    tensor of the same shape appended to the store, and nothing is printed,
    logged or asked of the decoder. *)
Theorem apply_teacher_forcing_is_corrupt_tokens (self : Transformer)
    (y : loc) (w : world) (t : tensor Z) (B L : nat)
    (d' : list Z) (r' : rng_state) :
  heap w !! y = Some t → shape t = [B; L] → wf t →
  corrupt_tokens (teacher_forcing_prob self) (padding_idx self)
    (size (w2i self)) (data t) (rng w) = Some (d', r') →
  apply_teacher_forcing self y w =
    (World (heap w ++ [Tensor [B; L] d']) r' (gen w) (events w),
     Ok (length (heap w))) ∧
  length d' = B * L.
Proof.
  intros Hy Hs Hwf Hc. split.
  - by eapply apply_teacher_forcing_refines.
  - rewrite (corrupt_tokens_length _ _ _ _ _ _ _ Hc).
    by eapply data_length.
Qed.

Lemma run_training_step (self : Transformer) (x : tensor real)
    (xl : tensor Z) (y_in : loc) (y_out : tensor Z) (w : world)
    (t : tensor Z) (B L : nat) (d' : list Z) (r' : rng_state) :
  heap w !! y_in = Some t → shape t = [B; L] → wf t →
  corrupt_tokens (teacher_forcing_prob self) (padding_idx self)
    (size (w2i self)) (data t) (rng w) = Some (d', r') →
  let t' := Tensor [B; L] d' in
  let w1 := World (heap w ++ [t']) r' (gen w) (events w) in
  training_step self x xl y_in y_out w =
    match encode_memory self x w1 with
    | (w2, Raise e) => (w2, Raise e)
    | (w2, Ok m) =>
        let w3 := set_events (events w2 ++ [DecoderCall t' m (Some xl)]) w2 in
        match decoder self t' m (Some xl) with
        | Raise e => (w3, Raise e)
        | Ok yhat =>
            match compute_loss self yhat y_out with
            | Raise e => (w3, Raise e)
            | Ok loss =>
                (set_events (events w3 ++ [Logged "train_loss" loss]) w3,
                 Ok loss)
            end
        end
    end.
Proof.
  intros Hy Hs Hwf Hc t' w1. unfold training_step.
  rewrite (run_bind_Ok _ _ _ _ _
             (apply_teacher_forcing_refines self y_in w t B L Hy Hs Hwf d' r' Hc)).
  fold t' w1. rewrite run_bind. unfold Transformer_forward. rewrite run_bind.
  pose proof (encode_memory_frame self x w1) as (_ & _ & Hh).
  destruct (encode_memory self x w1) as [w2 [m|e]]; [|done]. simpl in Hh.
  assert (heap w2 !! length (heap w) = Some t') as Ht'.
  { rewrite Hh. unfold w1. simpl. by rewrite lookup_app_r, Nat.sub_diag. }
  rewrite (run_bind_Ok _ _ _ _ _ (run_load _ _ _ Ht')).
  unfold call_decoder. rewrite run_emit_bind. unfold lift at 1. cbn zeta.
  destruct (decoder self t' m (Some xl)) as [yhat|e]; [|done].
  rewrite run_lift_bind.
  destruct (compute_loss self yhat y_out) as [loss|e]; [|done].
  by rewrite run_emit_bind, run_ret.
Qed.

(** X15. [training_step] on a batch [batch, seq_len] and a non-empty
    vocabulary never changes the caller's target tensor; when it returns, the
    decoder has been called exactly once, on the corrupted copy (a new
    tensor), the encoded memory and the lengths [xl], the loss is that of
    the decoder's answer against [y_out], and it is logged once as
    "train_loss". *)
Theorem training_step_trace (self : Transformer) (x : tensor real)
    (xl : tensor Z) (y_in : loc) (y_out : tensor Z) (w : world)
    (t : tensor Z) (B L : nat) :
  heap w !! y_in = Some t → shape t = [B; L] → wf t → 0 < size (w2i self) →
  ∃ w' r,
    training_step self x xl y_in y_out w = (w', r) ∧
    heap w' !! y_in = Some t ∧
    ∀ loss, r = Ok loss →
      ∃ t' m yhat,
        heap w' = heap w ++ [t'] ∧ shape t' = [B; L] ∧
        corrupt_tokens (teacher_forcing_prob self) (padding_idx self)
          (size (w2i self)) (data t) (rng w) = Some (data t', rng w') ∧
        (encode_memory self x
           (World (heap w ++ [t']) (rng w') (gen w) (events w))).2 = Ok m ∧
        decoder self t' m (Some xl) = Ok yhat ∧
        compute_loss self yhat y_out = Ok loss ∧
        events w' =
          events w ++ [DecoderCall t' m (Some xl); Logged "train_loss" loss].
Proof.
  intros Hy Hs Hwf HV. pose proof (lookup_lt_Some _ _ _ Hy) as Hlt.
  destruct (corrupt_tokens_total (teacher_forcing_prob self) (padding_idx self)
              (size (w2i self)) (data t) (rng w) HV) as [[d' r'] Hc].
  rewrite (run_training_step self x xl y_in y_out w t B L d' r' Hy Hs Hwf Hc).
  cbn zeta. set (t' := Tensor [B; L] d'). set (w1 := World _ r' _ _).
  pose proof (encode_memory_frame self x w1) as (He & Hr & Hh).
  destruct (encode_memory self x w1) as [w2 [m|e]] eqn:Em; simpl in He, Hr, Hh.
  2:{ eexists _, _. split; [done|]. rewrite Hh. unfold w1. simpl.
      split; [by rewrite lookup_app_l|done]. }
  destruct (decoder self t' m (Some xl)) as [yhat|e] eqn:Ed.
  2:{ eexists _, _. split; [done|]. simpl. rewrite Hh. unfold w1. simpl.
      split; [by rewrite lookup_app_l|done]. }
  destruct (compute_loss self yhat y_out) as [loss|e] eqn:El.
  2:{ eexists _, _. split; [done|]. simpl. rewrite Hh. unfold w1. simpl.
      split; [by rewrite lookup_app_l|done]. }
  eexists _, _. split; [done|]. simpl. rewrite Hh, He, Hr. unfold w1. simpl.
  split; [by rewrite lookup_app_l|].
  intros loss' [= <-]. exists t', m, yhat.
  split_and!; try done.
  - fold w1. by rewrite Em.
  - by rewrite <- app_assoc.
Qed.

End Training.

(* ================================================================== *)
(** * The theorems at the concrete environment *)

Lemma autoregressive_loop_state_machine_witness :
  ∃ fed o s' out',
    decodes demo_self demo_image_memory (max_seq_len demo_self) [1%Z] []
      fed o s' out' ∧
    autoregressive_decoding demo_self demo_image demo_world =
      (set_events (events demo_world ++ decoder_calls demo_image_memory fed)
         demo_world, result_of o s' out') ∧
    (validation_step demo_self demo_image demo_batch demo_world).1 =
      set_events (events demo_world ++ decoder_calls demo_image_memory fed)
        demo_world ∧
    (∀ self', (validation_step demo_self demo_image demo_batch demo_world).2 =
                Ok self' →
              YHat self' = YHat demo_self ++ [out']) ∧
    match o with
    | EosReached =>
        last out' = Some EOS_TOKEN ∧ length s' = length out' ∧
        ∀ j word, out' !! j = Some word → S j < length out' → word ≠ EOS_TOKEN
    | BoundReached =>
        (EOS_TOKEN ∉ out') ∧ length out' = max_seq_len demo_self ∧
        length s' = S (max_seq_len demo_self)
    | Failed e =>
        (validation_step demo_self demo_image demo_batch demo_world).2 = Raise e
    end.
Proof.
  apply (autoregressive_loop_state_machine demo_self demo_image demo_batch
           [1; 16; 16] demo_world demo_world demo_image_memory 1%Z).
  - reflexivity.
  - vm_compute. reflexivity.
  - reflexivity.
Defined.

Lemma demo_topk1_contract : topk1_contract.
Proof.
  intros d Hs. simpl. unfold demo_topk1, argmax. rewrite Hs.
  destruct (data d) as [|v l] eqn:Hd; [done|].
  destruct (argmax_list (length (v :: l)) v l) as (k & p & Ha & Hk & Hmax & _).
  unfold argmax in Ha. cbn [shape data] in Ha. injection Ha as Ha.
  rewrite bind_Ok. cbn zeta. rewrite Ha, Hk. done.
Qed.

Lemma demo_decoder_no_tied_top (tgt : tensor Z) (m : tensor real)
    (scores : tensor Q) :
  decoder demo_self tgt m None = Ok scores → no_tied_top scores.
Proof.
  simpl. unfold demo_decoder.
  destruct (shape tgt) as [|b [|l [|]]]; try done.
  case_decide; [|done].
  set (best := match l with 1 => 3 | 2 => 4 | _ => 2 end).
  assert (best < 5) as Hbest by (unfold best; destruct l as [|[|[|]]]; lia).
  clearbody best. intros [= <-].
  assert (∀ t, top_of_last_position
                 (tbuild [b; 5; l] (λ idx,
                    match idx with
                    | [_; v; _] => if decide (v = best) then 1%Q else 0%Q
                    | _ => 0%Q
                    end)) t → t = best) as Htop.
  { intros t (b' & V & L & Hs & Hb & HL & Ht & Hmax).
    cbn [shape tbuild] in Hs. injection Hs as <- <- <-.
    specialize (Hmax best Hbest). unfold last_score in Hmax.
    cbn [shape tbuild] in Hmax. fold (tbuild (A := Q)) in Hmax.
    rewrite !tget_d_tbuild in Hmax by in_bounds.
    rewrite decide_True in Hmax by done.
    destruct (decide (t = best)); [done|]. by apply Qle_bool_iff in Hmax. }
  intros t1 t2 H1 H2. by rewrite (Htop _ H1), (Htop _ H2).
Qed.

Lemma prob_variant_same_words_witness :
  (get_pred_seq_and_pred_prob_seq demo_self demo_image demo_world).1 =
    (autoregressive_decoding demo_self demo_image demo_world).1 ∧
  match (get_pred_seq_and_pred_prob_seq demo_self demo_image demo_world).2,
        (autoregressive_decoding demo_self demo_image demo_world).2 with
  | Ok (yhat, yhat_prob), Ok (_, yhat') =>
      yhat = yhat' ∧ length yhat_prob = length yhat ∧
      ∃ m fed,
        (encode_memory demo_self demo_image demo_world).2 = Ok m ∧
        events (get_pred_seq_and_pred_prob_seq demo_self demo_image demo_world).1 =
          events demo_world ++ decoder_calls m fed ∧
        length fed = length yhat ∧
        ∀ j s p, fed !! j = Some s → yhat_prob !! j = Some p →
          ∃ word, yhat !! j = Some word ∧ top1_score_of demo_self m s word p
  | Raise _, Raise _ => True
  | _, _ => False
  end.
Proof.
  apply (prob_variant_same_words demo_self demo_image demo_world).
  - exact demo_topk1_contract.
  - exact demo_decoder_no_tied_top.
Defined.

Lemma greedy_decoding_deterministic_witness :
  match (validation_step demo_self demo_image demo_batch demo_world).2,
        (validation_step demo_self_later demo_image demo_batch
           demo_world_later).2 with
  | Ok s1, Ok s2 =>
      ∃ yhat, YHat s1 = YHat demo_self ++ [yhat] ∧
              YHat s2 = YHat demo_self_later ++ [yhat] ∧
              length yhat ≤ max_seq_len demo_self
  | Raise e1, Raise e2 => e1 = e2
  | _, _ => False
  end ∧
  rng (validation_step demo_self demo_image demo_batch demo_world).1 =
    rng demo_world ∧
  rng (validation_step demo_self_later demo_image demo_batch
         demo_world_later).1 = rng demo_world_later.
Proof.
  apply (greedy_decoding_deterministic demo_self demo_self_later demo_image
           demo_batch demo_world demo_world_later); reflexivity.
Defined.

Lemma evaluation_vocabulary_defaults_witness :
  ytest_i2w demo_step_self = i2w demo_step_self ∧
  i2w demo_step_self = demo_i2w ∧
  ∃ truth,
    Y demo_step_again_self = Y demo_step_self ++ [truth] ∧
    length truth = 3 - 1 ∧
    ∀ j, j + 1 < 3 →
      ∃ tok word, tget demo_batch [0; j + 1] = Some tok ∧
                  demo_i2w !! tok = Some word ∧ truth !! j = Some word.
Proof.
  assert (Transformer_init 16 16 10 demo_w2i demo_i2w None (-1) (1 # 2)
            demo_world = (demo_init.1, Ok demo_init_self)) as Hinit
    by (vm_compute; reflexivity).
  assert (evolves demo_init_self demo_step_self) as Hev.
  { apply (evolves_validation demo_init_self demo_init_self demo_step_self
             demo_image demo_batch demo_world demo_step.1);
      [apply evolves_start | vm_compute; reflexivity]. }
  destruct (evaluation_vocabulary_defaults 16 16 10 demo_w2i demo_i2w (-1)
              (1 # 2) demo_world demo_init.1 demo_init_self demo_step_self
              Hinit Hev) as (H1 & H2 & H3).
  split; [exact H1|]. split; [exact H2|].
  apply (H3 demo_image demo_batch 2 3 demo_step.1 demo_step_again.1
            demo_step_again_self); [reflexivity | reflexivity |].
  left. vm_compute. reflexivity.
Defined.

Lemma positional_table_rejects_odd_half_witness :
  PositionalEncoding2D_table 6 1 1 = Raise RuntimeError.
Proof. apply (positional_table_rejects_odd_half 0 1 1); lia. Defined.

Lemma positional_encoding_forward_adds_witness :
  ∃ x', PositionalEncoding2D_forward demo_pos_2d false demo_encoded demo_world =
          (demo_world, Ok x') ∧
        shape x' = [1; 256; 1; 2] ∧
        ∀ b c i j, b < 1 → c < 256 → i < 1 → j < 2 →
          ∃ u v, tget demo_encoded [b; c; i; j] = Some u ∧
                 tget (pe demo_pos_2d) [0; c; i; j] = Some v ∧
                 tget x' [b; c; i; j] = Some (RAdd u v).
Proof.
  apply (positional_encoding_forward_adds demo_pos_2d demo_encoded
           1 256 1 2 1 2 demo_world);
    first [vm_compute; reflexivity | lia].
Defined.

Lemma positional_encoding_forward_too_large_witness :
  PositionalEncoding2D_forward demo_small_pos_2d false demo_tall_grid demo_world =
    (demo_world, Raise RuntimeError).
Proof.
  apply (positional_encoding_forward_too_large demo_small_pos_2d false
           demo_tall_grid 1 4 4 3 2 2 2 demo_world);
    first [vm_compute; reflexivity | lia].
Defined.

Lemma encode_memory_layout_witness :
  ∃ m, encode_memory demo_self demo_image demo_world = (demo_world, Ok m) ∧
       shape m = [1; 1 * 2; 256] ∧
       ∀ b c i j, b < 1 → c < 256 → i < 1 → j < 2 →
         ∃ u v, tget demo_encoded [b; c; i; j] = Some u ∧
                tget (pe (pos_2d demo_self)) [0; c; i; j] = Some v ∧
                tget m [b; i * 2 + j; c] = Some (RAdd u v).
Proof.
  apply (encode_memory_layout demo_self demo_image demo_encoded
           1 256 1 2 1 2 demo_world);
    first [vm_compute; reflexivity | lia].
Defined.

Lemma flatten_features_injective_witness : demo_grid = demo_grid.
Proof.
  apply (flatten_features_injective demo_grid demo_grid 1 2 2 3); reflexivity.
Defined.

Lemma Transformer_init_succeeds_witness :
  ∃ self,
    Transformer_init 16 16 10 demo_w2i demo_i2w None (-1) (1 # 2) demo_world =
      (set_events (events demo_world ++ summary_events 16 16 10) demo_world,
       Ok self) ∧
    padding_idx self = 0%Z ∧ w2i self = demo_w2i ∧ i2w self = demo_i2w ∧
    ytest_i2w self = default demo_i2w None ∧
    Y self = [] ∧ YHat self = [] ∧
    shape (pe (pos_2d self)) =
      [1; 256; (16 + (HEIGHT_REDUCTION - 1)) / HEIGHT_REDUCTION;
               (16 + (WIDTH_REDUCTION - 1)) / WIDTH_REDUCTION] ∧
    wf (pe (pos_2d self)).
Proof.
  apply (Transformer_init_succeeds 16 16 10 demo_w2i demo_i2w None (-1) (1 # 2)
           0%Z demo_world);
    first [reflexivity | vm_compute; lia].
Defined.

Lemma test_epoch_end_displays_a_pair_witness :
  ∃ index r' y yhat,
    random_randint 0 (Z.of_nat (length (Y demo_self_later)) - 1)
      (rng demo_world) = Some (index, r') ∧
    Y demo_self_later !! Z.to_nat index = Some y ∧
    YHat demo_self_later !! Z.to_nat index = Some yhat ∧
    on_test_epoch_end demo_self_later demo_world =
      (World (heap demo_world) r' (gen demo_world)
         (events demo_world ++ logged_metrics "test" demo_self_later ++
          [Printed "Ground truth - " (Some y);
           Printed "Prediction - " (Some yhat)]),
       Ok (set_accumulators [] [] demo_self_later,
           compute_metrics (Y demo_self_later) (YHat demo_self_later))).
Proof.
  apply (test_epoch_end_displays_a_pair demo_self_later demo_world);
    [discriminate | reflexivity].
Defined.

Lemma inference_requires_single_sample_witness :
  validation_step demo_self demo_pair demo_batch demo_world =
    (demo_world, Raise AssertionError) ∧
  get_pred_seq_and_pred_prob_seq demo_self demo_pair demo_world =
    (demo_world, Raise AssertionError).
Proof.
  apply (inference_requires_single_sample demo_self demo_pair demo_batch
           2 [1; 16; 16] demo_world); [reflexivity | lia].
Defined.

Lemma accumulators_stay_parallel_witness :
  length (Y demo_step_self) = length (YHat demo_step_self) ∧
  w2i demo_step_self = demo_w2i ∧ i2w demo_step_self = demo_i2w ∧
  ytest_i2w demo_step_self = default demo_i2w None ∧
  padding_idx demo_step_self = padding_idx demo_init_self ∧
  max_seq_len demo_step_self = 10 ∧
  pos_2d demo_step_self = pos_2d demo_init_self.
Proof.
  apply (accumulators_stay_parallel 16 16 10 demo_w2i demo_i2w None (-1) (1 # 2)
           demo_world demo_init.1 demo_init_self demo_step_self).
  - vm_compute. reflexivity.
  - apply (evolves_validation demo_init_self demo_init_self demo_step_self
             demo_image demo_batch demo_world demo_step.1);
      [apply evolves_start | vm_compute; reflexivity].
Defined.

Lemma apply_teacher_forcing_is_corrupt_tokens_witness :
  apply_teacher_forcing demo_self 0 demo_batch_world =
    (World (heap demo_batch_world ++ [Tensor [2; 3] [1; 3; 0; 2; 0; 0]%Z]) 9
       (gen demo_batch_world) (events demo_batch_world),
     Ok (length (heap demo_batch_world))) ∧
  length [1; 3; 0; 2; 0; 0]%Z = 2 * 3.
Proof.
  apply (apply_teacher_forcing_is_corrupt_tokens demo_self 0 demo_batch_world
           demo_batch 2 3 [1; 3; 0; 2; 0; 0]%Z 9);
    vm_compute; reflexivity.
Defined.

Lemma validation_step_records_pair_witness :
  ∃ toks truth yhat,
    demo_step_self =
      set_accumulators (Y demo_init_self ++ [truth])
        (YHat demo_init_self ++ [yhat]) demo_init_self ∧
    row0_tail demo_batch = Ok toks ∧
    Forall2 (λ tok word, ytest_i2w demo_init_self !! tok = Some word)
      toks truth ∧
    length yhat ≤ max_seq_len demo_init_self ∧
    (∀ word, word ∈ yhat → ∃ tok, i2w demo_init_self !! tok = Some word) ∧
    (∀ j word, yhat !! j = Some word → S j < length yhat → word ≠ EOS_TOKEN).
Proof.
  apply (validation_step_records_pair demo_init_self demo_step_self demo_image
           demo_batch demo_world demo_step.1).
  vm_compute. reflexivity.
Defined.

Lemma pred_prob_seq_lengths_witness :
  length [1; 1; 1]%Q = length ["a"; "b"; "<EOS>"] ∧
  length ["a"; "b"; "<EOS>"] ≤ max_seq_len demo_self.
Proof.
  apply (pred_prob_seq_lengths demo_self demo_image demo_world
           (get_pred_seq_and_pred_prob_seq demo_self demo_image demo_world).1
           ["a"; "b"; "<EOS>"] [1; 1; 1]%Q).
  vm_compute. reflexivity.
Defined.

Lemma training_step_trace_witness :
  ∃ w' r,
    training_step demo_self demo_image demo_lengths 0 demo_batch
      demo_batch_world = (w', r) ∧
    heap w' !! 0 = Some demo_batch ∧
    ∀ loss, r = Ok loss →
      ∃ t' m yhat,
        heap w' = heap demo_batch_world ++ [t'] ∧ shape t' = [2; 3] ∧
        corrupt_tokens (teacher_forcing_prob demo_self) (padding_idx demo_self)
          (size (w2i demo_self)) (data demo_batch) (rng demo_batch_world) =
          Some (data t', rng w') ∧
        (encode_memory demo_self demo_image
           (World (heap demo_batch_world ++ [t']) (rng w')
              (gen demo_batch_world) (events demo_batch_world))).2 = Ok m ∧
        decoder demo_self t' m (Some demo_lengths) = Ok yhat ∧
        compute_loss demo_self yhat demo_batch = Ok loss ∧
        events w' =
          events demo_batch_world ++
          [DecoderCall t' m (Some demo_lengths); Logged "train_loss" loss].
Proof.
  apply (training_step_trace demo_self demo_image demo_lengths 0 demo_batch
           demo_batch_world demo_batch 2 3);
    first [reflexivity | vm_compute; lia].
Defined.

Lemma Transformer_init_fails_witness :
  Transformer_init 16 16 10 (delete "<PAD>" demo_w2i) demo_i2w None (-1) (1 # 2)
    demo_world = (demo_world, Raise KeyError).
Proof.
  apply (Transformer_init_fails 16 16 10 (delete "<PAD>" demo_w2i) demo_i2w None
           (-1) (1 # 2) demo_world).
  vm_compute. reflexivity.
Defined.

Lemma validation_step_frame_witness :
  heap (validation_step demo_self demo_image demo_batch demo_world).1 =
    heap demo_world ∧
  rng (validation_step demo_self demo_image demo_batch demo_world).1 =
    rng demo_world ∧
  gen (validation_step demo_self demo_image demo_batch demo_world).1 =
    gen demo_world.
Proof.
  destruct (validation_step_frame demo_self demo_image demo_batch demo_world)
    as (Hh & Hr & Hg).
  split_and!; [exact Hh | exact Hr | apply Hg; reflexivity].
Defined.

Lemma last_topk1_contract : @topk1_contract tie_env.
Proof.
  intros d Hs. simpl. unfold last_topk1. rewrite Hs.
  destruct (reverse (data d)) as [|v l] eqn:Hrev.
  { simpl. apply (f_equal reverse) in Hrev. by rewrite reverse_involutive in Hrev. }
  destruct (argmax_list (length (data d)) v l) as (k & p & Ha & Hk & Hmax & _).
  rewrite Ha, bind_Ok. cbn zeta.
  pose proof (lookup_lt_Some _ _ _ Hk) as Hlt.
  rewrite <- Hrev in Hk, Hmax, Hlt. rewrite length_reverse in Hlt.
  rewrite reverse_lookup in Hk by done.
  replace (length (data d) - 1 - k) with (length (data d) - S k) by lia.
  rewrite Hk. split; [done|].
  intros j q Hj. pose proof (lookup_lt_Some _ _ _ Hj) as Hjl.
  apply (Hmax (length (data d) - S j)).
  rewrite reverse_lookup by lia.
  by replace (length (data d) - S (length (data d) - S j)) with j by lia.
Qed.

(** C7 as stated, at an input where it fails: with a [topk] that keeps its
    contract and takes the last of the tied indices, and a decoder whose
    scores are all equal, the plain loop predicts "<PAD>" twice and the
    probability-recording variant "b" twice. *)
Lemma prob_variant_differs_on_ties :
  @topk1_contract tie_env ∧
  (@autoregressive_decoding tie_env tie_self demo_image tie_world).2 =
    Ok (row [1; 0; 0]%Z, ["<PAD>"; "<PAD>"]) ∧
  (@get_pred_seq_and_pred_prob_seq tie_env tie_self demo_image tie_world).2 =
    Ok (["b"; "b"], [0%Q; 0%Q]).
Proof.
  split; [exact last_topk1_contract|]. split; vm_compute; reflexivity.
Qed.
